(** * ctyencode: the typed-value encoding engine

    A shallow embedding of [Encode] and its handlers (package ctyencode),
    the recursive, type-directed marshaler that turns a Go value seen
    through reflection into a [cty.Value] conforming to a target
    [cty.Type], or into a path-annotated error.

    Conventions of the embedding.
    - Go package qualifiers are written with an underscore:
      [cty.NullVal] is [cty_NullVal], [reflect.Struct] is [reflect_Struct].
    - A Go function returning [(cty.Value, error)] returns a [Returned]
      record; it also records the value the function's local variable
      [path] holds when it returns, so that the growing and shrinking of
      the path can be stated.
    - The value model (cty) is a library the encoder consumes: its
      constructors are kept as constructors of [cty_Value], one per
      library call.  [convert.Convert], the struct-tag resolver
      [rivertags.Get] and Go's assignability between program types are
      parameters, collected in the class [Libraries].
    - A panic of the encoder's own calls into reflect (the type
      assertion of the passthrough, [MapIndex] with a key that is not
      assignable to the key type of the map) is an outcome of the model,
      see [runtime_panic].  Panics raised inside the cty library (for
      instance [cty.ListVal] given elements of different types) are
      outside the model. *)

From Stdlib Require Import ZArith String List.
From Stdlib Require Import Floats.SpecFloat.
From stdpp Require Import base option list gmap strings.

Set Warnings "-register-all".
Local Open Scope Z_scope.
Local Open Scope nat_scope.

(** ** Package reflect: kinds and types *)

(** [reflect.Kind], all of its members. *)
Inductive reflect_Kind :=
| reflect_Invalid | reflect_Bool
| reflect_Int | reflect_Int8 | reflect_Int16 | reflect_Int32 | reflect_Int64
| reflect_Uint | reflect_Uint8 | reflect_Uint16 | reflect_Uint32
| reflect_Uint64 | reflect_Uintptr
| reflect_Float32 | reflect_Float64 | reflect_Complex64 | reflect_Complex128
| reflect_Array | reflect_Chan | reflect_Func | reflect_Interface
| reflect_Map | reflect_Ptr | reflect_Slice | reflect_String
| reflect_Struct | reflect_UnsafePointer.

#[global] Instance reflect_Kind_eq_dec : EqDecision reflect_Kind.
Proof. solve_decision. Defined.

(** A [reflect.Type] as far as the encoder looks at one: its printed name
    and its kind. *)
Record reflect_Type := GoType { Type_String : string; Type_Kind : reflect_Kind }.

#[global] Instance reflect_Type_eq_dec : EqDecision reflect_Type.
Proof. solve_decision. Defined.

(** Width of an integer kind; [W0] is the platform width ([int], [uint]). *)
Inductive Width := W0 | W8 | W16 | W32 | W64.

Definition Kind_Int (w : Width) : reflect_Kind :=
  match w with
  | W0 => reflect_Int | W8 => reflect_Int8 | W16 => reflect_Int16
  | W32 => reflect_Int32 | W64 => reflect_Int64
  end.

Definition Kind_Uint (w : Width) : reflect_Kind :=
  match w with
  | W0 => reflect_Uint | W8 => reflect_Uint8 | W16 => reflect_Uint16
  | W32 => reflect_Uint32 | W64 => reflect_Uint64
  end.

(** The kinds no handler of the encoder accepts. *)
Inductive OtherKind :=
| Uintptr | Complex64 | Complex128 | Chan | Func | UnsafePointer.

Definition Kind_Other (k : OtherKind) : reflect_Kind :=
  match k with
  | Uintptr => reflect_Uintptr | Complex64 => reflect_Complex64
  | Complex128 => reflect_Complex128 | Chan => reflect_Chan
  | Func => reflect_Func | UnsafePointer => reflect_UnsafePointer
  end.

(** ** Package cty: types *)

(** [cty.Type].  [cty_NilType] is the zero [cty.Type], which has no
    constructor.  An object type's attributes are listed in the order in
    which [range attrTypes] visits them; the names are pairwise distinct. *)
Inductive cty_Type :=
| cty_NilType
| cty_Bool
| cty_Number
| cty_String
| cty_DynamicPseudoType
| cty_List (ety : cty_Type)
| cty_Map (ety : cty_Type)
| cty_Set (ety : cty_Type)
| cty_Object (attrTypes : list (string * cty_Type))
| cty_Tuple (elemTypes : list cty_Type)
| cty_Capsule (name : string) (EncapsulatedType : reflect_Type).

(** ** Go values and cty values *)

(** [float64], and [big.Float]: sign, mantissa and binary exponent. *)
Definition float64 := spec_float.
Definition big_Float := spec_float.

(** [GoData] is what a Go value holds.  [DInvalid] is the content of the
    zero [reflect.Value], which [reflect.ValueOf(nil)] returns.  A struct
    of one of the library types [cty.Value], [big.Int], [big.Float] and
    [set.Set] carries what a type assertion to that type yields.

    The entries of a map are listed in the order [MapKeys] returns them,
    each key as [kv.String()] gives it. *)
Inductive GoData :=
| DInvalid
| DBool (b : bool)
| DInt (w : Width) (i : Z)
| DUint (w : Width) (u : Z)
| DFloat (single : bool) (f : float64)
| DOther (k : OtherKind)
| DString (s : string)
| DPtr (elem : option GoData)
| DInterface (elem : option GoData)
| DSlice (elems : option (list GoData))
| DArray (elems : list GoData)
| DMap (key : reflect_Type) (entries : option (list (string * GoData)))
| DStruct (t : StructType) (fields : list GoData)

(** The type of a struct value: declared by the calling program, or one
    of the four library types the encoder singles out. *)
with StructType :=
| Declared (name : string)
| Is_cty_Value (v : cty_Value)
| Is_big_Int (i : Z)
| Is_big_Float (f : big_Float)
| Is_set_Set (Values : list GoData)

(** [cty.Value], by the library call that builds it. *)
with cty_Value :=
| cty_NilVal
| cty_NullVal (ty : cty_Type)
| cty_BoolVal (b : bool)
| cty_NumberIntVal (i : Z)
| cty_NumberUIntVal (u : Z)
| cty_NumberFloatVal (f : float64)
| cty_NumberVal (f : big_Float)
| cty_StringVal (s : string)
| cty_ListValEmpty (ety : cty_Type)
| cty_ListVal (vals : list cty_Value)
| cty_MapValEmpty (ety : cty_Type)
| cty_MapVal (vals : gmap string cty_Value)
| cty_SetValEmpty (ety : cty_Type)
| cty_SetVal (vals : list cty_Value)
| cty_EmptyObjectVal
| cty_ObjectVal (attrs : gmap string cty_Value)
| cty_EmptyTupleVal
| cty_TupleVal (elems : list cty_Value)
| cty_CapsuleVal (ty : cty_Type) (wrapVal : GoData).

(** [Value.IsNull]. *)
Definition cty_IsNull (v : cty_Value) : bool :=
  match v with cty_NullVal _ => true | _ => false end.

(** [(&big.Float{}).SetInt(&bigInt)]: the integer, exactly. *)
Definition big_SetInt (i : Z) : big_Float :=
  match i with
  | Z0 => S754_zero false
  | Zpos p => S754_finite false p 0
  | Zneg p => S754_finite true p 0
  end.

(** ** Package cty: paths and path errors *)

(** [cty.PathStep]; [cty_PathStep_nil] is the nil step [append] puts in
    the fresh last slot. *)
Inductive cty_PathStep :=
| cty_PathStep_nil
| cty_IndexStep (Key : cty_Value)
| cty_GetAttrStep (Name : string).

Abbreviation cty_Path := (list cty_PathStep).

(** The messages of the encoder: the format string of each [NewErrorf]
    call with its arguments.  The last two are not messages of
    [NewErrorf]: they are the run-time panics the encoder can raise, a
    failed type assertion and [reflect.Value.MapIndex: value of type
    string is not assignable to type] followed by the key type. *)
Inductive Message :=
| unsupported_target_type (ty : cty_Type)
| cant_convert_to_bool (k : reflect_Kind)
| cant_convert_to_number (k : reflect_Kind)
| cant_convert_to_string (k : reflect_Kind)
| cant_convert_kind_to (k : reflect_Kind) (ty : cty_Type)
| cant_convert_type_to (t : reflect_Type) (ty : cty_Type)
| key_type_must_be_string (keyType : reflect_Type)
| wrong_number_of_elements (have need : nat)
| wrong_number_of_struct_fields (have need : nat)
| must_be_addressable (capsuleType : cty_Type)
| not_compatible_with_capsule (val : GoData) (capsuleType : cty_Type)
| only_cty_Value_allowed_type (t : reflect_Type)
| only_cty_Value_allowed_kind (k : reflect_Kind)
| unsuitable_value (err : string)
| interface_conversion_panic
| MapIndex_panic (keyType : reflect_Type).

(** [cty.PathError]. *)
Record cty_PathError := PathError { error : Message; Path : cty_Path }.

(** [path.NewErrorf]: the error holds a copy of the path. *)
Definition NewErrorf (path : cty_Path) (msg : Message) : cty_PathError :=
  {| error := msg; Path := path |}.

(** A panic ends the encoding at once: no handler recovers from it and
    every caller is unwound.  In the model it is the outcome whose error
    is [runtime_panic]; the handlers hand it on untouched, as they hand on
    the error of a recursive call, and [panicked] tells it from an error
    the encoder returns.  It records the path the encoder was at. *)
Definition runtime_panic (path : cty_Path) (msg : Message) : cty_PathError :=
  {| error := msg; Path := path |}.

Definition panicked (e : cty_PathError) : bool :=
  match error e with
  | interface_conversion_panic | MapIndex_panic _ => true
  | _ => false
  end.

(** ** Package reflect: values *)

(** A [reflect.Value]: what it holds and whether it is addressable
    (reflect's [flagAddr]). *)
Record reflect_Value := mkValue { data : GoData; flagAddr : bool }.

(** [reflect.Value{}]. *)
Definition reflect_Value_zero : reflect_Value := mkValue DInvalid false.

(** [reflect.ValueOf]: never addressable. *)
Definition reflect_ValueOf (i : GoData) : reflect_Value := mkValue i false.

Definition Value_Kind (val : reflect_Value) : reflect_Kind :=
  match data val with
  | DInvalid => reflect_Invalid
  | DBool _ => reflect_Bool
  | DInt w _ => Kind_Int w
  | DUint w _ => Kind_Uint w
  | DFloat single _ => if single then reflect_Float32 else reflect_Float64
  | DOther k => Kind_Other k
  | DString _ => reflect_String
  | DPtr _ => reflect_Ptr
  | DInterface _ => reflect_Interface
  | DSlice _ => reflect_Slice
  | DArray _ => reflect_Array
  | DMap _ _ => reflect_Map
  | DStruct _ _ => reflect_Struct
  end.

(** [val != (reflect.Value{})] and [val.IsValid()] agree. *)
Definition Value_IsValid (val : reflect_Value) : bool :=
  match data val with DInvalid => false | _ => true end.

Definition Value_IsNil (val : reflect_Value) : bool :=
  match data val with
  | DPtr None | DInterface None | DSlice None | DMap _ None => true
  | _ => false
  end.

(** [val.Elem()]: what a pointer points to is addressable, what an
    interface holds is not. *)
Definition Value_Elem (val : reflect_Value) : reflect_Value :=
  match data val with
  | DPtr (Some d) => mkValue d true
  | DInterface (Some d) => mkValue d false
  | _ => reflect_Value_zero
  end.

Definition Value_Len (val : reflect_Value) : nat :=
  match data val with
  | DSlice (Some elems) | DArray elems => length elems
  | DMap _ (Some entries) => length entries
  | DString s => String.length s
  | _ => 0
  end.

(** [val.Index(i)]: an element of a slice is addressable, an element of
    an array is if the array is. *)
Definition Value_Index (val : reflect_Value) (i : nat) : reflect_Value :=
  match data val with
  | DSlice (Some elems) => mkValue (default DInvalid (elems !! i)) true
  | DArray elems => mkValue (default DInvalid (elems !! i)) (flagAddr val)
  | _ => reflect_Value_zero
  end.

(** [val.Type().NumField()] and [val.Field(i)]. *)
Definition Value_NumField (val : reflect_Value) : nat :=
  match data val with DStruct _ fields => length fields | _ => 0 end.

Definition Value_Field (val : reflect_Value) (i : nat) : reflect_Value :=
  match data val with
  | DStruct _ fields => mkValue (default DInvalid (fields !! i)) (flagAddr val)
  | _ => reflect_Value_zero
  end.

(** [val.MapKeys()], each key already as [kv.String()]. *)
Definition Value_MapKeys (val : reflect_Value) : list string :=
  match data val with DMap _ (Some entries) => entries.*1 | _ => [] end.

(** The predeclared type [string], the type of [reflect.ValueOf(k)] for
    a string [k]. *)
Definition stringType : reflect_Type := GoType "string" reflect_String.

(** [val.MapIndex(reflect.ValueOf(k))] for a string [k].  The key must be
    assignable to the key type of the map, or reflect panics, which is
    [None].  Among the key types of kind [String], the only ones the
    handlers call it for, [string] is assignable to [string] itself and to
    no defined type such as [type K string]; for the key types of another
    kind, which the handlers refuse before they get here, and for a value
    that is not a map, the model has [None] as well.  Otherwise the result
    is the value under the key, the zero Value when the key is not in the
    map or the map is nil; it is never addressable. *)
Definition Value_MapIndex (val : reflect_Value) (k : string)
  : option reflect_Value :=
  match data val with
  | DMap key entries =>
      if bool_decide (key = stringType) then
        match find (fun e => bool_decide (e.1 = k)) (default [] entries) with
        | Some e => Some (mkValue e.2 false)
        | None => Some reflect_Value_zero
        end
      else None
  | _ => None
  end.

(** [val.Type().Key()] of a map. *)
Definition Value_Type_Key (val : reflect_Value) : reflect_Type :=
  match data val with
  | DMap key _ => key
  | _ => GoType "" reflect_Invalid
  end.

Definition StructType_String (t : StructType) : string :=
  match t with
  | Declared name => name
  | Is_cty_Value _ => "cty.Value"
  | Is_big_Int _ => "big.Int"
  | Is_big_Float _ => "big.Float"
  | Is_set_Set _ => "set.Set"
  end.

(** [val.Type()], which the encoder asks of struct values. *)
Definition Value_Type (val : reflect_Value) : reflect_Type :=
  match data val with
  | DStruct t _ => GoType (StructType_String t) reflect_Struct
  | _ => GoType "" (Value_Kind val)
  end.

Definition Value_CanAddr (val : reflect_Value) : bool := flagAddr val.

(** [val.Addr()]: a pointer to the value. *)
Definition Value_Addr (val : reflect_Value) : reflect_Value :=
  mkValue (DPtr (Some (data val))) false.

(** [val.Interface()]. *)
Definition Value_Interface (val : reflect_Value) : GoData := data val.

Definition Value_Bool (val : reflect_Value) : bool :=
  match data val with DBool b => b | _ => false end.
Definition Value_Int (val : reflect_Value) : Z :=
  match data val with DInt _ i => i | _ => 0%Z end.
Definition Value_Uint (val : reflect_Value) : Z :=
  match data val with DUint _ u => u | _ => 0%Z end.
Definition Value_Float (val : reflect_Value) : float64 :=
  match data val with DFloat _ f => f | _ => S754_zero false end.
Definition Value_String (val : reflect_Value) : string :=
  match data val with DString s => s | _ => "" end.

(** The package variables [valueType], [bigIntType], [bigFloatType] and
    [setType]: the [reflect.Type] of [cty.Value], [big.Int], [big.Float]
    and [set.Set]. *)
Inductive LibraryType := valueType | bigIntType | bigFloatType | setType.

(** [val.Type().AssignableTo(t)] for one of these four struct types: a
    type is assignable to a struct type only when it is that type. *)
Definition Type_AssignableTo (val : reflect_Value) (t : LibraryType) : bool :=
  match data val, t with
  | DStruct (Is_cty_Value _) _, valueType
  | DStruct (Is_big_Int _) _, bigIntType
  | DStruct (Is_big_Float _) _, bigFloatType
  | DStruct (Is_set_Set _) _, setType => true
  | _, _ => false
  end.

(** The type assertions [val.Interface().(cty.Value)], [.(big.Int)],
    [.(big.Float)] and [.(set.Set)]. *)
Definition Interface_cty_Value (val : reflect_Value) : option cty_Value :=
  match data val with DStruct (Is_cty_Value v) _ => Some v | _ => None end.
Definition Interface_big_Int (val : reflect_Value) : option Z :=
  match data val with DStruct (Is_big_Int i) _ => Some i | _ => None end.
Definition Interface_big_Float (val : reflect_Value) : option big_Float :=
  match data val with DStruct (Is_big_Float f) _ => Some f | _ => None end.
Definition Interface_set_Set (val : reflect_Value) : option (list GoData) :=
  match data val with DStruct (Is_set_Set vs) _ => Some vs | _ => None end.

(** ** The libraries the encoder calls *)

(** A field as the struct-tag resolver reports it. *)
Record rivertags_Field := Field { Field_Name : string; Field_Index : nat }.

(** What [rivertags.Get] returns.  Package rivertags is not among the
    sources; the encoder calls one method of the result, [Get], and the
    result is kept as that method. *)
Definition rivertags_Fields := string -> option rivertags_Field.

(** [attrFields.Get(k)]. *)
Definition Fields_Get (attrFields : rivertags_Fields) (k : string)
  : option rivertags_Field := attrFields k.

(** The external collaborators: the value model's conversion, the
    struct-tag resolver, and Go's assignability of the type a pointer
    points to ([val.Type().Elem().AssignableTo(t)]) for program types. *)
Class Libraries := {
  convert_Convert : cty_Value -> cty_Type -> cty_Value * option string;
  rivertags_Get : reflect_Type -> rivertags_Fields;
  Elem_AssignableTo : reflect_Value -> reflect_Type -> bool
}.

(** [capsuleType.EncapsulatedType()]. *)
Definition cty_EncapsulatedType (ty : cty_Type) : reflect_Type :=
  match ty with
  | cty_Capsule _ t => t
  | _ => GoType "" reflect_Invalid
  end.

(** ** The encoder *)

(** What a function of the encoder returns: the [cty.Value] and the
    [error] of its Go signature, and the value of its local variable
    [path] at that moment. *)
Record Returned := Return {
  ret_path : cty_Path;
  ret_val : cty_Value;
  ret_err : option cty_PathError
}.

(** [unwrapPointer]: dereference while the kind is [Ptr] or [Interface];
    the zero Value at the first nil. *)
Fixpoint unwrap (d : GoData) (addr : bool) : reflect_Value :=
  match d with
  | DPtr None | DInterface None => reflect_Value_zero
  | DPtr (Some e) => unwrap e true
  | DInterface (Some e) => unwrap e false
  | _ => mkValue d addr
  end.

Definition unwrapPointer (val : reflect_Value) : reflect_Value :=
  unwrap (data val) (flagAddr val).

(** [path[len(path)-1] = step]. *)
Definition set_last_step (path : cty_Path) (step : cty_PathStep) : cty_Path :=
  <[length path - 1 := step]> path.

(** [path[:len(path)-1]]. *)
Definition drop_last_step (path : cty_Path) : cty_Path :=
  take (length path - 1) path.

(** The state of a loop when it is left: the local [path], the values
    collected in [vals], and the error that ended it, if one did. *)
Definition Loop (A : Type) : Type := cty_Path * A * option cty_PathError.

Section Handlers.
Context `{Libraries}.

(** The recursive call of the handlers. *)
Variable encode : reflect_Value -> cty_Type -> cty_Path -> Returned.

Definition encodeBool (val : reflect_Value) (path : cty_Path) : Returned :=
  let val := unwrapPointer val in
  if negb (Value_IsValid val) then Return path (cty_NullVal cty_Bool) None else
  match Value_Kind val with
  | reflect_Bool => Return path (cty_BoolVal (Value_Bool val)) None
  | k => Return path cty_NilVal (Some (NewErrorf path (cant_convert_to_bool k)))
  end.

Definition encodeNumber (val : reflect_Value) (path : cty_Path) : Returned :=
  let val := unwrapPointer val in
  if negb (Value_IsValid val) then Return path (cty_NullVal cty_Number) None else
  match Value_Kind val with
  | reflect_Int | reflect_Int8 | reflect_Int16 | reflect_Int32 | reflect_Int64 =>
      Return path (cty_NumberIntVal (Value_Int val)) None
  | reflect_Uint | reflect_Uint8 | reflect_Uint16 | reflect_Uint32 | reflect_Uint64 =>
      Return path (cty_NumberUIntVal (Value_Uint val)) None
  | reflect_Float32 | reflect_Float64 =>
      Return path (cty_NumberFloatVal (Value_Float val)) None
  | reflect_Struct =>
      (* a big.Int is first turned into a big.Float, whose fields are
         not looked at *)
      let val :=
        match Interface_big_Int val with
        | Some bigInt =>
            reflect_ValueOf (DStruct (Is_big_Float (big_SetInt bigInt)) [])
        | None => val
        end in
      match Interface_big_Float val with
      | Some bigFloat => Return path (cty_NumberVal bigFloat) None
      | None =>
          (* fallthrough *)
          Return path cty_NilVal
            (Some (NewErrorf path (cant_convert_to_number (Value_Kind val))))
      end
  | k => Return path cty_NilVal (Some (NewErrorf path (cant_convert_to_number k)))
  end.

Definition encodeString (val : reflect_Value) (path : cty_Path) : Returned :=
  let val := unwrapPointer val in
  if negb (Value_IsValid val) then Return path (cty_NullVal cty_String) None else
  match Value_Kind val with
  | reflect_String => Return path (cty_StringVal (Value_String val)) None
  | k => Return path cty_NilVal (Some (NewErrorf path (cant_convert_to_string k)))
  end.

(** The loop of [encodeList], [for i := range vals], over the indices
    still to visit. *)
Definition encodeList_range (val : reflect_Value) (ety : cty_Type) :=
  fix range (indices : list nat) (path : cty_Path) (vals : list cty_Value)
    {struct indices} : Loop (list cty_Value) :=
    match indices with
    | [] => (path, vals, None)
    | i :: indices =>
        let path := set_last_step path (cty_IndexStep (cty_NumberIntVal (Z.of_nat i))) in
        let r := encode (Value_Index val i) ety path in
        let vals := <[i := ret_val r]> vals in
        match ret_err r with
        | Some err => (path, vals, Some err)
        | None => range indices path vals
        end
    end.

Definition encodeList (val : reflect_Value) (ety : cty_Type) (path : cty_Path)
  : Returned :=
  let val := unwrapPointer val in
  if negb (Value_IsValid val) then Return path (cty_NullVal (cty_List ety)) None else
  (* case reflect.Array, which case reflect.Slice falls through to *)
  let array (_ : unit) :=
    if Value_Len val =? 0 then Return path (cty_ListValEmpty ety) None else
    let path := path ++ [cty_PathStep_nil] in
    let vals := replicate (Value_Len val) cty_NilVal in
    match encodeList_range val ety (seq 0 (length vals)) path vals with
    | (path, _, Some err) => Return path cty_NilVal (Some err)
    | (path, vals, None) =>
        let path := drop_last_step path in
        Return path (cty_ListVal vals) None
    end in
  match Value_Kind val with
  | reflect_Slice =>
      if Value_IsNil val then Return path (cty_NullVal (cty_List ety)) None
      else array ()
  | reflect_Array => array ()
  | k =>
      Return path cty_NilVal
        (Some (NewErrorf path (cant_convert_kind_to k (cty_List ety))))
  end.

(** The loop of [encodeMap], [for _, kv := range val.MapKeys()]. *)
Definition encodeMap_range (val : reflect_Value) (ety : cty_Type) :=
  fix range (keys : list string) (path : cty_Path) (vals : gmap string cty_Value)
    {struct keys} : Loop (gmap string cty_Value) :=
    match keys with
    | [] => (path, vals, None)
    | k :: keys =>
        let path := set_last_step path (cty_IndexStep (cty_StringVal k)) in
        match Value_MapIndex val k with
        | None =>
            (path, vals,
             Some (runtime_panic path (MapIndex_panic (Value_Type_Key val))))
        | Some elem =>
            let r := encode elem ety path in
            let vals := <[k := ret_val r]> vals in
            match ret_err r with
            | Some err => (path, vals, Some err)
            | None => range keys path vals
            end
        end
    end.

Definition encodeMap (val : reflect_Value) (ety : cty_Type) (path : cty_Path)
  : Returned :=
  let val := unwrapPointer val in
  if negb (Value_IsValid val) then Return path (cty_NullVal (cty_Map ety)) None else
  match Value_Kind val with
  | reflect_Map =>
      if Value_IsNil val then Return path (cty_NullVal (cty_Map ety)) None else
      if Value_Len val =? 0 then Return path (cty_MapValEmpty ety) None else
      let keyType := Value_Type_Key val in
      if negb (bool_decide (Type_Kind keyType = reflect_String)) then
        Return path cty_NilVal
          (Some (NewErrorf path (key_type_must_be_string keyType)))
      else
      let path := path ++ [cty_PathStep_nil] in
      match encodeMap_range val ety (Value_MapKeys val) path ∅ with
      | (path, _, Some err) => Return path cty_NilVal (Some err)
      | (path, vals, None) =>
          let path := drop_last_step path in
          Return path (cty_MapVal vals) None
      end
  | k =>
      Return path cty_NilVal
        (Some (NewErrorf path (cant_convert_kind_to k (cty_Map ety))))
  end.

(** The two loops of [encodeSet]: over the indices of a slice or an
    array, and over the values of a [set.Set].  Neither touches the
    path. *)
Definition encodeSet_range (val : reflect_Value) (ety : cty_Type) (path : cty_Path) :=
  fix range (indices : list nat) (vals : list cty_Value) {struct indices}
    : Loop (list cty_Value) :=
    match indices with
    | [] => (path, vals, None)
    | i :: indices =>
        let r := encode (Value_Index val i) ety path in
        let vals := <[i := ret_val r]> vals in
        match ret_err r with
        | Some err => (path, vals, Some err)
        | None => range indices vals
        end
    end.

Definition encodeSet_range_inVals (inVals : list GoData) (ety : cty_Type)
    (path : cty_Path) :=
  fix range (indices : list nat) (vals : list cty_Value) {struct indices}
    : Loop (list cty_Value) :=
    match indices with
    | [] => (path, vals, None)
    | i :: indices =>
        let r := encode (reflect_ValueOf (default DInvalid (inVals !! i))) ety path in
        let vals := <[i := ret_val r]> vals in
        match ret_err r with
        | Some err => (path, vals, Some err)
        | None => range indices vals
        end
    end.

Definition encodeSet (val : reflect_Value) (ety : cty_Type) (path : cty_Path)
  : Returned :=
  let val := unwrapPointer val in
  if negb (Value_IsValid val) then Return path (cty_NullVal (cty_Set ety)) None else
  (* what follows the switch *)
  let after (l : Loop (list cty_Value)) :=
    match l with
    | (path, _, Some err) => Return path cty_NilVal (Some err)
    | (path, vals, None) => Return path (cty_SetVal vals) None
    end in
  let array (_ : unit) :=
    if Value_Len val =? 0 then Return path (cty_SetValEmpty ety) None else
    let vals := replicate (Value_Len val) cty_NilVal in
    after (encodeSet_range val ety path (seq 0 (length vals)) vals) in
  match Value_Kind val with
  | reflect_Slice =>
      if Value_IsNil val then Return path (cty_NullVal (cty_Set ety)) None
      else array ()
  | reflect_Array => array ()
  | reflect_Struct =>
      match Interface_set_Set val with
      | None =>
          Return path cty_NilVal
            (Some (NewErrorf path (cant_convert_type_to (Value_Type val) (cty_Set ety))))
      | Some inVals =>
          if length inVals =? 0 then Return path (cty_SetValEmpty ety) None else
          let vals := replicate (length inVals) cty_NilVal in
          after (encodeSet_range_inVals inVals ety path (seq 0 (length inVals)) vals)
      end
  | k =>
      Return path cty_NilVal
        (Some (NewErrorf path (cant_convert_kind_to k (cty_Set ety))))
  end.

(** The loop of [encodeObject] over a map,
    [for k, at := range attrTypes]. *)
Definition encodeObject_range_map (val : reflect_Value) (haveKeys : gset string) :=
  fix range (attrTypes : list (string * cty_Type)) (path : cty_Path)
    (vals : gmap string cty_Value) {struct attrTypes}
    : Loop (gmap string cty_Value) :=
    match attrTypes with
    | [] => (path, vals, None)
    | (k, at_) :: attrTypes =>
        let path := set_last_step path (cty_GetAttrStep k) in
        if negb (bool_decide (k ∈ haveKeys)) then
          let vals := <[k := cty_NullVal at_]> vals in
          (* continue *)
          range attrTypes path vals
        else
        match Value_MapIndex val k with
        | None =>
            (path, vals,
             Some (runtime_panic path (MapIndex_panic (Value_Type_Key val))))
        | Some elem =>
            let r := encode elem at_ path in
            let vals := <[k := ret_val r]> vals in
            match ret_err r with
            | Some err => (path, vals, Some err)
            | None => range attrTypes path vals
            end
        end
    end.

(** The loop of [encodeObject] over a struct. *)
Definition encodeObject_range_struct (val : reflect_Value)
    (attrFields : rivertags_Fields) :=
  fix range (attrTypes : list (string * cty_Type)) (path : cty_Path)
    (vals : gmap string cty_Value) {struct attrTypes}
    : Loop (gmap string cty_Value) :=
    match attrTypes with
    | [] => (path, vals, None)
    | (k, at_) :: attrTypes =>
        let path := set_last_step path (cty_GetAttrStep k) in
        match Fields_Get attrFields k with
        | Some f =>
            let r := encode (Value_Field val (Field_Index f)) at_ path in
            let vals := <[k := ret_val r]> vals in
            match ret_err r with
            | Some err => (path, vals, Some err)
            | None => range attrTypes path vals
            end
        | None =>
            let vals := <[k := cty_NullVal at_]> vals in
            range attrTypes path vals
        end
    end.

Definition encodeObject (val : reflect_Value)
    (attrTypes : list (string * cty_Type)) (path : cty_Path) : Returned :=
  let val := unwrapPointer val in
  if negb (Value_IsValid val) then
    Return path (cty_NullVal (cty_Object attrTypes)) None
  else
  match Value_Kind val with
  | reflect_Map =>
      if Value_IsNil val then
        Return path (cty_NullVal (cty_Object attrTypes)) None
      else
      let keyType := Value_Type_Key val in
      if negb (bool_decide (Type_Kind keyType = reflect_String)) then
        Return path cty_NilVal
          (Some (NewErrorf path (key_type_must_be_string keyType)))
      else
      if length attrTypes =? 0 then Return path cty_EmptyObjectVal None else
      let path := path ++ [cty_PathStep_nil] in
      let haveKeys : gset string := list_to_set (Value_MapKeys val) in
      match encodeObject_range_map val haveKeys attrTypes path ∅ with
      | (path, _, Some err) => Return path cty_NilVal (Some err)
      | (path, vals, None) =>
          let path := drop_last_step path in
          Return path (cty_ObjectVal vals) None
      end
  | reflect_Struct =>
      if length attrTypes =? 0 then Return path cty_EmptyObjectVal None else
      let path := path ++ [cty_PathStep_nil] in
      let attrFields := rivertags_Get (Value_Type val) in
      match encodeObject_range_struct val attrFields attrTypes path ∅ with
      | (path, _, Some err) => Return path cty_NilVal (Some err)
      | (path, vals, None) =>
          let path := drop_last_step path in
          Return path (cty_ObjectVal vals) None
      end
  | k =>
      Return path cty_NilVal
        (Some (NewErrorf path (cant_convert_kind_to k (cty_Object attrTypes))))
  end.

(** The loops of [encodeTuple], [for i, ety := range elemTypes]: the
    elements of a slice by index, the fields of a struct by position. *)
Definition encodeTuple_range_slice (val : reflect_Value) :=
  fix range (elemTypes : list cty_Type) (i : nat) (path : cty_Path)
    (vals : list cty_Value) {struct elemTypes} : Loop (list cty_Value) :=
    match elemTypes with
    | [] => (path, vals, None)
    | ety :: elemTypes =>
        let path := set_last_step path (cty_IndexStep (cty_NumberIntVal (Z.of_nat i))) in
        let r := encode (Value_Index val i) ety path in
        let vals := <[i := ret_val r]> vals in
        match ret_err r with
        | Some err => (path, vals, Some err)
        | None => range elemTypes (S i) path vals
        end
    end.

Definition encodeTuple_range_struct (val : reflect_Value) :=
  fix range (elemTypes : list cty_Type) (i : nat) (path : cty_Path)
    (vals : list cty_Value) {struct elemTypes} : Loop (list cty_Value) :=
    match elemTypes with
    | [] => (path, vals, None)
    | ety :: elemTypes =>
        let path := set_last_step path (cty_IndexStep (cty_NumberIntVal (Z.of_nat i))) in
        let r := encode (Value_Field val i) ety path in
        let vals := <[i := ret_val r]> vals in
        match ret_err r with
        | Some err => (path, vals, Some err)
        | None => range elemTypes (S i) path vals
        end
    end.

Definition encodeTuple (val : reflect_Value) (elemTypes : list cty_Type)
    (path : cty_Path) : Returned :=
  let val := unwrapPointer val in
  if negb (Value_IsValid val) then
    Return path (cty_NullVal (cty_Tuple elemTypes)) None
  else
  match Value_Kind val with
  | reflect_Slice =>
      if Value_IsNil val then
        Return path (cty_NullVal (cty_Tuple elemTypes)) None
      else
      if negb (Value_Len val =? length elemTypes) then
        Return path cty_NilVal
          (Some (NewErrorf path
             (wrong_number_of_elements (Value_Len val) (length elemTypes))))
      else
      if length elemTypes =? 0 then Return path cty_EmptyTupleVal None else
      let path := path ++ [cty_PathStep_nil] in
      let vals := replicate (length elemTypes) cty_NilVal in
      match encodeTuple_range_slice val elemTypes 0 path vals with
      | (path, _, Some err) => Return path cty_NilVal (Some err)
      | (path, vals, None) =>
          let path := drop_last_step path in
          Return path (cty_TupleVal vals) None
      end
  | reflect_Struct =>
      let fieldCount := Value_NumField val in
      if negb (fieldCount =? length elemTypes) then
        Return path cty_NilVal
          (Some (NewErrorf path
             (wrong_number_of_struct_fields fieldCount (length elemTypes))))
      else
      if length elemTypes =? 0 then Return path cty_EmptyTupleVal None else
      let path := path ++ [cty_PathStep_nil] in
      let vals := replicate (length elemTypes) cty_NilVal in
      match encodeTuple_range_struct val elemTypes 0 path vals with
      | (path, _, Some err) => Return path cty_NilVal (Some err)
      | (path, vals, None) =>
          let path := drop_last_step path in
          Return path (cty_TupleVal vals) None
      end
  | k =>
      Return path cty_NilVal
        (Some (NewErrorf path (cant_convert_kind_to k (cty_Tuple elemTypes))))
  end.

Definition encodeCapsule (val : reflect_Value) (capsuleType : cty_Type)
    (path : cty_Path) : Returned :=
  let val := unwrapPointer val in
  if negb (Value_IsValid val) then Return path (cty_NullVal capsuleType) None else
  let addressed :=
    if negb (bool_decide (Value_Kind val = reflect_Ptr)) then
      if negb (Value_CanAddr val) then None else Some (Value_Addr val)
    else Some val in
  match addressed with
  | None =>
      Return path cty_NilVal (Some (NewErrorf path (must_be_addressable capsuleType)))
  | Some val =>
      if negb (Elem_AssignableTo val (cty_EncapsulatedType capsuleType)) then
        Return path cty_NilVal
          (Some (NewErrorf path
             (not_compatible_with_capsule (Value_Interface val) capsuleType)))
      else
      Return path (cty_CapsuleVal capsuleType (Value_Interface val)) None
  end.

Definition encodeDynamic (val : reflect_Value) (path : cty_Path) : Returned :=
  let val := unwrapPointer val in
  if negb (Value_IsValid val) then
    Return path (cty_NullVal cty_DynamicPseudoType) None
  else
  match Value_Kind val with
  | reflect_Struct =>
      match Interface_cty_Value val with
      | None =>
          Return path cty_NilVal
            (Some (NewErrorf path (only_cty_Value_allowed_type (Value_Type val))))
      | Some v => Return path v None
      end
  | k =>
      Return path cty_NilVal
        (Some (NewErrorf path (only_cty_Value_allowed_kind k)))
  end.

Definition encodePassthruogh (wrappedVal : reflect_Value) (wantTy : cty_Type)
    (path : cty_Path) : Returned :=
  let wrappedVal := unwrapPointer wrappedVal in
  if negb (Value_IsValid wrappedVal) then Return path (cty_NullVal wantTy) None else
  match Interface_cty_Value wrappedVal with
  | None =>
      (* the type assertion panics; [encode] never gets here *)
      Return path cty_NilVal (Some (runtime_panic path interface_conversion_panic))
  | Some givenVal =>
      match convert_Convert givenVal wantTy with
      | (_, Some err) =>
          Return path cty_NilVal (Some (NewErrorf path (unsuitable_value err)))
      | (val, None) => Return path val None
      end
  end.

End Handlers.

(** [encode], by recursion on the target type: every recursive call is on
    the element type, an attribute type or an element type of [ty]. *)
Fixpoint encode `{Libraries} (val : reflect_Value) (ty : cty_Type)
    (path : cty_Path) {struct ty} : Returned :=
  if Value_IsValid val && Type_AssignableTo val valueType then
    (* If the source value is a cty.Value then we'll try to just pass
       through to the target type directly. *)
    encodePassthruogh val ty path
  else
  match ty with
  | cty_Bool => encodeBool val path
  | cty_Number => encodeNumber val path
  | cty_String => encodeString val path
  | cty_DynamicPseudoType => encodeDynamic val path
  | cty_List ety => encodeList encode val ety path
  | cty_Map ety => encodeMap encode val ety path
  | cty_Set ety => encodeSet encode val ety path
  | cty_Object attrTypes => encodeObject encode val attrTypes path
  | cty_Tuple elemTypes => encodeTuple encode val elemTypes path
  | cty_Capsule _ _ => encodeCapsule val ty path
  | cty_NilType =>
      (* We should never fall out here *)
      Return path cty_NilVal (Some (NewErrorf path (unsupported_target_type ty)))
  end.

(** [Encode]: the path starts off as empty. *)
Definition Encode `{Libraries} (val : GoData) (ty : cty_Type)
  : cty_Value * option cty_PathError :=
  let path : cty_Path := [] in
  let r := encode (reflect_ValueOf val) ty path in
  (ret_val r, ret_err r).

(** ** Vocabulary of the statements *)

(** A nil or absent pointer-or-interface chain, of any depth: nothing
    (the nil [interface{}] handed to [Encode]), a nil pointer, a nil
    interface, or a pointer to or an interface holding such a chain. *)
Inductive NilChain : GoData -> Prop :=
| NilChain_absent : NilChain DInvalid
| NilChain_nil_ptr : NilChain (DPtr None)
| NilChain_nil_interface : NilChain (DInterface None)
| NilChain_ptr d : NilChain d -> NilChain (DPtr (Some d))
| NilChain_interface d : NilChain d -> NilChain (DInterface (Some d)).

(** The elements of a non-nil slice or of an array. *)
Definition sequence_elems (val : reflect_Value) : option (list GoData) :=
  match data val with
  | DSlice (Some elems) | DArray elems => Some elems
  | _ => None
  end.

(** Where the object handler takes attribute [k] from, for a map whose
    key type is [string] or a struct: the map entry under that key, or
    the struct field the resolver gives for that name; [None] when the
    map has no such key, or the name is unresolved. *)
Definition attribute_source `{Libraries} (val : reflect_Value) (k : string)
  : option reflect_Value :=
  match Value_Kind val with
  | reflect_Map =>
      if bool_decide (k ∈ Value_MapKeys val) then Value_MapIndex val k
      else None
  | reflect_Struct =>
      match Fields_Get (rivertags_Get (Value_Type val)) k with
      | Some f => Some (Value_Field val (Field_Index f))
      | None => None
      end
  | _ => None
  end.

(** The natives the object handler accepts: a non-nil map with string
    keys, or a struct. *)
Definition object_native (val : reflect_Value) : bool :=
  match data val with
  | DMap key (Some _) => bool_decide (Type_Kind key = reflect_String)
  | DStruct _ _ => true
  | _ => false
  end.

(** The natives the object handler can read its attributes from: a
    non-nil map whose key type is [string] itself, or a struct. *)
Definition object_source_native (val : reflect_Value) : bool :=
  match data val with
  | DMap key (Some _) => bool_decide (key = stringType)
  | DStruct _ _ => true
  | _ => false
  end.

(** What the passthrough handler makes of the value model's answer. *)
Definition passed_through `{Libraries} (givenVal : cty_Value) (ty : cty_Type)
    (path : cty_Path) : Returned :=
  match convert_Convert givenVal ty with
  | (_, Some err) =>
      Return path cty_NilVal (Some (NewErrorf path (unsuitable_value err)))
  | (val, None) => Return path val None
  end.

(** The errors of [enc] against [ty] lie at or below the path [enc] is
    given. *)
Definition errors_below (enc : reflect_Value -> cty_Type -> cty_Path -> Returned)
    (ty : cty_Type) : Prop :=
  forall val path e, ret_err (enc val ty path) = Some e -> path `prefix_of` Path e.

(** The recursive call of the list handler for element [i], the handler
    having been given the path [p]. *)
Definition list_element (enc : reflect_Value -> cty_Type -> cty_Path -> Returned)
    (val : reflect_Value) (ety : cty_Type) (p : cty_Path) (i : nat) : Returned :=
  enc (Value_Index val i) ety (p ++ [cty_IndexStep (cty_NumberIntVal (Z.of_nat i))]).

(** The map a loop builds with [vals[k] = ...] for each pair of a list. *)
Definition inserted {A V : Type} (f : string * A -> V) (vals : gmap string V)
    (l : list (string * A)) : gmap string V :=
  foldl (fun m kt => <[kt.1 := f kt]> m) vals l.

(** What a loop of [encodeObject] does for the attribute [kt.1] of type
    [kt.2], given where it takes the attribute from: the recursive call,
    or the typed null when there is nothing to take. *)
Definition object_attribute (enc : reflect_Value -> cty_Type -> cty_Path -> Returned)
    (p : cty_Path) (source : string -> option reflect_Value)
    (kt : string * cty_Type) : Returned :=
  match source kt.1 with
  | Some v => enc v kt.2 (p ++ [cty_GetAttrStep kt.1])
  | None => Return (p ++ [cty_GetAttrStep kt.1]) (cty_NullVal kt.2) None
  end.

(** What a loop over the attributes amounts to: every attribute is set,
    in a map keyed by attribute name, or the loop ends with the error of
    the recursive call for an attribute that has a source. *)
Definition object_range_spec (enc : reflect_Value -> cty_Type -> cty_Path -> Returned)
    (p : cty_Path) (source : string -> option reflect_Value)
    (attrTypes : list (string * cty_Type)) (vals : gmap string cty_Value)
    (l : Loop (gmap string cty_Value)) : Prop :=
  match l with
  | (_, vals', None) =>
      vals' = inserted (fun kt => ret_val (object_attribute enc p source kt)) vals attrTypes
      ∧ Forall (fun kt => ret_err (object_attribute enc p source kt) = None) attrTypes
  | (_, _, Some e) =>
      exists kt v, kt ∈ attrTypes ∧ source kt.1 = Some v
        ∧ ret_err (enc v kt.2 (p ++ [cty_GetAttrStep kt.1])) = Some e
  end.

(** What the loops establish, read off attribute by attribute. *)
Definition object_attributes_encoded `{Libraries} (source : string -> option reflect_Value)
    (attrTypes : list (string * cty_Type)) (path : cty_Path)
    (vals : gmap string cty_Value) : Prop :=
  dom vals = list_to_set attrTypes.*1
  ∧ forall k at_, (k, at_) ∈ attrTypes ->
      match source k with
      | None => vals !! k = Some (cty_NullVal at_)
      | Some v =>
          ret_err (encode v at_ (path ++ [cty_GetAttrStep k])) = None
          ∧ vals !! k = Some (ret_val (encode v at_ (path ++ [cty_GetAttrStep k])))
      end.

(** An error of the object handler is the error of the recursive call for
    an attribute that has a source. *)
Definition object_attribute_failed `{Libraries} (source : string -> option reflect_Value)
    (attrTypes : list (string * cty_Type)) (path : cty_Path)
    (e : cty_PathError) : Prop :=
  exists k at_ v, (k, at_) ∈ attrTypes ∧ source k = Some v
    ∧ ret_err (encode v at_ (path ++ [cty_GetAttrStep k])) = Some e.

(** ** A value model to run the encoder with *)

(** A small conversion in the manner of the value model's: a null is
    retyped, anything converts to the dynamic pseudo-type unchanged, a
    primitive converts to its own type unchanged and a bool to a string;
    everything else is rejected. *)
Definition sample_Convert (v : cty_Value) (ty : cty_Type)
  : cty_Value * option string :=
  match v, ty with
  | cty_NullVal _, _ => (cty_NullVal ty, None)
  | _, cty_DynamicPseudoType => (v, None)
  | cty_BoolVal _, cty_Bool => (v, None)
  | cty_StringVal _, cty_String => (v, None)
  | cty_BoolVal b, cty_String =>
      (cty_StringVal (if b then "true" else "false"), None)
  | cty_NumberIntVal _, cty_Number => (v, None)
  | _, _ => (cty_NilVal, Some "incompatible types")
  end.

(** A resolver that knows one struct type, [Pair], with the attributes
    [a] and [b] on its first two fields. *)
Definition sample_Get (t : reflect_Type) : rivertags_Fields :=
  fun k =>
    if bool_decide (Type_String t = "Pair") then
      find (fun f => bool_decide (Field_Name f = k)) [Field "a" 0; Field "b" 1]
    else None.

Definition sample_Libraries : Libraries := {|
  convert_Convert := sample_Convert;
  rivertags_Get := sample_Get;
  Elem_AssignableTo := fun val t => bool_decide (Type_String (Value_Type (Value_Elem val)) = Type_String t)
|}.

(** [map[string]...] and [map[int]...] key types. *)
Definition string_key : reflect_Type := GoType "string" reflect_String.
Definition int_key : reflect_Type := GoType "int" reflect_Int.

(** ** Vocabulary of the further statements *)

(** [Reaches val d]: [val] is [d], or a pointer to or an interface holding
    a value that reaches [d]. *)
Inductive Reaches : GoData -> GoData -> Prop :=
| Reaches_here d : Reaches d d
| Reaches_ptr val d : Reaches val d -> Reaches (DPtr (Some val)) d
| Reaches_interface val d : Reaches val d -> Reaches (DInterface (Some val)) d.

(** Neither a pointer nor an interface, and not the content of the zero
    Value: where [unwrapPointer] stops with a valid value. *)
Definition is_direct (d : GoData) : bool :=
  match d with
  | DInvalid | DPtr _ | DInterface _ => false
  | _ => true
  end.

(** The number of steps the handlers can put on the path on the way down
    a target type: one for a list, a map, an object and a tuple, none for
    a set. *)
Fixpoint path_depth (ty : cty_Type) : nat :=
  match ty with
  | cty_List ety | cty_Map ety => S (path_depth ety)
  | cty_Set ety => path_depth ety
  | cty_Object attrTypes =>
      S ((fix deepest (l : list (string * cty_Type)) : nat :=
            match l with
            | [] => 0
            | kt :: l => Nat.max (path_depth kt.2) (deepest l)
            end) attrTypes)
  | cty_Tuple elemTypes =>
      S ((fix deepest (l : list cty_Type) : nat :=
            match l with
            | [] => 0
            | ety :: l => Nat.max (path_depth ety) (deepest l)
            end) elemTypes)
  | _ => 0
  end.

(** The errors of [enc] against [ty] carry the path [enc] was given and,
    after it, real steps only, no more of them than [ty] is deep. *)
Definition errors_located (enc : reflect_Value -> cty_Type -> cty_Path -> Returned)
    (ty : cty_Type) : Prop :=
  forall val path e,
    ret_err (enc val ty path) = Some e ->
    exists steps, Path e = path ++ steps
      ∧ (cty_PathStep_nil ∉ steps)
      ∧ length steps ≤ path_depth ty.

(** What a scalar handler makes of a direct value: the value of a native
    of a kind the handler accepts, nothing for any other. *)
Definition scalar_value (ty : cty_Type) (d : GoData) : option cty_Value :=
  match ty, d with
  | cty_Bool, DBool b => Some (cty_BoolVal b)
  | cty_Number, DInt _ i => Some (cty_NumberIntVal i)
  | cty_Number, DUint _ u => Some (cty_NumberUIntVal u)
  | cty_Number, DFloat _ f => Some (cty_NumberFloatVal f)
  | cty_Number, DStruct (Is_big_Int i) _ => Some (cty_NumberVal (big_SetInt i))
  | cty_Number, DStruct (Is_big_Float f) _ => Some (cty_NumberVal f)
  | cty_String, DString s => Some (cty_StringVal s)
  | _, _ => None
  end.

(** The message of a scalar handler for a kind it does not accept. *)
Definition scalar_mismatch (ty : cty_Type) (k : reflect_Kind) : Message :=
  match ty with
  | cty_Bool => cant_convert_to_bool k
  | cty_Number => cant_convert_to_number k
  | _ => cant_convert_to_string k
  end.

Definition is_scalar (ty : cty_Type) : bool :=
  match ty with
  | cty_Bool | cty_Number | cty_String => true
  | _ => false
  end.

(** The kinds the switch of a collection handler has a case for. *)
Definition collection_case (ty : cty_Type) (k : reflect_Kind) : bool :=
  match ty, k with
  | cty_List _, (reflect_Slice | reflect_Array) => true
  | cty_Map _, reflect_Map => true
  | cty_Set _, (reflect_Slice | reflect_Array | reflect_Struct) => true
  | cty_Object _, (reflect_Map | reflect_Struct) => true
  | cty_Tuple _, (reflect_Slice | reflect_Struct) => true
  | _, _ => false
  end.

Definition is_collection (ty : cty_Type) : bool :=
  match ty with
  | cty_List _ | cty_Map _ | cty_Set _ | cty_Object _ | cty_Tuple _ => true
  | _ => false
  end.

(** What the map handler does for the entry under the key [k], the
    handler having been given the path [p]: the recursive call on what
    [MapIndex] returns for the key, or the panic of [MapIndex]. *)
Definition map_entry (enc : reflect_Value -> cty_Type -> cty_Path -> Returned)
    (val : reflect_Value) (ety : cty_Type) (p : cty_Path) (k : string) : Returned :=
  let path := p ++ [cty_IndexStep (cty_StringVal k)] in
  match Value_MapIndex val k with
  | Some elem => enc elem ety path
  | None =>
      Return path cty_NilVal
        (Some (runtime_panic path (MapIndex_panic (Value_Type_Key val))))
  end.

(** The map a loop builds with [vals[k] = f k] for each key of a list. *)
Definition inserted_keys {V : Type} (f : string -> V) (vals : gmap string V)
    (keys : list string) : gmap string V :=
  foldl (fun m k => <[k := f k]> m) vals keys.

(** What the set handler draws its elements from: the elements of a
    non-nil slice or of an array, or the values of a [set.Set]. *)
Definition set_elems (val : reflect_Value) : option (list GoData) :=
  match data val with
  | DSlice (Some elems) | DArray elems => Some elems
  | DStruct (Is_set_Set Values) _ => Some Values
  | _ => None
  end.

(** Element [i] as the set handler hands it to [encode]: the element at
    that index, or [reflect.ValueOf] of that value of the [set.Set]. *)
Definition set_source (val : reflect_Value) (i : nat) : reflect_Value :=
  match data val with
  | DStruct (Is_set_Set Values) _ => reflect_ValueOf (default DInvalid (Values !! i))
  | _ => Value_Index val i
  end.

(** The recursive call of the set handler for element [i]: at the path of
    the handler itself. *)
Definition set_element (enc : reflect_Value -> cty_Type -> cty_Path -> Returned)
    (val : reflect_Value) (ety : cty_Type) (path : cty_Path) (i : nat) : Returned :=
  enc (set_source val i) ety path.

(** What the tuple handler takes its elements from: the elements of a
    non-nil slice, or the fields of a struct. *)
Definition tuple_elems (val : reflect_Value) : option (list GoData) :=
  match data val with
  | DSlice (Some elems) => Some elems
  | DStruct _ fields => Some fields
  | _ => None
  end.

Definition tuple_source (val : reflect_Value) (i : nat) : reflect_Value :=
  match data val with
  | DStruct _ _ => Value_Field val i
  | _ => Value_Index val i
  end.

(** The recursive call of the tuple handler for position [i], against the
    element type at that position. *)
Definition tuple_element (enc : reflect_Value -> cty_Type -> cty_Path -> Returned)
    (val : reflect_Value) (p : cty_Path) (i : nat) (ety : cty_Type) : Returned :=
  enc (tuple_source val i) ety (p ++ [cty_IndexStep (cty_NumberIntVal (Z.of_nat i))]).

(** What a loop of [encodeSet] amounts to from index [k] on, [n] elements
    to go, with [source i] what it hands to the recursive call for element
    [i]: the values of all elements in order, or the error of the first
    element that fails. *)
Definition set_range_spec (enc : reflect_Value -> cty_Type -> cty_Path -> Returned)
    (ety : cty_Type) (path : cty_Path) (source : nat -> reflect_Value) (k n : nat)
    (l : Loop (list cty_Value)) : Prop :=
  match l with
  | (_, vals, None) =>
      vals = (fun i => ret_val (enc (source i) ety path)) <$> seq 0 (k + n)
      ∧ forall i, k ≤ i < k + n -> ret_err (enc (source i) ety path) = None
  | (_, _, Some e) =>
      exists i, k ≤ i < k + n
        ∧ (forall j, k ≤ j < i -> ret_err (enc (source j) ety path) = None)
        ∧ ret_err (enc (source i) ety path) = Some e
  end.

(** What a loop of [encodeTuple] amounts to from position [k] on, the
    values [done] of the earlier positions in place, with [source i] what
    it hands to the recursive call for position [i]: the values of all
    positions, each against the element type at its position, or the
    error of the first position that fails. *)
Definition tuple_range_spec (enc : reflect_Value -> cty_Type -> cty_Path -> Returned)
    (p : cty_Path) (source : nat -> reflect_Value) (k : nat)
    (done : list cty_Value) (elemTypes : list cty_Type)
    (l : Loop (list cty_Value)) : Prop :=
  let element i ety :=
    enc (source i) ety (p ++ [cty_IndexStep (cty_NumberIntVal (Z.of_nat i))]) in
  match l with
  | (_, vals, None) =>
      vals = done ++ imap (fun j ety => ret_val (element (k + j) ety)) elemTypes
      ∧ forall j ety, elemTypes !! j = Some ety -> ret_err (element (k + j) ety) = None
  | (_, _, Some e) =>
      exists j ety, elemTypes !! j = Some ety
        ∧ (forall j' ety', j' < j -> elemTypes !! j' = Some ety' ->
             ret_err (element (k + j') ety') = None)
        ∧ ret_err (element (k + j) ety) = Some e
  end.


From stdpp Require Import sorting pretty.

(** * Package [stdlib]: the functions exposed to River *)

(** A slice of [interface{}] values as the function sees it: [None] is the
    nil slice, [Some l] a slice of the elements [l]. *)
Abbreviation slice A := (option (list A)).

(** The built-in [append(s, elems...)]: with nothing to append the result
    is [s] itself, nil if [s] is nil; otherwise it is a slice of the
    elements of [s] followed by [elems]. *)
Definition append {A} (s : slice A) (elems : slice A) : slice A :=
  match elems with
  | None | Some [] => s
  | Some es => Some (default [] s ++ es)
  end.

(** [concat]:
<<
    var res []interface{}
    for _, array := range arrays { res = append(res, array...) }
    return res
>> *)
Definition concat {A} (arrays : list (slice A)) : slice A :=
  foldl append None arrays.

(** * Package [token] *)

(** Go's [int] has the width of the platform, 32 or 64 bits, and its
    arithmetic wraps around. *)
Class Platform := {
  intSize : Z;
  intSize_pos : (0 < intSize)%Z
}.

Definition wrap_int `{Platform} (z : Z) : Z :=
  ((z + 2 ^ (intSize - 1)) mod 2 ^ intSize - 2 ^ (intSize - 1))%Z.

Definition is_int `{Platform} (z : Z) : Prop :=
  (- 2 ^ (intSize - 1) <= z < 2 ^ (intSize - 1))%Z.

(** [File]: the name and the byte offset of the start of each line. *)
Record token_File := mkFile {
  filename : string;
  lines : list Z
}.

(** A [*File] is nil or the address of a [File]; [Files] is the memory
    that holds the files.  A Go pointer that is not nil always points to
    a file; in the model an address outside the memory behaves like
    nil. *)
Abbreviation File_ptr := (option positive).
Abbreviation Files := (gmap positive token_File).

Definition File_deref (h : Files) (f : File_ptr) : option token_File :=
  f ≫= (h !!.).

Record token_Pos := mkPos {
  file : File_ptr;
  off : Z
}.

#[global] Instance token_Pos_eq_dec : EqDecision token_Pos.
Proof. solve_decision. Defined.

Definition token_NoPos : token_Pos := mkPos None 0.

Record token_Position := mkPosition {
  Filename : string;
  Offset : Z;
  Line : Z;
  Column : Z
}.

(** [Position{}] *)
Definition token_Position_zero : token_Position := mkPosition "" 0 0 0.

Definition Pos_File (p : token_Pos) : File_ptr := file p.

Definition Pos_Add `{Platform} (p : token_Pos) (n : Z) : token_Pos :=
  mkPos (file p) (wrap_int (off p + n)).

Definition Pos_Offset (p : token_Pos) : Z := off p.

Definition Pos_IsValid (p : token_Pos) : bool :=
  bool_decide (p ≠ token_NoPos).

Definition Position_IsValid (pos : token_Position) : bool :=
  bool_decide (1 <= Line pos)%Z.

(** [Position.String]; [fmt.Sprintf("%d", n)] is the decimal numeral of
    [n], which is [pretty n]. *)
Definition Position_String (pos : token_Position) : string :=
  let s := Filename pos in
  let s :=
    if Position_IsValid pos then
      let s := if bool_decide (s ≠ "") then s +:+ ":" else s in
      let s := s +:+ pretty (Line pos) in
      if bool_decide (Column pos ≠ 0%Z) then s +:+ ":" +:+ pretty (Column pos)
      else s
    else s in
  if bool_decide (s = "") then "-" else s.

(** [NewFile] allocates a file whose only line starts at offset 0 and
    returns its address. *)
Definition NewFile (name : string) (h : Files) : File_ptr * Files :=
  let l := fresh (dom h) in
  (Some l, <[l := mkFile name [0%Z]]> h).

(** [File.Pos]: [None] is the panic for a negative offset.  The receiver
    is not dereferenced. *)
Definition File_Pos (f : File_ptr) (o : Z) : option token_Pos :=
  if (o <? 0)%Z then None else Some (mkPos f o).

(** [File.Name]: [None] is the panic of dereferencing nil. *)
Definition File_Name (h : Files) (f : File_ptr) : option string :=
  filename <$> File_deref h f.

(** [File.AddLine]: [None] is the panic of dereferencing nil; otherwise
    the memory after the call. *)
Definition File_AddLine (h : Files) (f : File_ptr) (offset : Z) : option Files :=
  match f with
  | None => None
  | Some l =>
      fl ← h !! l;
      let n := length (lines fl) in
      if (n =? 0)
         || match lines fl !! (n - 1) with
            | Some last => bool_decide (last < offset)%Z
            | None => false
            end
      then Some (<[l := mkFile (filename fl) (lines fl ++ [offset])]> h)
      else Some h
  end.

(** The loop of [sort.Search] of the Go library:
<<
    i, j := 0, n
    for i < j {
        h := int(uint(i+j) >> 1)
        if !f(h) { i = h + 1 } else { j = h }
    }
    return i
>>
    [i], [j] and [h] stay between 0 and [n]: they are natural numbers
    here.  The predicate may panic ([None]).  Every round makes [j - i]
    smaller, so [n] rounds are enough; running out of rounds would be
    [None] as well. *)
Fixpoint sort_Search_loop (rounds : nat) (f : nat -> option bool) (i j : nat)
    : option nat :=
  if i <? j then
    match rounds with
    | O => None
    | S rounds =>
        let h := (i + j) / 2 in
        b ← f h;
        if negb b then sort_Search_loop rounds f (h + 1) j
        else sort_Search_loop rounds f i h
    end
  else Some i.

Definition sort_Search (n : nat) (f : nat -> option bool) : option nat :=
  sort_Search_loop n f 0 n.

(** [searchInts]; [a[i]] panics out of range. *)
Definition searchInts (a : list Z) (x : Z) : option Z :=
  i ← sort_Search (length a) (fun i => y ← a !! i; Some (bool_decide (y > x)%Z));
  Some (Z.of_nat i - 1)%Z.

(** [File.PositionFor]: the comparison with [NoPos] comes before the
    receiver is dereferenced.  [i + 1] is at most [len(f.lines)] and does
    not wrap around. *)
Definition File_PositionFor `{Platform} (h : Files) (f : File_ptr) (p : token_Pos)
    : option token_Position :=
  if bool_decide (p = token_NoPos) then Some token_Position_zero else
  fl ← File_deref h f;
  i ← searchInts (lines fl) (off p);
  '(line, column) ←
    (if (0 <=? i)%Z then
       start ← lines fl !! Z.to_nat i;
       Some ((i + 1)%Z, wrap_int (wrap_int (off p - start) + 1))
     else Some (0%Z, 0%Z));
  Some (mkPosition (filename fl) (off p) line column).

(** [Pos.Position] *)
Definition Pos_Position `{Platform} (h : Files) (p : token_Pos)
    : option token_Position :=
  File_PositionFor h (file p) p.

(** ** Vocabulary for the properties of [token] *)

(** The table of line starts that [NewFile] and [AddLine] build: it starts
    with 0 and increases strictly. *)
Definition line_table (a : list Z) : Prop :=
  a !! 0 = Some 0%Z ∧ Sorted Z.lt a.

(** [AddLine] called for each of the offsets in turn. *)
Definition File_AddLines (h : Files) (f : File_ptr) (offsets : list Z)
    : option Files :=
  foldl (fun oh offset => h ← oh; File_AddLine h f offset) (Some h) offsets.

#[global] Instance amd64 : Platform := {| intSize := 64; intSize_pos := eq_refl |}.
(** * Properties *)

(** ** The reflect model and the path *)

(** [unwrapPointer] is the loop of the source. *)
Lemma unwrapPointer_loop (val : reflect_Value) :
  unwrapPointer val =
    if bool_decide (Value_Kind val = reflect_Ptr ∨ Value_Kind val = reflect_Interface)
    then if Value_IsNil val then reflect_Value_zero
         else unwrapPointer (Value_Elem val)
    else val.
Proof.
  destruct val as [d a]; unfold unwrapPointer; simpl.
  destruct d as [| | w | w | [] | [] | | [e|] | [e|] | | | |]; try destruct w; reflexivity.
Qed.

(** Induction along a chain of pointers and interfaces. *)
Lemma GoData_chain_ind (P : GoData -> Prop) :
  (forall e, P e -> P (DPtr (Some e))) ->
  (forall e, P e -> P (DInterface (Some e))) ->
  (forall d, (forall e, d ≠ DPtr (Some e)) ->
             (forall e, d ≠ DInterface (Some e)) -> P d) ->
  forall d, P d.
Proof.
  intros Hptr Hiface Hend. fix IH 1.
  intros d. destruct d as [| | | | | | | [e|] | [e|] | | | |].
  8: exact (Hptr e (IH e)).
  9: exact (Hiface e (IH e)).
  all: apply Hend; intros e'; discriminate.
Qed.

(** What [unwrapPointer] returns is neither a pointer nor an interface. *)
Lemma unwrap_Kind (d : GoData) (a : bool) :
  Value_Kind (unwrap d a) ≠ reflect_Ptr ∧
  Value_Kind (unwrap d a) ≠ reflect_Interface.
Proof.
  revert a. induction d as [e IH | e IH | d Hp Hi] using GoData_chain_ind;
    intros a; simpl; auto.
  destruct d as [| | w | w | [] | [] | | [e|] | [e|] | | | |];
    try destruct w; simpl; try done.
  - by destruct (Hp e).
  - by destruct (Hi e).
Qed.

(** Unwrapping twice is unwrapping once. *)
Lemma unwrapPointer_idemp (val : reflect_Value) :
  unwrapPointer (unwrapPointer val) = unwrapPointer val.
Proof.
  destruct val as [d a]. unfold unwrapPointer at 2 3. simpl. revert a.
  induction d as [e IH | e IH | d Hp Hi] using GoData_chain_ind;
    intros a; simpl; auto.
  destruct d as [| | w | w | [] | [] | | [e|] | [e|] | | | |]; try done.
  - by destruct (Hp e).
  - by destruct (Hi e).
Qed.

(** A nil chain unwraps to an invalid value, and is not a [cty.Value]. *)
Lemma NilChain_unwrap (d : GoData) (a : bool) :
  NilChain d -> Value_IsValid (unwrap d a) = false.
Proof. intros Hd. revert a. induction Hd; intros a; simpl; auto. Qed.

Lemma NilChain_not_valueType (d : GoData) (a : bool) :
  NilChain d -> Value_IsValid (mkValue d a) && Type_AssignableTo (mkValue d a) valueType = false.
Proof. by destruct 1. Qed.

Lemma set_last_step_app (p : cty_Path) (x s : cty_PathStep) :
  set_last_step (p ++ [x]) s = p ++ [s].
Proof.
  unfold set_last_step. rewrite length_app. simpl.
  replace (length p + 1 - 1) with (length p + 0) by lia.
  by rewrite insert_app_r.
Qed.

Lemma drop_last_step_app (p : cty_Path) (x : cty_PathStep) :
  drop_last_step (p ++ [x]) = p.
Proof.
  unfold drop_last_step. rewrite length_app. simpl.
  replace (length p + 1 - 1) with (length p) by lia.
  by rewrite take_app_length.
Qed.

(** [encode], one step unfolded. *)
Lemma encode_unfold `{Libraries} (val : reflect_Value) (ty : cty_Type) (path : cty_Path) :
  encode val ty path =
    if Value_IsValid val && Type_AssignableTo val valueType then
      encodePassthruogh val ty path
    else
    match ty with
    | cty_Bool => encodeBool val path
    | cty_Number => encodeNumber val path
    | cty_String => encodeString val path
    | cty_DynamicPseudoType => encodeDynamic val path
    | cty_List ety => encodeList encode val ety path
    | cty_Map ety => encodeMap encode val ety path
    | cty_Set ety => encodeSet encode val ety path
    | cty_Object attrTypes => encodeObject encode val attrTypes path
    | cty_Tuple elemTypes => encodeTuple encode val elemTypes path
    | cty_Capsule _ _ => encodeCapsule val ty path
    | cty_NilType =>
        Return path cty_NilVal (Some (NewErrorf path (unsupported_target_type ty)))
    end.
Proof. by destruct ty. Qed.

(** A value that does not unwrap to itself is not a [cty.Value]: a
    [cty.Value] is a struct, and a struct unwraps to itself. *)
Lemma not_valueType_of_unwrap (val : reflect_Value) :
  Type_AssignableTo (unwrapPointer val) valueType = false ->
  Type_AssignableTo val valueType = false.
Proof.
  destruct val as [d a]. unfold unwrapPointer. simpl.
  destruct d as [| | | | | | | [e|] | [e|] | | | |]; try done.
Qed.

(** ** Passthrough of typed values *)

(** [encode] of a [cty.Value] is the passthrough. *)
Lemma encode_cty_Value `{Libraries} (givenVal : cty_Value) (fields : list GoData)
    (addr : bool) (ty : cty_Type) (path : cty_Path) :
  encode (mkValue (DStruct (Is_cty_Value givenVal) fields) addr) ty path
    = passed_through givenVal ty path.
Proof.
  rewrite encode_unfold. simpl. unfold encodePassthruogh, passed_through. simpl.
  by destruct (convert_Convert givenVal ty) as [v [err|]].
Qed.


(** ** Null propagation *)

Lemma encode_NilChain `{Libraries} (d : GoData) (a : bool) (ty : cty_Type)
    (path : cty_Path) :
  NilChain d -> ty ≠ cty_NilType ->
  encode (mkValue d a) ty path = Return path (cty_NullVal ty) None.
Proof.
  intros Hd Hty. rewrite encode_unfold.
  rewrite (NilChain_not_valueType d a Hd).
  pose proof (NilChain_unwrap d a Hd) as Hu.
  destruct ty; try done;
    unfold encodeBool, encodeNumber, encodeString, encodeDynamic, encodeList,
      encodeMap, encodeSet, encodeObject, encodeTuple, encodeCapsule,
      unwrapPointer; simpl; by rewrite Hu.
Qed.

(** C2.  Against each of the ten type constructors, a nil or absent chain
    of pointers and interfaces, of any depth, encodes to exactly the
    typed null of the target type, without an error. *)
Theorem Encode_nil_chain_typed_null `{Libraries} (val : GoData) (ty : cty_Type) :
  NilChain val -> ty ≠ cty_NilType ->
  Encode val ty = (cty_NullVal ty, None).
Proof.
  intros Hval Hty. unfold Encode, reflect_ValueOf.
  by rewrite encode_NilChain.
Qed.

Lemma Encode_nil_chain_typed_null_witness :
  let val := DPtr (Some (DInterface (Some (DPtr None)))) in
  let ty := cty_Tuple [cty_Number; cty_Capsule "file" (GoType "os.File" reflect_Struct)] in
  NilChain val ∧ ty ≠ cty_NilType ∧
  @Encode sample_Libraries val ty = (cty_NullVal ty, None).
Proof.
  cbv zeta. split; [|split].
  - repeat constructor.
  - discriminate.
  - apply (@Encode_nil_chain_typed_null sample_Libraries).
    + repeat constructor.
    + discriminate.
Defined.

(** ** Empty collections *)

(** C8.  At any path, a non-nil slice of length zero and an array of
    length zero encode to the empty list against a list type and to the
    empty set against a set type, and a non-nil map without entries
    encodes to the empty map against a map type, whatever the kind of its
    keys.  None of these is null, so each differs from the typed null of
    its type. *)
Theorem Encode_empty_is_not_null `{Libraries} (ety : cty_Type) (key : reflect_Type)
    (addr : bool) (path : cty_Path) :
  (encode (mkValue (DSlice (Some [])) addr) (cty_List ety) path
     = Return path (cty_ListValEmpty ety) None
   ∧ encode (mkValue (DArray []) addr) (cty_List ety) path
     = Return path (cty_ListValEmpty ety) None
   ∧ encode (mkValue (DSlice (Some [])) addr) (cty_Set ety) path
     = Return path (cty_SetValEmpty ety) None
   ∧ encode (mkValue (DArray []) addr) (cty_Set ety) path
     = Return path (cty_SetValEmpty ety) None
   ∧ encode (mkValue (DMap key (Some [])) addr) (cty_Map ety) path
     = Return path (cty_MapValEmpty ety) None)
  ∧ (Encode (DSlice (Some [])) (cty_List ety) = (cty_ListValEmpty ety, None)
     ∧ Encode (DArray []) (cty_List ety) = (cty_ListValEmpty ety, None)
     ∧ Encode (DSlice (Some [])) (cty_Set ety) = (cty_SetValEmpty ety, None)
     ∧ Encode (DArray []) (cty_Set ety) = (cty_SetValEmpty ety, None)
     ∧ Encode (DMap key (Some [])) (cty_Map ety) = (cty_MapValEmpty ety, None))
  ∧ (cty_IsNull (cty_ListValEmpty ety) = false
     ∧ cty_IsNull (cty_SetValEmpty ety) = false
     ∧ cty_IsNull (cty_MapValEmpty ety) = false)
  ∧ (cty_ListValEmpty ety ≠ cty_NullVal (cty_List ety)
     ∧ cty_SetValEmpty ety ≠ cty_NullVal (cty_Set ety)
     ∧ cty_MapValEmpty ety ≠ cty_NullVal (cty_Map ety)).
Proof.
  split; [|split; [|split]].
  - repeat split; rewrite encode_unfold; reflexivity.
  - unfold Encode. repeat split; rewrite encode_unfold; reflexivity.
  - repeat split.
  - repeat split; discriminate.
Qed.

(** ** Objects without attributes *)

(** C5, as stated, fails: against the object type without attributes, an
    [int] is present (not a nil chain) and is refused for its kind. *)
Lemma Encode_empty_object_any_native_refuted :
  ¬ (forall (L : Libraries) (val : GoData),
       ¬ NilChain val ->
       Encode val (cty_Object []) = (cty_EmptyObjectVal, None)).
Proof.
  intros Hevery.
  specialize (Hevery sample_Libraries (DInt W0 5)).
  assert (Hpresent : ¬ NilChain (DInt W0 5)) by (intros Hnil; inversion Hnil).
  specialize (Hevery Hpresent). vm_compute in Hevery. discriminate Hevery.
Qed.

(** C5, amended.  Against an object type without attributes, a native
    value that is not itself a [cty.Value] and that unwraps to a non-nil
    map with string keys, or to a struct, encodes to the canonical empty
    object, whatever the map or the struct holds. *)
Theorem encode_empty_object `{Libraries} (val : reflect_Value) (path : cty_Path) :
  object_native (unwrapPointer val) = true ->
  Type_AssignableTo val valueType = false ->
  encode val (cty_Object []) path = Return path cty_EmptyObjectVal None.
Proof.
  intros Hnative Hty. rewrite encode_unfold, Hty, andb_false_r.
  unfold encodeObject, object_native in *.
  destruct (unwrapPointer val) as [d a].
  destruct d as [| | | | | | | | | | | key [entries|] |]; try done.
  cbn in *. by rewrite Hnative.
Qed.

Lemma encode_empty_object_witness :
  let val := reflect_ValueOf
    (DPtr (Some (DMap string_key (Some [("a", DString "x"); ("b", DBool true)])))) in
  object_native (unwrapPointer val) = true ∧
  Type_AssignableTo val valueType = false ∧
  @encode sample_Libraries val (cty_Object []) [] = Return [] cty_EmptyObjectVal None.
Proof.
  cbv zeta. split; [reflexivity|]. split; [reflexivity|].
  apply (@encode_empty_object sample_Libraries); reflexivity.
Defined.

(** ** Maps whose keys are not strings *)

(** C3, as stated, fails: a nil [map[int]...] encodes to the typed null
    against an object type, and an empty one to the empty map against a
    map type; neither is an error. *)
Lemma Encode_non_string_key_refuted :
  ¬ (forall (L : Libraries) (key : reflect_Type)
        (entries : option (list (string * GoData))) (ty : cty_Type),
       Type_Kind key ≠ reflect_String ->
       (exists ety, ty = cty_Map ety) ∨ (exists attrTypes, ty = cty_Object attrTypes) ->
       Encode (DMap key entries) ty
         = (cty_NilVal, Some (NewErrorf [] (key_type_must_be_string key)))).
Proof.
  intros Hevery.
  assert (Hkey : Type_Kind int_key ≠ reflect_String) by discriminate.
  pose proof (Hevery sample_Libraries int_key (Some []) (cty_Map cty_String) Hkey
                (or_introl (ex_intro _ cty_String eq_refl))) as Hempty.
  vm_compute in Hempty. discriminate Hempty.
Qed.

(** C3, amended.  A native value that unwraps to a non-nil map whose key
    kind is not [String] fails with the non-string-key cause, at the path
    of the handler: against an object type always, and against a map type
    when the map has at least one entry. *)
Theorem encode_non_string_key `{Libraries} (val : reflect_Value)
    (key : reflect_Type) (entries : list (string * GoData))
    (ety : cty_Type) (attrTypes : list (string * cty_Type)) (path : cty_Path) :
  data (unwrapPointer val) = DMap key (Some entries) ->
  Type_Kind key ≠ reflect_String ->
  let failure :=
    Return path cty_NilVal (Some (NewErrorf path (key_type_must_be_string key))) in
  encode val (cty_Object attrTypes) path = failure
  ∧ (entries ≠ [] -> encode val (cty_Map ety) path = failure).
Proof.
  intros Hmap Hkey failure.
  assert (Hty : Type_AssignableTo val valueType = false).
  { apply not_valueType_of_unwrap. unfold Type_AssignableTo. by rewrite Hmap. }
  rewrite !encode_unfold, Hty, andb_false_r.
  unfold encodeObject, encodeMap, Value_IsValid, Value_Kind, Value_IsNil,
    Value_Type_Key, Value_Len.
  rewrite Hmap. rewrite (bool_decide_eq_false_2 _ Hkey). simpl.
  split; [done|]. intros Hentries. by destruct entries.
Qed.

Lemma encode_non_string_key_witness :
  let val := reflect_ValueOf (DPtr (Some (DMap int_key (Some [("1", DString "x")])))) in
  let failure :=
    Return [] cty_NilVal (Some (NewErrorf [] (key_type_must_be_string int_key))) in
  data (unwrapPointer val) = DMap int_key (Some [("1", DString "x")]) ∧
  Type_Kind int_key ≠ reflect_String ∧
  @encode sample_Libraries val (cty_Object [("a", cty_String)]) [] = failure ∧
  ([("1", DString "x")] ≠ [] ->
   @encode sample_Libraries val (cty_Map cty_String) [] = failure).
Proof.
  cbv zeta. split; [reflexivity|]. split; [discriminate|].
  apply (@encode_non_string_key sample_Libraries
           (reflect_ValueOf (DPtr (Some (DMap int_key (Some [("1", DString "x")])))))
           int_key [("1", DString "x")] cty_String [("a", cty_String)] []).
  - reflexivity.
  - discriminate.
Defined.

(** ** Induction on target types *)

(** Induction on [cty_Type] with the hypotheses for the attribute types
    of an object type and the element types of a tuple type. *)
Lemma cty_Type_nested_ind (P : cty_Type -> Prop) :
  P cty_NilType -> P cty_Bool -> P cty_Number -> P cty_String ->
  P cty_DynamicPseudoType ->
  (forall ety, P ety -> P (cty_List ety)) ->
  (forall ety, P ety -> P (cty_Map ety)) ->
  (forall ety, P ety -> P (cty_Set ety)) ->
  (forall attrTypes, Forall (fun kt => P kt.2) attrTypes -> P (cty_Object attrTypes)) ->
  (forall elemTypes, Forall P elemTypes -> P (cty_Tuple elemTypes)) ->
  (forall name t, P (cty_Capsule name t)) ->
  forall ty, P ty.
Proof.
  intros HNil HBool HNumber HString HDynamic HList HMap HSet HObject HTuple HCapsule.
  fix IH 1. intros ty. destruct ty as [| | | | | ety | ety | ety | attrTypes | elemTypes | name t].
  - exact HNil.
  - exact HBool.
  - exact HNumber.
  - exact HString.
  - exact HDynamic.
  - exact (HList ety (IH ety)).
  - exact (HMap ety (IH ety)).
  - exact (HSet ety (IH ety)).
  - apply HObject. induction attrTypes as [|[k at_] attrTypes IHattrs].
    + constructor.
    + constructor; [exact (IH at_) | exact IHattrs].
  - apply HTuple. induction elemTypes as [|ety elemTypes IHelems].
    + constructor.
    + constructor; [exact (IH ety) | exact IHelems].
  - exact (HCapsule name t).
Qed.

(** ** The path of a handler and the path of an error *)

Lemma prefix_of_step (p : cty_Path) (s : cty_PathStep) (q : cty_Path) :
  (p ++ [s]) `prefix_of` q -> p `prefix_of` q.
Proof. intros [k ->]. exists ([s] ++ k). by rewrite (assoc_L (++)). Qed.

Ltac loop_induction l :=
  induction l as [|? l ?]; simpl; intros;
  [ by eauto
  | repeat case_match; rewrite ?set_last_step_app in *; simplify_eq/=; eauto ].

Section Loops.
Context `{Libraries}.
Variable enc : reflect_Value -> cty_Type -> cty_Path -> Returned.

(** Each loop that sets the last step leaves a path that is the path
    before [append] and one step; an error it returns was raised by a
    recursive call at such a path. *)
Lemma encodeList_range_path val ety indices p x vals :
  exists s, (encodeList_range enc val ety indices (p ++ [x]) vals).1.1 = p ++ [s].
Proof. revert x vals. loop_induction indices. Qed.

Lemma encodeList_range_err val ety indices p x vals e :
  (encodeList_range enc val ety indices (p ++ [x]) vals).2 = Some e ->
  exists v s, ret_err (enc v ety (p ++ [s])) = Some e.
Proof. revert x vals. loop_induction indices. Qed.

Lemma encodeMap_range_path val ety keys p x vals :
  exists s, (encodeMap_range enc val ety keys (p ++ [x]) vals).1.1 = p ++ [s].
Proof. revert x vals. loop_induction keys. Qed.

Lemma encodeMap_range_err val ety keys p x vals e :
  (encodeMap_range enc val ety keys (p ++ [x]) vals).2 = Some e ->
  exists s, (exists v, ret_err (enc v ety (p ++ [s])) = Some e)
            ∨ e = runtime_panic (p ++ [s]) (MapIndex_panic (Value_Type_Key val)).
Proof. revert x vals. loop_induction keys. Qed.

Lemma encodeSet_range_path val ety path indices vals :
  (encodeSet_range enc val ety path indices vals).1.1 = path.
Proof. revert vals. loop_induction indices. Qed.

Lemma encodeSet_range_err val ety path indices vals e :
  (encodeSet_range enc val ety path indices vals).2 = Some e ->
  exists v, ret_err (enc v ety path) = Some e.
Proof. revert vals. loop_induction indices. Qed.

Lemma encodeSet_range_inVals_path inVals ety path indices vals :
  (encodeSet_range_inVals enc inVals ety path indices vals).1.1 = path.
Proof. revert vals. loop_induction indices. Qed.

Lemma encodeSet_range_inVals_err inVals ety path indices vals e :
  (encodeSet_range_inVals enc inVals ety path indices vals).2 = Some e ->
  exists v, ret_err (enc v ety path) = Some e.
Proof. revert vals. loop_induction indices. Qed.

Lemma encodeObject_range_map_path val haveKeys attrTypes p x vals :
  exists s, (encodeObject_range_map enc val haveKeys attrTypes (p ++ [x]) vals).1.1 = p ++ [s].
Proof. revert x vals. loop_induction attrTypes. Qed.

Lemma encodeObject_range_struct_path val attrFields attrTypes p x vals :
  exists s, (encodeObject_range_struct enc val attrFields attrTypes (p ++ [x]) vals).1.1 = p ++ [s].
Proof. revert x vals. loop_induction attrTypes. Qed.

Lemma encodeTuple_range_slice_path val elemTypes i p x vals :
  exists s, (encodeTuple_range_slice enc val elemTypes i (p ++ [x]) vals).1.1 = p ++ [s].
Proof. revert i x vals. loop_induction elemTypes. Qed.

Lemma encodeTuple_range_struct_path val elemTypes i p x vals :
  exists s, (encodeTuple_range_struct enc val elemTypes i (p ++ [x]) vals).1.1 = p ++ [s].
Proof. revert i x vals. loop_induction elemTypes. Qed.

End Loops.

(** Under the hypothesis that the recursive calls raise their errors at or
    below the path they are given, the errors of a loop that sets the
    last step lie below that step. *)
Ltac loop_below :=
  simpl; intros; try done;
  repeat case_match; rewrite ?set_last_step_app in *; simplify_eq/=; eauto.

Section Handlers_paths.
Context `{Libraries}.
Variable enc : reflect_Value -> cty_Type -> cty_Path -> Returned.

Lemma encodeList_range_below val ety indices p x vals e :
  errors_below enc ety ->
  (encodeList_range enc val ety indices (p ++ [x]) vals).2 = Some e ->
  exists s, (p ++ [s]) `prefix_of` Path e.
Proof.
  intros Hbelow Herr.
  destruct (encodeList_range_err enc _ _ _ _ _ _ _ Herr) as (v & s & Hv). eauto.
Qed.

Lemma encodeMap_range_below val ety keys p x vals e :
  errors_below enc ety ->
  (encodeMap_range enc val ety keys (p ++ [x]) vals).2 = Some e ->
  exists s, (p ++ [s]) `prefix_of` Path e.
Proof.
  intros Hbelow Herr.
  destruct (encodeMap_range_err enc _ _ _ _ _ _ _ Herr) as (s & [[v Hv]| ->]);
    [by eauto|]. by exists s.
Qed.

Lemma encodeObject_range_map_below val haveKeys attrTypes p x vals e :
  Forall (fun kt => errors_below enc kt.2) attrTypes ->
  (encodeObject_range_map enc val haveKeys attrTypes (p ++ [x]) vals).2 = Some e ->
  exists s, (p ++ [s]) `prefix_of` Path e.
Proof.
  intros Hbelow. revert x vals.
  induction Hbelow as [|[k at_] attrTypes Hhead Htail IH]; loop_below.
Qed.

Lemma encodeObject_range_struct_below val attrFields attrTypes p x vals e :
  Forall (fun kt => errors_below enc kt.2) attrTypes ->
  (encodeObject_range_struct enc val attrFields attrTypes (p ++ [x]) vals).2 = Some e ->
  exists s, (p ++ [s]) `prefix_of` Path e.
Proof.
  intros Hbelow. revert x vals.
  induction Hbelow as [|[k at_] attrTypes Hhead Htail IH]; loop_below.
Qed.

Lemma encodeTuple_range_slice_below val elemTypes i p x vals e :
  Forall (errors_below enc) elemTypes ->
  (encodeTuple_range_slice enc val elemTypes i (p ++ [x]) vals).2 = Some e ->
  exists s, (p ++ [s]) `prefix_of` Path e.
Proof.
  intros Hbelow. revert i x vals.
  induction Hbelow as [|ety elemTypes Hhead Htail IH]; loop_below.
Qed.

Lemma encodeTuple_range_struct_below val elemTypes i p x vals e :
  Forall (errors_below enc) elemTypes ->
  (encodeTuple_range_struct enc val elemTypes i (p ++ [x]) vals).2 = Some e ->
  exists s, (p ++ [s]) `prefix_of` Path e.
Proof.
  intros Hbelow. revert i x vals.
  induction Hbelow as [|ety elemTypes Hhead Htail IH]; loop_below.
Qed.

(** A handler that returns without an error returns with the path it was
    given: what it appended, it has cut off again. *)
Lemma encodeList_path val ety path :
  ret_err (encodeList enc val ety path) = None ->
  ret_path (encodeList enc val ety path) = path.
Proof.
  unfold encodeList.
  pose proof (encodeList_range_path enc (unwrapPointer val) ety
    (seq 0 (length (replicate (Value_Len (unwrapPointer val)) cty_NilVal)))
    path cty_PathStep_nil (replicate (Value_Len (unwrapPointer val)) cty_NilVal))
    as [s Hs].
  repeat case_match; simplify_eq/=; try done.
  all: intros _; apply drop_last_step_app.
Qed.

Lemma encodeMap_path val ety path :
  ret_err (encodeMap enc val ety path) = None ->
  ret_path (encodeMap enc val ety path) = path.
Proof.
  unfold encodeMap.
  pose proof (encodeMap_range_path enc (unwrapPointer val) ety
    (Value_MapKeys (unwrapPointer val)) path cty_PathStep_nil ∅) as [s Hs].
  repeat case_match; simplify_eq/=; try done.
  all: intros _; apply drop_last_step_app.
Qed.

Lemma encodeSet_path val ety path :
  ret_path (encodeSet enc val ety path) = path.
Proof.
  unfold encodeSet.
  pose proof (encodeSet_range_path enc (unwrapPointer val) ety path
    (seq 0 (length (replicate (Value_Len (unwrapPointer val)) cty_NilVal)))
    (replicate (Value_Len (unwrapPointer val)) cty_NilVal)) as Hs.
  pose proof (fun inVals => encodeSet_range_inVals_path enc inVals ety path
    (seq 0 (length inVals)) (replicate (length inVals) cty_NilVal)) as Hs'.
  repeat case_match; simplify_eq/=; try done.
  all: match goal with Hloop : encodeSet_range_inVals _ ?inVals _ _ _ _ = _ |- _ =>
         specialize (Hs' inVals); rewrite Hloop in Hs'; by simpl in Hs' end.
Qed.

Lemma encodeObject_path val attrTypes path :
  ret_err (encodeObject enc val attrTypes path) = None ->
  ret_path (encodeObject enc val attrTypes path) = path.
Proof.
  unfold encodeObject.
  pose proof (encodeObject_range_map_path enc (unwrapPointer val)
    (list_to_set (Value_MapKeys (unwrapPointer val))) attrTypes
    path cty_PathStep_nil ∅) as [s Hs].
  pose proof (encodeObject_range_struct_path enc (unwrapPointer val)
    (rivertags_Get (Value_Type (unwrapPointer val))) attrTypes
    path cty_PathStep_nil ∅) as [s' Hs'].
  repeat case_match; simplify_eq/=; try done.
  all: intros _; apply drop_last_step_app.
Qed.

Lemma encodeTuple_path val elemTypes path :
  ret_err (encodeTuple enc val elemTypes path) = None ->
  ret_path (encodeTuple enc val elemTypes path) = path.
Proof.
  unfold encodeTuple.
  pose proof (encodeTuple_range_slice_path enc (unwrapPointer val) elemTypes 0
    path cty_PathStep_nil (replicate (length elemTypes) cty_NilVal)) as [s Hs].
  pose proof (encodeTuple_range_struct_path enc (unwrapPointer val) elemTypes 0
    path cty_PathStep_nil (replicate (length elemTypes) cty_NilVal)) as [s' Hs'].
  repeat case_match; simplify_eq/=; try done.
  all: intros _; apply drop_last_step_app.
Qed.

(** The errors of a handler lie at or below the path it was given, when
    those of its recursive calls do. *)
Ltac below_loop :=
  match goal with
  | Hloop : forall e0, Some ?e = Some e0 -> exists s, _ |- _ =>
      destruct (Hloop _ eq_refl) as [? ?]; by eapply prefix_of_step
  end.

Ltac handler_below :=
  repeat case_match; simplify_eq/=; intros; simplify_eq/=;
  try reflexivity; try below_loop.

Lemma encodeList_below val ety path e :
  errors_below enc ety ->
  ret_err (encodeList enc val ety path) = Some e -> path `prefix_of` Path e.
Proof.
  intros Hbelow. unfold encodeList.
  pose proof (fun e => encodeList_range_below (unwrapPointer val) ety
    (seq 0 (length (replicate (Value_Len (unwrapPointer val)) cty_NilVal)))
    path cty_PathStep_nil (replicate (Value_Len (unwrapPointer val)) cty_NilVal)
    e Hbelow) as Hloop.
  handler_below.
Qed.

Lemma encodeMap_below val ety path e :
  errors_below enc ety ->
  ret_err (encodeMap enc val ety path) = Some e -> path `prefix_of` Path e.
Proof.
  intros Hbelow. unfold encodeMap.
  pose proof (fun e => encodeMap_range_below (unwrapPointer val) ety
    (Value_MapKeys (unwrapPointer val)) path cty_PathStep_nil ∅ e Hbelow) as Hloop.
  handler_below.
Qed.

Lemma encodeSet_below val ety path e :
  errors_below enc ety ->
  ret_err (encodeSet enc val ety path) = Some e -> path `prefix_of` Path e.
Proof.
  intros Hbelow. unfold encodeSet.
  pose proof (fun e => encodeSet_range_err enc (unwrapPointer val) ety path
    (seq 0 (length (replicate (Value_Len (unwrapPointer val)) cty_NilVal)))
    (replicate (Value_Len (unwrapPointer val)) cty_NilVal) e) as Hloop.
  pose proof (fun inVals e => encodeSet_range_inVals_err enc inVals ety path
    (seq 0 (length inVals)) (replicate (length inVals) cty_NilVal) e) as Hloop'.
  repeat case_match; simplify_eq/=; intros; simplify_eq/=; try reflexivity.
  all: first
    [ match goal with Heq : encodeSet_range_inVals _ ?inVals _ _ _ _ = _ |- _ =>
        specialize (Hloop' inVals); rewrite Heq in Hloop';
        destruct (Hloop' _ eq_refl) as [v Hv]; by eapply Hbelow end
    | destruct (Hloop _ eq_refl) as [v Hv]; by eapply Hbelow ].
Qed.

Lemma encodeObject_below val attrTypes path e :
  Forall (fun kt => errors_below enc kt.2) attrTypes ->
  ret_err (encodeObject enc val attrTypes path) = Some e -> path `prefix_of` Path e.
Proof.
  intros Hbelow. unfold encodeObject.
  pose proof (fun e => encodeObject_range_map_below (unwrapPointer val)
    (list_to_set (Value_MapKeys (unwrapPointer val))) attrTypes
    path cty_PathStep_nil ∅ e Hbelow) as Hloop.
  pose proof (fun e => encodeObject_range_struct_below (unwrapPointer val)
    (rivertags_Get (Value_Type (unwrapPointer val))) attrTypes
    path cty_PathStep_nil ∅ e Hbelow) as Hloop'.
  handler_below.
Qed.

Lemma encodeTuple_below val elemTypes path e :
  Forall (errors_below enc) elemTypes ->
  ret_err (encodeTuple enc val elemTypes path) = Some e -> path `prefix_of` Path e.
Proof.
  intros Hbelow. unfold encodeTuple.
  pose proof (fun e => encodeTuple_range_slice_below (unwrapPointer val)
    elemTypes 0 path cty_PathStep_nil (replicate (length elemTypes) cty_NilVal)
    e Hbelow) as Hloop.
  pose proof (fun e => encodeTuple_range_struct_below (unwrapPointer val)
    elemTypes 0 path cty_PathStep_nil (replicate (length elemTypes) cty_NilVal)
    e Hbelow) as Hloop'.
  handler_below.
Qed.

End Handlers_paths.

(** The handlers without recursive calls return with the path they were
    given, and raise their errors at that path. *)
Lemma scalar_handlers_path `{Libraries} (val : reflect_Value) (ty : cty_Type)
    (path : cty_Path) :
  ret_path (encodeBool val path) = path
  ∧ ret_path (encodeNumber val path) = path
  ∧ ret_path (encodeString val path) = path
  ∧ ret_path (encodeDynamic val path) = path
  ∧ ret_path (encodeCapsule val ty path) = path
  ∧ ret_path (encodePassthruogh val ty path) = path.
Proof.
  unfold encodeBool, encodeNumber, encodeString, encodeDynamic, encodeCapsule,
    encodePassthruogh.
  repeat split; repeat case_match; done.
Qed.

Lemma scalar_handlers_below `{Libraries} (val : reflect_Value) (ty : cty_Type)
    (path : cty_Path) (e : cty_PathError) :
  (ret_err (encodeBool val path) = Some e -> Path e = path)
  ∧ (ret_err (encodeNumber val path) = Some e -> Path e = path)
  ∧ (ret_err (encodeString val path) = Some e -> Path e = path)
  ∧ (ret_err (encodeDynamic val path) = Some e -> Path e = path)
  ∧ (ret_err (encodeCapsule val ty path) = Some e -> Path e = path)
  ∧ (ret_err (encodePassthruogh val ty path) = Some e -> Path e = path).
Proof.
  unfold encodeBool, encodeNumber, encodeString, encodeDynamic, encodeCapsule,
    encodePassthruogh.
  repeat split; repeat case_match; simpl; intros; by simplify_eq/=.
Qed.

(** The errors of [encode] lie at or below the path it was given. *)
Lemma encode_below `{Libraries} (ty : cty_Type) : errors_below encode ty.
Proof.
  induction ty as [| | | | | ety IH | ety IH | ety IH | attrTypes IH
                   | elemTypes IH | name t] using cty_Type_nested_ind;
    intros val path e; rewrite encode_unfold;
    destruct (scalar_handlers_below val cty_NilType path e)
      as (HBool & HNumber & HString & HDynamic & _ & _);
    pose proof (fun ty => proj2 (proj2 (proj2 (proj2 (proj2
      (scalar_handlers_below val ty path e)))))) as HPass;
    pose proof (fun ty => proj1 (proj2 (proj2 (proj2 (proj2
      (scalar_handlers_below val ty path e)))))) as HCapsule;
    case_match; intros Herr;
    try (by rewrite (HPass _ Herr));
    try (by simplify_eq/=).
  - by rewrite (HBool Herr).
  - by rewrite (HNumber Herr).
  - by rewrite (HString Herr).
  - by rewrite (HDynamic Herr).
  - by eapply encodeList_below.
  - by eapply encodeMap_below.
  - by eapply encodeSet_below.
  - by eapply encodeObject_below.
  - by eapply encodeTuple_below.
  - by rewrite (HCapsule _ Herr).
Qed.

(** ** The path on return *)

(** C10.  Each of the four handlers that append a step, whatever the
    recursive encoder, returns without an error only with the path it was
    given: it has cut the step off again.  So when [encode] returns
    without an error, the path of the handler that returned is the path
    [encode] was given, and has the length it had at entry. *)
Theorem encode_returns_with_its_path `{Libraries} :
  (forall enc val ety path,
     ret_err (encodeList enc val ety path) = None ->
     ret_path (encodeList enc val ety path) = path)
  ∧ (forall enc val ety path,
       ret_err (encodeMap enc val ety path) = None ->
       ret_path (encodeMap enc val ety path) = path)
  ∧ (forall enc val attrTypes path,
       ret_err (encodeObject enc val attrTypes path) = None ->
       ret_path (encodeObject enc val attrTypes path) = path)
  ∧ (forall enc val elemTypes path,
       ret_err (encodeTuple enc val elemTypes path) = None ->
       ret_path (encodeTuple enc val elemTypes path) = path)
  ∧ (forall val ty path,
       ret_err (encode val ty path) = None ->
       ret_path (encode val ty path) = path
       ∧ length (ret_path (encode val ty path)) = length path).
Proof.
  split; [intros; by apply encodeList_path|].
  split; [intros; by apply encodeMap_path|].
  split; [intros; by apply encodeObject_path|].
  split; [intros; by apply encodeTuple_path|].
  intros val ty path Hok.
  assert (Hpath : ret_path (encode val ty path) = path); [|by rewrite Hpath].
  revert Hok. rewrite encode_unfold.
  destruct (scalar_handlers_path val ty path)
    as (HBool & HNumber & HString & HDynamic & HCapsule & HPass).
  case_match; [done|].
  destruct ty; try done.
  - apply encodeList_path.
  - apply encodeMap_path.
  - intros _. apply encodeSet_path.
  - apply encodeObject_path.
  - apply encodeTuple_path.
Qed.

Lemma encode_returns_with_its_path_witness :
  let val := reflect_ValueOf
    (DSlice (Some [DSlice (Some [DInt W0 1; DInt W0 2]); DSlice (Some [DInt W0 3; DInt W0 4])])) in
  let ty := cty_List (cty_Tuple [cty_Number; cty_Number]) in
  let path := [cty_GetAttrStep "rows"] in
  ret_err (@encode sample_Libraries val ty path) = None
  ∧ ret_path (@encode sample_Libraries val ty path) = path
  ∧ length (ret_path (@encode sample_Libraries val ty path)) = length path.
Proof.
  cbv zeta. split; [reflexivity|].
  apply (proj2 (proj2 (proj2 (proj2 (@encode_returns_with_its_path sample_Libraries))))).
  reflexivity.
Defined.

(** ** Lists: order and first failure *)

Section List_order.
Context `{Libraries}.
Variable enc : reflect_Value -> cty_Type -> cty_Path -> Returned.
Variables (val : reflect_Value) (ety : cty_Type) (p : cty_Path).

Local Abbreviation list_element := (list_element enc val ety p).

(** The loop from index [k] on, [n] elements to go, the first [k] values
    in place: it ends without an error with the value of every element at
    the element's index, or with the error of the first element that
    fails. *)
Lemma encodeList_range_spec (n : nat) : forall (k : nat) (x : cty_PathStep),
  match encodeList_range enc val ety (seq k n) (p ++ [x])
          (((fun i => ret_val (list_element i)) <$> seq 0 k) ++ replicate n cty_NilVal) with
  | (_, vals, None) =>
      vals = (fun i => ret_val (list_element i)) <$> seq 0 (k + n)
      ∧ forall i, k ≤ i < k + n -> ret_err (list_element i) = None
  | (_, _, Some e) =>
      exists i, k ≤ i < k + n
        ∧ (forall j, k ≤ j < i -> ret_err (list_element j) = None)
        ∧ ret_err (list_element i) = Some e
  end.
Proof.
  induction n as [|n IH]; intros k x; simpl.
  - rewrite app_nil_r, Nat.add_0_r. split; [done|]. intros i Hi. lia.
  - rewrite set_last_step_app. fold (list_element k).
    destruct (ret_err (list_element k)) as [e|] eqn:Hk.
    + exists k. split; [lia|]. split; [|done]. intros j Hj. lia.
    + replace (<[k:=ret_val (list_element k)]>
                 (((fun i => ret_val (list_element i)) <$> seq 0 k)
                    ++ cty_NilVal :: replicate n cty_NilVal))
        with (((fun i => ret_val (list_element i)) <$> seq 0 (S k))
                ++ replicate n cty_NilVal).
      2:{ rewrite seq_S, fmap_app. simpl. rewrite <-(assoc_L (++)). simpl.
          rewrite insert_app_r_alt; rewrite length_fmap, length_seq; [|lia].
          by rewrite Nat.sub_diag. }
      specialize (IH (S k) (cty_IndexStep (cty_NumberIntVal (Z.of_nat k)))).
      destruct (encodeList_range _ _ _ _ _ _) as [[p' vals] [e|]].
      * destruct IH as (i & Hi & Hbefore & Herr). exists i.
        split; [lia|]. split; [|done]. intros j Hj.
        destruct (decide (j = k)) as [->|]; [done|]. apply Hbefore. lia.
      * destruct IH as [-> Hall]. split.
        { f_equal. f_equal. lia. }
        intros i Hi. destruct (decide (i = k)) as [->|]; [done|]. apply Hall. lia.
Qed.

(** The whole loop, as [encodeList] runs it. *)
Lemma encodeList_range_whole (n : nat) (x : cty_PathStep) :
  match encodeList_range enc val ety (seq 0 n) (p ++ [x]) (replicate n cty_NilVal) with
  | (_, vals, None) =>
      vals = (fun i => ret_val (list_element i)) <$> seq 0 n
      ∧ forall i, i < n -> ret_err (list_element i) = None
  | (_, _, Some e) =>
      exists i, i < n
        ∧ (forall j, j < i -> ret_err (list_element j) = None)
        ∧ ret_err (list_element i) = Some e
  end.
Proof.
  pose proof (encodeList_range_spec n 0 x) as Hspec. simpl in Hspec.
  destruct (encodeList_range _ _ _ _ _ _) as [[p' vals] [e|]].
  - destruct Hspec as (i & Hi & Hbefore & Herr). exists i.
    split; [lia|]. split; [|done]. intros j Hj. apply Hbefore. lia.
  - destruct Hspec as [-> Hall]. split; [done|]. intros i Hi. apply Hall. lia.
Qed.

End List_order.

(** [encode] does not take a value that unwraps to a slice, an array or a
    map for a [cty.Value]. *)
Lemma sequence_not_valueType (val : reflect_Value) (elems : list GoData) :
  sequence_elems (unwrapPointer val) = Some elems ->
  Value_IsValid val && Type_AssignableTo val valueType = false.
Proof.
  intros Hseq. rewrite (not_valueType_of_unwrap val), andb_false_r; [done|].
  unfold sequence_elems in Hseq. unfold Type_AssignableTo.
  by repeat case_match.
Qed.

(** C7.  A non-nil slice or an array, encoded against a list type, gives
    the list of the encodings of its elements, each at the index of its
    element, so in the order of the input.  When element [i] is the first
    that fails to encode, the encoding returns the error of that element,
    which lies at or below index step [i], and returns no list value with
    it. *)
Theorem encode_list_order `{Libraries} (val : reflect_Value) (ety : cty_Type)
    (path : cty_Path) (elems : list GoData) :
  sequence_elems (unwrapPointer val) = Some elems ->
  let element := list_element encode (unwrapPointer val) ety path in
  ((forall i, i < length elems -> ret_err (element i) = None) ->
   encode val (cty_List ety) path =
     Return path
       (match elems with
        | [] => cty_ListValEmpty ety
        | _ => cty_ListVal ((fun i => ret_val (element i)) <$> seq 0 (length elems))
        end) None)
  ∧ (forall i e,
       i < length elems ->
       (forall j, j < i -> ret_err (element j) = None) ->
       ret_err (element i) = Some e ->
       ret_val (encode val (cty_List ety) path) = cty_NilVal
       ∧ ret_err (encode val (cty_List ety) path) = Some e
       ∧ (path ++ [cty_IndexStep (cty_NumberIntVal (Z.of_nat i))]) `prefix_of` Path e).
Proof.
  intros Hseq element.
  rewrite encode_unfold, (sequence_not_valueType val elems Hseq).
  assert (Hlen : Value_Len (unwrapPointer val) = length elems).
  { unfold sequence_elems in Hseq. unfold Value_Len. by repeat case_match; simplify_eq. }
  assert (Hbody : encodeList encode val ety path =
    if Value_Len (unwrapPointer val) =? 0 then Return path (cty_ListValEmpty ety) None
    else
      match encodeList_range encode (unwrapPointer val) ety
              (seq 0 (length elems)) (path ++ [cty_PathStep_nil])
              (replicate (length elems) cty_NilVal) with
      | (path', _, Some err) => Return path' cty_NilVal (Some err)
      | (path', vals, None) => Return (drop_last_step path') (cty_ListVal vals) None
      end).
  { unfold encodeList. rewrite length_replicate, Hlen.
    unfold sequence_elems in Hseq. unfold Value_IsValid, Value_Kind, Value_IsNil.
    by repeat case_match; simplify_eq. }
  rewrite Hbody, Hlen. clear Hbody.
  destruct elems as [|d elems].
  { split; [done|]. intros i e Hi. simpl in Hi. lia. }
  change (length (d :: elems) =? 0) with false. cbv iota.
  set (n := length (d :: elems)).
  pose proof (encodeList_range_whole encode (unwrapPointer val) ety path n
                cty_PathStep_nil) as Hspec.
  pose proof (encodeList_range_path encode (unwrapPointer val) ety (seq 0 n)
                path cty_PathStep_nil (replicate n cty_NilVal)) as [s Hs].
  fold element in Hspec. revert Hspec Hs.
  destruct (encodeList_range _ _ _ _ _ _) as [[p' vals] [err|]];
    intros Hspec Hs; simpl in Hs; subst p'.
  - destruct Hspec as (i' & Hi' & Hbefore' & Herr'). split.
    + intros Hall. rewrite Hall in Herr'; [done|lia].
    + intros i e Hi Hbefore Herr.
      assert (i' = i) as ->.
      { destruct (Nat.lt_trichotomy i' i) as [Hlt|[Heq|Hgt]]; [|done|].
        - rewrite (Hbefore i' Hlt) in Herr'. done.
        - rewrite (Hbefore' i) in Herr; [done|lia]. }
      rewrite Herr in Herr'. simplify_eq. repeat split.
      eapply encode_below, Herr.
  - destruct Hspec as [-> Hall]. rewrite drop_last_step_app. split; [done|].
    intros i e Hi Hbefore Herr. rewrite Hall in Herr; [done|lia].
Qed.

Lemma encode_list_order_witness :
  let elems := [DInt W0 1; DString "x"; DBool true] in
  let val := reflect_ValueOf (DPtr (Some (DSlice (Some elems)))) in
  let element := list_element (@encode sample_Libraries) (unwrapPointer val) cty_Number [] in
  let e := NewErrorf [cty_IndexStep (cty_NumberIntVal 1)] (cant_convert_to_number reflect_String) in
  sequence_elems (unwrapPointer val) = Some elems
  ∧ 1 < length elems
  ∧ ret_err (element 0) = None
  ∧ ret_err (element 1) = Some e
  ∧ ret_val (@encode sample_Libraries val (cty_List cty_Number) []) = cty_NilVal
  ∧ ret_err (@encode sample_Libraries val (cty_List cty_Number) []) = Some e
  ∧ ([] ++ [cty_IndexStep (cty_NumberIntVal (Z.of_nat 1))]) `prefix_of` Path e.
Proof.
  cbv zeta. split; [reflexivity|]. split; [simpl; lia|].
  split; [reflexivity|]. split; [reflexivity|].
  refine (proj2 (@encode_list_order sample_Libraries
    (reflect_ValueOf (DPtr (Some (DSlice (Some [DInt W0 1; DString "x"; DBool true])))))
    cty_Number [] [DInt W0 1; DString "x"; DBool true] eq_refl) 1 _ _ _ eq_refl).
  - simpl. lia.
  - intros j Hj. assert (j = 0) as -> by lia. reflexivity.
Defined.

(** ** Objects: attribute by attribute *)

Section Map_of_list.
Context {A V : Type} (f : string * A -> V).

Lemma inserted_lookup_other (l : list (string * A)) (vals : gmap string V) (k : string) :
  k ∉ l.*1 -> inserted f vals l !! k = vals !! k.
Proof.
  revert vals. induction l as [|kt l IH]; intros vals Hk; [done|].
  simpl in *. apply not_elem_of_cons in Hk as [Hne Hk].
  rewrite IH by done. by rewrite lookup_insert_ne.
Qed.

Lemma inserted_lookup (l : list (string * A)) (vals : gmap string V) (kt : string * A) :
  NoDup l.*1 -> kt ∈ l -> inserted f vals l !! kt.1 = Some (f kt).
Proof.
  revert vals. induction l as [|kt' l IH]; intros vals Hnodup Hin.
  - by apply elem_of_nil in Hin.
  - simpl in *. apply NoDup_cons in Hnodup as [Hfresh Hnodup].
    apply elem_of_cons in Hin as [->|Hin].
    + rewrite inserted_lookup_other by done. by rewrite lookup_insert_eq.
    + by apply IH.
Qed.

Lemma inserted_dom (l : list (string * A)) (vals : gmap string V) :
  dom (inserted f vals l) = list_to_set l.*1 ∪ dom vals.
Proof.
  revert vals. induction l as [|kt l IH]; intros vals; simpl.
  - by rewrite (left_id_L ∅ (∪)).
  - rewrite IH, dom_insert_L.
    by rewrite (assoc_L (∪)), (comm_L (∪) (list_to_set _)).
Qed.

End Map_of_list.

Section Object_attributes.
Context `{Libraries}.
Variable enc : reflect_Value -> cty_Type -> cty_Path -> Returned.
Variables (val : reflect_Value) (p : cty_Path).

Local Abbreviation object_attribute := (object_attribute enc p).
Local Abbreviation object_range_spec := (object_range_spec enc p).

Lemma encodeObject_range_map_spec (haveKeys : gset string)
    (attrTypes : list (string * cty_Type)) :
  (forall k, is_Some (Value_MapIndex val k)) ->
  let source k :=
    if bool_decide (k ∈ haveKeys) then Value_MapIndex val k else None in
  forall (x : cty_PathStep) (vals : gmap string cty_Value),
  object_range_spec source attrTypes vals
    (encodeObject_range_map enc val haveKeys attrTypes (p ++ [x]) vals).
Proof.
  intros Hindex source.
  induction attrTypes as [|[k at_] attrTypes IH]; intros x vals; simpl.
  { by split. }
  rewrite set_last_step_app.
  destruct (bool_decide (k ∈ haveKeys)) eqn:Hhave; simpl.
  - destruct (Hindex k) as [elem Helem]. rewrite Helem.
    destruct (ret_err (enc elem at_ (p ++ [cty_GetAttrStep k])))
      as [e|] eqn:Herr; simpl.
    + exists (k, at_), elem. unfold source. simpl. rewrite Hhave.
      split; [apply list_elem_of_here|done].
    + specialize (IH (cty_GetAttrStep k)
        (<[k:=ret_val (enc elem at_ (p ++ [cty_GetAttrStep k]))]> vals)).
      unfold object_range_spec in *.
      destruct (encodeObject_range_map _ _ _ _ _ _) as [[p' vals'] [e|]].
      * destruct IH as (kt & v & Hin & Hsrc & Hkt). exists kt, v.
        split; [by apply list_elem_of_further|done].
      * destruct IH as [-> Hall].
        assert (Hattr : object_attribute source (k, at_)
                        = enc elem at_ (p ++ [cty_GetAttrStep k])).
        { unfold object_attribute, source. simpl. by rewrite Hhave, Helem. }
        split; [unfold inserted; simpl; by rewrite Hattr|].
        constructor; [by rewrite Hattr|done].
  - specialize (IH (cty_GetAttrStep k) (<[k:=cty_NullVal at_]> vals)).
    unfold object_range_spec in *.
    destruct (encodeObject_range_map _ _ _ _ _ _) as [[p' vals'] [e|]].
    + destruct IH as (kt & v & Hin & Hsrc & Hkt). exists kt, v.
      split; [by apply list_elem_of_further|done].
    + destruct IH as [-> Hall].
      assert (Hattr : object_attribute source (k, at_)
                      = Return (p ++ [cty_GetAttrStep k]) (cty_NullVal at_) None).
      { unfold object_attribute, source. simpl. by rewrite Hhave. }
      split; [unfold inserted; simpl; by rewrite Hattr|].
      constructor; [by rewrite Hattr|done].
Qed.

Lemma encodeObject_range_struct_spec (attrFields : rivertags_Fields)
    (attrTypes : list (string * cty_Type)) :
  let source k :=
    match Fields_Get attrFields k with
    | Some f => Some (Value_Field val (Field_Index f))
    | None => None
    end in
  forall (x : cty_PathStep) (vals : gmap string cty_Value),
  object_range_spec source attrTypes vals
    (encodeObject_range_struct enc val attrFields attrTypes (p ++ [x]) vals).
Proof.
  intros source. induction attrTypes as [|[k at_] attrTypes IH]; intros x vals; simpl.
  { by split. }
  rewrite set_last_step_app.
  destruct (Fields_Get attrFields k) as [f|] eqn:Hfield; simpl.
  - destruct (ret_err (enc (Value_Field val (Field_Index f)) at_ (p ++ [cty_GetAttrStep k])))
      as [e|] eqn:Herr; simpl.
    + exists (k, at_), (Value_Field val (Field_Index f)). unfold source. simpl.
      rewrite Hfield. split; [apply list_elem_of_here|done].
    + specialize (IH (cty_GetAttrStep k)
        (<[k:=ret_val (enc (Value_Field val (Field_Index f)) at_ (p ++ [cty_GetAttrStep k]))]> vals)).
      unfold object_range_spec in *.
      destruct (encodeObject_range_struct _ _ _ _ _ _) as [[p' vals'] [e|]].
      * destruct IH as (kt & v & Hin & Hsrc & Hkt). exists kt, v.
        split; [by apply list_elem_of_further|done].
      * destruct IH as [-> Hall].
        assert (Hattr : object_attribute source (k, at_)
                        = enc (Value_Field val (Field_Index f)) at_ (p ++ [cty_GetAttrStep k])).
        { unfold object_attribute, source. simpl. by rewrite Hfield. }
        split; [unfold inserted; simpl; by rewrite Hattr|].
        constructor; [by rewrite Hattr|done].
  - specialize (IH (cty_GetAttrStep k) (<[k:=cty_NullVal at_]> vals)).
    unfold object_range_spec in *.
    destruct (encodeObject_range_struct _ _ _ _ _ _) as [[p' vals'] [e|]].
    + destruct IH as (kt & v & Hin & Hsrc & Hkt). exists kt, v.
      split; [by apply list_elem_of_further|done].
    + destruct IH as [-> Hall].
      assert (Hattr : object_attribute source (k, at_)
                      = Return (p ++ [cty_GetAttrStep k]) (cty_NullVal at_) None).
      { unfold object_attribute, source. simpl. by rewrite Hfield. }
      split; [unfold inserted; simpl; by rewrite Hattr|].
      constructor; [by rewrite Hattr|done].
Qed.

End Object_attributes.

Lemma object_range_spec_read `{Libraries} (p : cty_Path)
    (source source' : string -> option reflect_Value)
    (attrTypes : list (string * cty_Type)) (l : Loop (gmap string cty_Value)) :
  (forall k, source k = source' k) ->
  NoDup attrTypes.*1 ->
  object_range_spec encode p source attrTypes ∅ l ->
  match l with
  | (_, vals, None) => object_attributes_encoded source' attrTypes p vals
  | (_, _, Some e) => object_attribute_failed source' attrTypes p e
  end.
Proof.
  intros Hsource Hnodup Hspec. destruct l as [[p' vals] [e|]]; simpl in Hspec.
  - destruct Hspec as ([k at_] & v & Hin & Hsrc & Herr).
    exists k, at_, v. by rewrite <-Hsource.
  - destruct Hspec as [-> Hall]. split.
    + by rewrite inserted_dom, dom_empty_L, (right_id_L ∅ (∪)).
    + intros k at_ Hin.
      pose proof (inserted_lookup
        (fun kt => ret_val (object_attribute encode p source kt)) attrTypes ∅
        (k, at_) Hnodup Hin) as Hlookup.
      rewrite Forall_forall in Hall. specialize (Hall (k, at_) Hin).
      unfold object_attribute in Hall, Hlookup. simpl in Hall, Hlookup.
      rewrite <-Hsource. by destruct (source k).
Qed.

Lemma attribute_source_map `{Libraries} (val : reflect_Value) (key : reflect_Type)
    (entries : list (string * GoData)) (k : string) :
  data val = DMap key (Some entries) ->
  (if bool_decide (k ∈ (list_to_set (Value_MapKeys val) : gset string))
   then Value_MapIndex val k else None) = attribute_source val k.
Proof.
  intros Hdata. unfold attribute_source, Value_Kind. rewrite Hdata.
  erewrite bool_decide_ext; [done|]. by rewrite elem_of_list_to_set.
Qed.

Lemma attribute_source_struct `{Libraries} (val : reflect_Value) (t : StructType)
    (fields : list GoData) (k : string) :
  data val = DStruct t fields ->
  match Fields_Get (rivertags_Get (Value_Type val)) k with
  | Some f => Some (Value_Field val (Field_Index f))
  | None => None
  end = attribute_source val k.
Proof. intros Hdata. unfold attribute_source, Value_Kind. by rewrite Hdata. Qed.

(** Without attributes the object handler returns the empty object. *)
Lemma encode_empty_object_native `{Libraries} (val : reflect_Value) (path : cty_Path) :
  object_native (unwrapPointer val) = true ->
  Type_AssignableTo val valueType = false ->
  encode val (cty_Object []) path = Return path cty_EmptyObjectVal None.
Proof.
  intros Hnative Hty. rewrite encode_unfold, Hty, andb_false_r.
  unfold encodeObject.
  destruct (unwrapPointer val) as [d a].
  destruct d as [| | | | | | | | | | | key [entries|] |]; try done.
  unfold object_native in Hnative. cbn in *. by rewrite Hnative.
Qed.

(** X26.  Against an object type with attributes, for a native value that
    unwraps to a non-nil map whose key type is [string] or to a struct,
    the result
    is governed by the attributes of the target type: it has exactly the
    declared attribute names; an attribute without a key in the map, or
    whose name the struct-tag resolver does not resolve, is the typed
    null of the attribute's type; an attribute with a key or a resolved
    field is the recursive encoding of that entry or field, one attribute
    step down.  An error is always the error of such a recursive
    encoding: a missing attribute raises none. *)
Theorem encode_object_attributes `{Libraries} (val : reflect_Value)
    (attrTypes : list (string * cty_Type)) (path : cty_Path) :
  object_source_native (unwrapPointer val) = true ->
  Type_AssignableTo val valueType = false ->
  NoDup attrTypes.*1 ->
  let source := attribute_source (unwrapPointer val) in
  match ret_err (encode val (cty_Object attrTypes) path) with
  | None =>
      exists vals,
        encode val (cty_Object attrTypes) path
          = Return path
              (match attrTypes with
               | [] => cty_EmptyObjectVal
               | _ => cty_ObjectVal vals
               end) None
        ∧ object_attributes_encoded source attrTypes path vals
  | Some e =>
      ret_val (encode val (cty_Object attrTypes) path) = cty_NilVal
      ∧ object_attribute_failed source attrTypes path e
  end.
Proof.
  intros Hnative Hty Hnodup source.
  assert (Hobject : object_native (unwrapPointer val) = true).
  { unfold object_source_native in Hnative. unfold object_native.
    destruct (data (unwrapPointer val))
      as [| | | | | | | | | | | key [entries|] | t fields]; try done.
    apply bool_decide_eq_true in Hnative. by subst key. }
  destruct (decide (attrTypes = [])) as [->|Hattrs].
  { rewrite encode_empty_object_native by done. simpl.
    exists ∅. split; [done|]. split; [done|]. intros k at_ Hin.
    by apply elem_of_nil in Hin. }
  rewrite encode_unfold, Hty, andb_false_r. unfold encodeObject.
  assert (Hlen : (length attrTypes =? 0) = false) by by destruct attrTypes.
  unfold object_source_native in Hnative.
  destruct (data (unwrapPointer val)) as [| | | | | | | | | | | key [entries|] | t fields]
    eqn:Hdata; try done.
  - (* a map *)
    apply bool_decide_eq_true in Hnative. subst key.
    unfold Value_IsValid, Value_Kind, Value_IsNil, Value_Type_Key.
    rewrite Hdata, Hlen. simpl.
    assert (Hindex : forall k, is_Some (Value_MapIndex (unwrapPointer val) k)).
    { intros k. unfold Value_MapIndex. rewrite Hdata. simpl. by case_match. }
    pose proof (encodeObject_range_map_spec encode (unwrapPointer val) path
      (list_to_set (Value_MapKeys (unwrapPointer val))) attrTypes Hindex
      cty_PathStep_nil ∅) as Hspec.
    pose proof (encodeObject_range_map_path encode (unwrapPointer val)
      (list_to_set (Value_MapKeys (unwrapPointer val))) attrTypes path
      cty_PathStep_nil ∅) as [s Hs].
    apply (object_range_spec_read path _ source) in Hspec; [|
      intros k; by eapply attribute_source_map | done].
    revert Hspec Hs.
    destruct (encodeObject_range_map _ _ _ _ _ _) as [[p' vals] [e|]];
      simpl; intros Hspec ->; [done|].
    exists vals. rewrite drop_last_step_app. by destruct attrTypes.
  - (* a struct *)
    unfold Value_IsValid, Value_Kind. rewrite Hdata, Hlen. simpl.
    pose proof (encodeObject_range_struct_spec encode (unwrapPointer val) path
      (rivertags_Get (Value_Type (unwrapPointer val))) attrTypes cty_PathStep_nil ∅)
      as Hspec.
    pose proof (encodeObject_range_struct_path encode (unwrapPointer val)
      (rivertags_Get (Value_Type (unwrapPointer val))) attrTypes path
      cty_PathStep_nil ∅) as [s Hs].
    apply (object_range_spec_read path _ source) in Hspec; [|
      intros k; by eapply attribute_source_struct | done].
    revert Hspec Hs.
    destruct (encodeObject_range_struct _ _ _ _ _ _) as [[p' vals] [e|]];
      simpl; intros Hspec ->; [done|].
    exists vals. rewrite drop_last_step_app. by destruct attrTypes.
Qed.

Lemma encode_object_attributes_witness :
  let val := reflect_ValueOf (DMap string_key (Some [("a", DString "x"); ("c", DBool true)])) in
  let attrTypes := [("a", cty_String); ("b", cty_Number)] in
  let source := @attribute_source sample_Libraries (unwrapPointer val) in
  object_source_native (unwrapPointer val) = true
  ∧ Type_AssignableTo val valueType = false
  ∧ NoDup attrTypes.*1
  ∧ match ret_err (@encode sample_Libraries val (cty_Object attrTypes) []) with
    | None =>
        exists vals,
          @encode sample_Libraries val (cty_Object attrTypes) []
            = Return [] (cty_ObjectVal vals) None
          ∧ @object_attributes_encoded sample_Libraries source attrTypes [] vals
    | Some e =>
        ret_val (@encode sample_Libraries val (cty_Object attrTypes) []) = cty_NilVal
        ∧ @object_attribute_failed sample_Libraries source attrTypes [] e
    end.
Proof.
  cbv zeta.
  assert (Hnodup : NoDup [("a", cty_String); ("b", cty_Number)].*1).
  { simpl. repeat constructor; [|apply not_elem_of_nil..].
    intros Hin. apply list_elem_of_singleton in Hin. discriminate Hin. }
  split; [reflexivity|]. split; [reflexivity|]. split; [exact Hnodup|].
  apply (@encode_object_attributes sample_Libraries
    (reflect_ValueOf (DMap string_key (Some [("a", DString "x"); ("c", DBool true)])))
    [("a", cty_String); ("b", cty_Number)] []);
    [reflexivity | reflexivity | exact Hnodup].
Defined.

(** ** Maps whose key type is a defined string type *)

(** The loop of [encodeObject] over a map for which [MapIndex] panics: an
    attribute without a key is set to the typed null, and the first
    attribute that has a key ends the loop with the panic. *)
Lemma encodeObject_range_map_panic `{Libraries}
    (enc : reflect_Value -> cty_Type -> cty_Path -> Returned)
    (val : reflect_Value) (haveKeys : gset string)
    (attrTypes : list (string * cty_Type)) (p : cty_Path) :
  (forall k, Value_MapIndex val k = None) ->
  forall (x : cty_PathStep) (vals : gmap string cty_Value),
  match encodeObject_range_map enc val haveKeys attrTypes (p ++ [x]) vals with
  | (_, vals', None) =>
      Forall (fun kt => kt.1 ∉ haveKeys) attrTypes
      ∧ vals' = inserted (fun kt => cty_NullVal kt.2) vals attrTypes
  | (p', _, Some e) =>
      exists kt, kt ∈ attrTypes ∧ kt.1 ∈ haveKeys
        ∧ p' = p ++ [cty_GetAttrStep kt.1]
        ∧ e = runtime_panic p' (MapIndex_panic (Value_Type_Key val))
  end.
Proof.
  intros Hpanic. induction attrTypes as [|[k at_] attrTypes IH]; intros x vals; simpl.
  { by split. }
  rewrite set_last_step_app. case_bool_decide as Hhave; simpl.
  - rewrite Hpanic. exists (k, at_). split; [apply list_elem_of_here|done].
  - specialize (IH (cty_GetAttrStep k) (<[k:=cty_NullVal at_]> vals)).
    destruct (encodeObject_range_map _ _ _ _ _ _) as [[p' vals'] [e|]].
    + destruct IH as (kt & Hin & Hkt & Hp & He). exists kt.
      split; [by apply list_elem_of_further|done].
    + destruct IH as [Hall ->]. split; [by constructor|done].
Qed.

(** C6.  The claim holds for the maps whose key type is [string] and for
    structs, and fails for the maps it also speaks of whose key type is
    of kind [String] without being [string], as a defined type
    [type K string] is: the key check lets such a map through, an
    attribute without a key is still set to the typed null, but for the
    first attribute that has a key [val.MapIndex(reflect.ValueOf(k))]
    panics, [string] not being assignable to the key type, and nothing is
    encoded.  Only when no declared attribute is a key of the map does the
    encoding return, with every attribute null. *)
Theorem encode_object_defined_key_type `{Libraries} (val : reflect_Value)
    (key : reflect_Type) (entries : list (string * GoData))
    (attrTypes : list (string * cty_Type)) (path : cty_Path) :
  data (unwrapPointer val) = DMap key (Some entries) ->
  Type_Kind key = reflect_String ->
  key ≠ stringType ->
  ((exists kt, kt ∈ attrTypes ∧ kt.1 ∈ entries.*1) ->
   exists k at_, (k, at_) ∈ attrTypes ∧ k ∈ entries.*1
     ∧ encode val (cty_Object attrTypes) path
       = Return (path ++ [cty_GetAttrStep k]) cty_NilVal
           (Some (runtime_panic (path ++ [cty_GetAttrStep k]) (MapIndex_panic key))))
  ∧ ((forall kt, kt ∈ attrTypes -> kt.1 ∉ entries.*1) ->
     encode val (cty_Object attrTypes) path
     = Return path
         (match attrTypes with
          | [] => cty_EmptyObjectVal
          | _ => cty_ObjectVal (inserted (fun kt => cty_NullVal kt.2) ∅ attrTypes)
          end) None).
Proof.
  intros Hdata Hkey Hdefined.
  assert (Hty : Type_AssignableTo val valueType = false).
  { apply not_valueType_of_unwrap. unfold Type_AssignableTo. by rewrite Hdata. }
  assert (Hpanic : forall k, Value_MapIndex (unwrapPointer val) k = None).
  { intros k. unfold Value_MapIndex. rewrite Hdata.
    by rewrite (bool_decide_eq_false_2 _ Hdefined). }
  assert (Hkeys : forall k,
    k ∈ (list_to_set (Value_MapKeys (unwrapPointer val)) : gset string)
    <-> k ∈ entries.*1).
  { intros k. rewrite elem_of_list_to_set. unfold Value_MapKeys. by rewrite Hdata. }
  assert (Hkeytype : Value_Type_Key (unwrapPointer val) = key).
  { unfold Value_Type_Key. by rewrite Hdata. }
  rewrite !encode_unfold, Hty, !andb_false_r.
  pose proof (encodeObject_range_map_panic encode (unwrapPointer val)
    (list_to_set (Value_MapKeys (unwrapPointer val))) attrTypes path Hpanic
    cty_PathStep_nil ∅) as Hloop.
  assert (Hencode : attrTypes ≠ [] ->
    encodeObject encode val attrTypes path
    = match encodeObject_range_map encode (unwrapPointer val)
              (list_to_set (Value_MapKeys (unwrapPointer val))) attrTypes
              (path ++ [cty_PathStep_nil]) ∅ with
      | (path', _, Some err) => Return path' cty_NilVal (Some err)
      | (path', vals, None) => Return (drop_last_step path') (cty_ObjectVal vals) None
      end).
  { intros Hattrs. unfold encodeObject, Value_IsValid, Value_Kind, Value_IsNil.
    rewrite Hkeytype, Hdata. simpl. rewrite (bool_decide_eq_true_2 _ Hkey). simpl.
    by destruct attrTypes. }
  pose proof (encodeObject_range_map_path encode (unwrapPointer val)
    (list_to_set (Value_MapKeys (unwrapPointer val))) attrTypes path
    cty_PathStep_nil ∅) as [s Hs].
  split.
  - intros (kt & Hin & Hhave).
    assert (Hattrs : attrTypes ≠ []).
    { intros ->. by apply elem_of_nil in Hin. }
    rewrite (Hencode Hattrs). revert Hloop Hs.
    destruct (encodeObject_range_map _ _ _ _ _ _) as [[p' vals] [e|]]; simpl.
    + intros ([k at_] & Hin' & Hhave' & -> & ->) _. exists k, at_.
      rewrite Hkeytype. split; [done|]. split; [by apply Hkeys|done].
    + intros [Hall _] _. rewrite Forall_forall in Hall.
      destruct (Hall kt Hin). by apply Hkeys.
  - intros Hnone. destruct (decide (attrTypes = [])) as [->|Hattrs].
    { unfold encodeObject, Value_IsValid, Value_Kind, Value_IsNil.
      rewrite Hkeytype, Hdata. simpl. by rewrite (bool_decide_eq_true_2 _ Hkey). }
    rewrite (Hencode Hattrs). revert Hloop Hs.
    destruct (encodeObject_range_map _ _ _ _ _ _) as [[p' vals] [e|]]; simpl.
    + intros (kt & Hin & Hhave & _) _. destruct (Hnone kt Hin). by apply Hkeys.
    + intros [_ ->] ->. rewrite drop_last_step_app. by destruct attrTypes.
Qed.

Lemma encode_object_defined_key_type_witness :
  let key := GoType "main.K" reflect_String in
  let entries := [("a", DInt W0 1)] in
  let val := reflect_ValueOf (DMap key (Some entries)) in
  let attrTypes := [("b", cty_String); ("a", cty_Number)] in
  data (unwrapPointer val) = DMap key (Some entries)
  ∧ Type_Kind key = reflect_String
  ∧ key ≠ stringType
  ∧ (exists kt, kt ∈ attrTypes ∧ kt.1 ∈ entries.*1)
  ∧ exists k at_, (k, at_) ∈ attrTypes ∧ k ∈ entries.*1
      ∧ @encode sample_Libraries val (cty_Object attrTypes) []
        = Return [cty_GetAttrStep k] cty_NilVal
            (Some (runtime_panic [cty_GetAttrStep k] (MapIndex_panic key))).
Proof.
  cbv zeta.
  assert (Hdefined : GoType "main.K" reflect_String ≠ stringType) by discriminate.
  assert (Hpresent : exists kt : string * cty_Type,
            kt ∈ [("b", cty_String); ("a", cty_Number)]
            ∧ kt.1 ∈ [("a", DInt W0 1)].*1).
  { exists ("a", cty_Number). split; [|apply list_elem_of_here].
    apply list_elem_of_further, list_elem_of_here. }
  split; [reflexivity|]. split; [reflexivity|]. split; [exact Hdefined|].
  split; [exact Hpresent|].
  exact (proj1 (@encode_object_defined_key_type sample_Libraries
    (reflect_ValueOf (DMap (GoType "main.K" reflect_String) (Some [("a", DInt W0 1)])))
    (GoType "main.K" reflect_String) [("a", DInt W0 1)]
    [("b", cty_String); ("a", cty_Number)] [] eq_refl eq_refl Hdefined) Hpresent).
Defined.

(** ** Tuples: arity *)

(** C4, as stated, fails: a slice of one string against a tuple of one
    number has the right length and fails all the same, with the error of
    its element. *)
Lemma Encode_tuple_fails_iff_arity_refuted :
  ¬ (forall (L : Libraries) (elems : list GoData) (elemTypes : list cty_Type),
       (Encode (DSlice (Some elems)) (cty_Tuple elemTypes)).2 ≠ None
       ↔ length elems ≠ length elemTypes).
Proof.
  intros Hevery.
  destruct (Hevery sample_Libraries [DString "x"] [cty_Number]) as [Hfails _].
  apply Hfails; [|reflexivity]. vm_compute. discriminate.
Qed.

(** C4, amended.  For a native value that unwraps to a non-nil slice of
    length [k], against a tuple type of [m] element types, the encoding
    returns the arity-mismatch error, which reports [k] and [m] and
    carries the path of the handler, if and only if [k] differs from [m].
    When it does, the result is the same whatever the recursive encoder
    is: no element has been encoded. *)
Theorem encode_tuple_arity `{Libraries} (val : reflect_Value) (elems : list GoData)
    (elemTypes : list cty_Type) (path : cty_Path) :
  data (unwrapPointer val) = DSlice (Some elems) ->
  let arity_error :=
    NewErrorf path (wrong_number_of_elements (length elems) (length elemTypes)) in
  (ret_err (encode val (cty_Tuple elemTypes) path) = Some arity_error
   ↔ length elems ≠ length elemTypes)
  ∧ (length elems ≠ length elemTypes ->
     forall enc, encodeTuple enc val elemTypes path
                 = Return path cty_NilVal (Some arity_error)).
Proof.
  intros Hdata arity_error.
  assert (Hty : Type_AssignableTo val valueType = false).
  { apply not_valueType_of_unwrap. unfold Type_AssignableTo. by rewrite Hdata. }
  assert (Hmismatch : length elems ≠ length elemTypes ->
    forall enc, encodeTuple enc val elemTypes path
                = Return path cty_NilVal (Some arity_error)).
  { intros Hne enc. unfold encodeTuple, Value_IsValid, Value_Kind, Value_IsNil, Value_Len.
    rewrite Hdata. simpl. apply Nat.eqb_neq in Hne. by rewrite Hne. }
  split; [|exact Hmismatch].
  rewrite encode_unfold, Hty, andb_false_r.
  destruct (decide (length elems = length elemTypes)) as [Heq|Hne].
  2:{ rewrite (Hmismatch Hne). by split. }
  split; [|done]. intros Herr. exfalso.
  assert (Hbelow : Forall (errors_below encode) elemTypes).
  { apply Forall_forall. intros ety _. apply encode_below. }
  pose proof (fun e => encodeTuple_range_slice_below encode (unwrapPointer val)
    elemTypes 0 path cty_PathStep_nil (replicate (length elemTypes) cty_NilVal)
    e Hbelow) as Hloop.
  revert Herr.
  unfold encodeTuple, Value_IsValid, Value_Kind, Value_IsNil, Value_Len.
  rewrite Hdata. simpl. rewrite Heq, Nat.eqb_refl. simpl.
  destruct (length elemTypes =? 0); [done|].
  destruct (encodeTuple_range_slice _ _ _ _ _ _) as [[p' vals] [e|]]; [|done].
  simpl. intros [= ->]. destruct (Hloop _ eq_refl) as [s Hs].
  apply prefix_length in Hs. rewrite length_app in Hs. simpl in Hs. lia.
Qed.

Lemma encode_tuple_arity_witness :
  let elems := [DInt W0 1; DInt W0 2; DInt W0 3] in
  let val := reflect_ValueOf (DSlice (Some elems)) in
  let elemTypes := [cty_Number; cty_String] in
  let arity_error := NewErrorf [] (wrong_number_of_elements 3 2) in
  data (unwrapPointer val) = DSlice (Some elems)
  ∧ (ret_err (@encode sample_Libraries val (cty_Tuple elemTypes) []) = Some arity_error
     ↔ length elems ≠ length elemTypes)
  ∧ (length elems ≠ length elemTypes ->
     forall enc, @encodeTuple enc val elemTypes []
                 = Return [] cty_NilVal (Some arity_error)).
Proof.
  cbv zeta. split; [reflexivity|].
  apply (@encode_tuple_arity sample_Libraries
    (reflect_ValueOf (DSlice (Some [DInt W0 1; DInt W0 2; DInt W0 3])))
    [DInt W0 1; DInt W0 2; DInt W0 3] [cty_Number; cty_String] []).
  reflexivity.
Defined.

(** ** Scenarios *)

(** A slice of three integers against a list of numbers. *)
Example Encode_list_of_numbers :
  @Encode sample_Libraries (DSlice (Some [DInt W0 1; DInt W0 2; DInt W0 3]))
    (cty_List cty_Number)
  = (cty_ListVal [cty_NumberIntVal 1; cty_NumberIntVal 2; cty_NumberIntVal 3], None).
Proof. reflexivity. Qed.

(** A map holding only [a] against an object with the attributes [a] and
    [b]: [a] is encoded, [b] is the null number. *)
Example Encode_object_with_missing_attribute :
  @Encode sample_Libraries (DMap string_key (Some [("a", DString "x")]))
    (cty_Object [("a", cty_String); ("b", cty_Number)])
  = (cty_ObjectVal (<["b" := cty_NullVal cty_Number]> (<["a" := cty_StringVal "x"]> ∅)),
     None).
Proof. vm_compute. reflexivity. Qed.

(** A struct whose type the resolver knows, behind a pointer: the fields
    are taken by attribute name against an object type and by position
    against a tuple type. *)
Example Encode_struct :
  let pair := DPtr (Some (DStruct (Declared "Pair") [DString "x"; DUint W8 7])) in
  @Encode sample_Libraries pair (cty_Object [("b", cty_Number); ("c", cty_Bool)])
  = (cty_ObjectVal (<["c" := cty_NullVal cty_Bool]> (<["b" := cty_NumberUIntVal 7]> ∅)),
     None)
  ∧ @Encode sample_Libraries pair (cty_Tuple [cty_String; cty_Number])
    = (cty_TupleVal [cty_StringVal "x"; cty_NumberUIntVal 7], None).
Proof. split; vm_compute; reflexivity. Qed.

(** A slice of three elements against a tuple of two: the arity error at
    the root path. *)
Example Encode_tuple_arity_mismatch :
  @Encode sample_Libraries (DSlice (Some [DInt W0 1; DInt W0 2; DInt W0 3]))
    (cty_Tuple [cty_Number; cty_String])
  = (cty_NilVal, Some (NewErrorf [] (wrong_number_of_elements 3 2))).
Proof. reflexivity. Qed.

(** A nil pointer against a capsule type: the null capsule. *)
Example Encode_nil_capsule :
  let FileHandle := cty_Capsule "FileHandle" (GoType "os.File" reflect_Struct) in
  @Encode sample_Libraries (DPtr None) FileHandle = (cty_NullVal FileHandle, None).
Proof. reflexivity. Qed.

(** An error two levels down carries both steps. *)
Example Encode_nested_error_path :
  @Encode sample_Libraries
    (DMap string_key (Some [("rows", DSlice (Some [DInt W0 1; DBool true]))]))
    (cty_Object [("rows", cty_List cty_Number)])
  = (cty_NilVal,
     Some (NewErrorf [cty_GetAttrStep "rows"; cty_IndexStep (cty_NumberIntVal 1)]
             (cant_convert_to_number reflect_Bool))).
Proof. reflexivity. Qed.

(** A [cty.Value] held by an interface is not passed through: its type,
    as [encode] sees it, is the interface type. *)
Example Encode_cty_Value_in_interface :
  @Encode sample_Libraries
    (DSlice (Some [DInterface (Some (DStruct (Is_cty_Value (cty_StringVal "x")) []))]))
    (cty_List cty_String)
  = (cty_NilVal,
     Some (NewErrorf [cty_IndexStep (cty_NumberIntVal 0)]
             (cant_convert_to_string reflect_Struct))).
Proof. reflexivity. Qed.

(** * Further properties of the encoder *)

(** ** Unwrapping *)

(** X1.  [unwrapPointer] returns the zero Value exactly for the nil
    chains; otherwise it returns a valid value that is neither a pointer
    nor an interface; and unwrapping what it returned changes nothing. *)
Theorem unwrapPointer_spec (val : reflect_Value) :
  (Value_IsValid (unwrapPointer val) = false ↔ NilChain (data val))
  ∧ Value_Kind (unwrapPointer val) ≠ reflect_Ptr
  ∧ Value_Kind (unwrapPointer val) ≠ reflect_Interface
  ∧ unwrapPointer (unwrapPointer val) = unwrapPointer val.
Proof.
  split; [|split; [apply unwrap_Kind|split; [apply unwrap_Kind|apply unwrapPointer_idemp]]].
  destruct val as [d a]. unfold unwrapPointer. simpl.
  split; [|apply NilChain_unwrap].
  revert a. induction d as [e IH | e IH | d Hp Hi] using GoData_chain_ind;
    intros a; simpl.
  - intros Hinvalid. constructor. by eapply IH.
  - intros Hinvalid. constructor. by eapply IH.
  - destruct d as [| | | | | | | [e|] | [e|] | | | |]; try done;
      try constructor.
    + by destruct (Hp e).
    + by destruct (Hi e).
Qed.

(** What [unwrapPointer] makes of a value that reaches a direct one: that
    one, addressable when the last step to it was a pointer. *)
Lemma unwrap_Reaches (val d : GoData) (a : bool) :
  Reaches val d -> is_direct d = true ->
  exists addr, unwrap val a = mkValue d addr.
Proof.
  intros Hreach Hdirect. revert a.
  induction Hreach as [d | val d Hreach IH | val d Hreach IH]; intros a; simpl.
  - exists a. by destruct d as [| | | | | | | [e|] | [e|] | | | |].
  - apply IH, Hdirect.
  - apply IH, Hdirect.
Qed.

(** ** No value beside an error *)

Ltac no_value_by_cases :=
  repeat case_match; simpl; intros; simplify_eq/=; done.

(** X2.  Whenever a handler, whatever its recursive encoder, or [encode]
    returns an error, the value it returns with it is [cty.NilVal]: no
    partly built value leaves the encoder. *)
Theorem encode_error_without_value `{Libraries} :
  (forall enc val ty path e,
     (ret_err (encodeList enc val ty path) = Some e ->
      ret_val (encodeList enc val ty path) = cty_NilVal)
     ∧ (ret_err (encodeMap enc val ty path) = Some e ->
        ret_val (encodeMap enc val ty path) = cty_NilVal)
     ∧ (ret_err (encodeSet enc val ty path) = Some e ->
        ret_val (encodeSet enc val ty path) = cty_NilVal))
  ∧ (forall enc val attrTypes elemTypes path e,
       (ret_err (encodeObject enc val attrTypes path) = Some e ->
        ret_val (encodeObject enc val attrTypes path) = cty_NilVal)
       ∧ (ret_err (encodeTuple enc val elemTypes path) = Some e ->
          ret_val (encodeTuple enc val elemTypes path) = cty_NilVal))
  ∧ (forall val ty path e,
       ret_err (encode val ty path) = Some e ->
       ret_val (encode val ty path) = cty_NilVal).
Proof.
  assert (HList : forall enc val ty path e,
    ret_err (encodeList enc val ty path) = Some e ->
    ret_val (encodeList enc val ty path) = cty_NilVal).
  { intros enc val ty path e. unfold encodeList. no_value_by_cases. }
  assert (HMap : forall enc val ty path e,
    ret_err (encodeMap enc val ty path) = Some e ->
    ret_val (encodeMap enc val ty path) = cty_NilVal).
  { intros enc val ty path e. unfold encodeMap. no_value_by_cases. }
  assert (HSet : forall enc val ty path e,
    ret_err (encodeSet enc val ty path) = Some e ->
    ret_val (encodeSet enc val ty path) = cty_NilVal).
  { intros enc val ty path e. unfold encodeSet. no_value_by_cases. }
  assert (HObject : forall enc val attrTypes path e,
    ret_err (encodeObject enc val attrTypes path) = Some e ->
    ret_val (encodeObject enc val attrTypes path) = cty_NilVal).
  { intros enc val attrTypes path e. unfold encodeObject. no_value_by_cases. }
  assert (HTuple : forall enc val elemTypes path e,
    ret_err (encodeTuple enc val elemTypes path) = Some e ->
    ret_val (encodeTuple enc val elemTypes path) = cty_NilVal).
  { intros enc val elemTypes path e. unfold encodeTuple. no_value_by_cases. }
  split; [intros; repeat split; by eauto|].
  split; [intros; repeat split; by eauto|].
  intros val ty path e. rewrite encode_unfold.
  case_match.
  { unfold encodePassthruogh. no_value_by_cases. }
  destruct ty; eauto;
    unfold encodeBool, encodeNumber, encodeString, encodeDynamic, encodeCapsule;
    no_value_by_cases.
Qed.

Lemma encode_error_without_value_witness :
  let val := reflect_ValueOf
    (DMap string_key (Some [("rows", DSlice (Some [DInt W0 1; DBool true]))])) in
  let ty := cty_Object [("rows", cty_List cty_Number)] in
  let e := NewErrorf [cty_GetAttrStep "rows"; cty_IndexStep (cty_NumberIntVal 1)]
             (cant_convert_to_number reflect_Bool) in
  ret_err (@encode sample_Libraries val ty []) = Some e
  ∧ ret_val (@encode sample_Libraries val ty []) = cty_NilVal.
Proof.
  cbv zeta. split; [reflexivity|].
  eapply (proj2 (proj2 (@encode_error_without_value sample_Libraries))).
  reflexivity.
Defined.

(** ** Indirection is transparent *)

(** X3.  [encode] looks at its native value only through [unwrapPointer],
    once it has found that the value is not a [cty.Value]: two such values
    that unwrap to the same value encode alike, so a pointer to a value
    encodes as that value held addressably, and an interface holding a
    value as that value held unaddressably. *)
Theorem encode_through_unwrapPointer `{Libraries} (val val' : reflect_Value)
    (ty : cty_Type) (path : cty_Path) :
  unwrapPointer val = unwrapPointer val' ->
  Type_AssignableTo val valueType = false ->
  Type_AssignableTo val' valueType = false ->
  encode val ty path = encode val' ty path.
Proof.
  intros Hsame Hval Hval'.
  rewrite !encode_unfold, Hval, Hval', !andb_false_r.
  destruct ty; try done;
    unfold encodeBool, encodeNumber, encodeString, encodeDynamic, encodeList,
      encodeMap, encodeSet, encodeObject, encodeTuple, encodeCapsule;
    by rewrite Hsame.
Qed.

Lemma encode_through_unwrapPointer_witness :
  let d := DSlice (Some [DInt W0 1; DInt W0 2]) in
  let val := reflect_ValueOf (DPtr (Some (DPtr (Some d)))) in
  let val' := mkValue d true in
  unwrapPointer val = unwrapPointer val'
  ∧ Type_AssignableTo val valueType = false
  ∧ Type_AssignableTo val' valueType = false
  ∧ @encode sample_Libraries val (cty_List cty_Number) []
    = @encode sample_Libraries val' (cty_List cty_Number) [].
Proof.
  cbv zeta. split; [reflexivity|]. split; [reflexivity|]. split; [reflexivity|].
  apply (@encode_through_unwrapPointer sample_Libraries); reflexivity.
Defined.

(** ** Where an error lies *)

Lemma path_depth_Tuple (elemTypes : list cty_Type) :
  path_depth (cty_Tuple elemTypes) = S (max_list (path_depth <$> elemTypes)).
Proof. simpl. f_equal. induction elemTypes as [|ety l IH]; simpl; by rewrite ?IH. Qed.

Lemma path_depth_Object (attrTypes : list (string * cty_Type)) :
  path_depth (cty_Object attrTypes)
  = S (max_list ((fun kt => path_depth kt.2) <$> attrTypes)).
Proof. simpl. f_equal. induction attrTypes as [|kt l IH]; simpl; by rewrite ?IH. Qed.

(** An error raised one real step down lies one step deeper. *)
Lemma located_step (enc : reflect_Value -> cty_Type -> cty_Path -> Returned)
    (ty : cty_Type) (n : nat) (v : reflect_Value) (p : cty_Path)
    (s : cty_PathStep) (e : cty_PathError) :
  s ≠ cty_PathStep_nil ->
  errors_located enc ty ->
  path_depth ty ≤ n ->
  ret_err (enc v ty (p ++ [s])) = Some e ->
  exists steps, Path e = p ++ steps ∧ (cty_PathStep_nil ∉ steps) ∧ length steps ≤ S n.
Proof.
  intros Hs Hlocated Hn Herr.
  destruct (Hlocated _ _ _ Herr) as (steps & HPath & Hnil & Hlen).
  exists (s :: steps). rewrite HPath, <-(assoc_L (++)). split; [done|].
  split; [|simpl; lia].
  intros [Heq|Hin]%elem_of_cons; [by apply Hs|by apply Hnil].
Qed.

(** A panic raised at a real step lies one step down. *)
Lemma located_panic (p : cty_Path) (s : cty_PathStep) (n : nat) :
  s ≠ cty_PathStep_nil ->
  exists steps, p ++ [s] = p ++ steps
    ∧ (cty_PathStep_nil ∉ steps) ∧ length steps ≤ S n.
Proof.
  intros Hs. exists [s]. split; [done|]. split; [|simpl; lia].
  intros Hin. apply list_elem_of_singleton in Hin. by apply Hs.
Qed.

Ltac loop_located :=
  simpl; intros; try done;
  repeat case_match; rewrite ?set_last_step_app in *; simplify_eq/=; eauto;
  repeat match goal with Hh : _ ∧ _ |- _ => destruct Hh end;
  try (by apply located_panic);
  try (eapply located_step; cycle 3;
         [eassumption | discriminate | eassumption | first [lia | eassumption]]).

Section Located.
Context `{Libraries}.
Variable enc : reflect_Value -> cty_Type -> cty_Path -> Returned.

Lemma encodeList_range_located val ety indices p x vals e :
  errors_located enc ety ->
  (encodeList_range enc val ety indices (p ++ [x]) vals).2 = Some e ->
  exists steps, Path e = p ++ steps ∧ (cty_PathStep_nil ∉ steps)
    ∧ length steps ≤ S (path_depth ety).
Proof. intros Hety. revert x vals. induction indices; loop_located. Qed.

Lemma encodeMap_range_located val ety keys p x vals e :
  errors_located enc ety ->
  (encodeMap_range enc val ety keys (p ++ [x]) vals).2 = Some e ->
  exists steps, Path e = p ++ steps ∧ (cty_PathStep_nil ∉ steps)
    ∧ length steps ≤ S (path_depth ety).
Proof. intros Hety. revert x vals. induction keys; loop_located. Qed.

Lemma encodeObject_range_map_located val haveKeys attrTypes n p x vals e :
  Forall (fun kt => errors_located enc kt.2 ∧ path_depth kt.2 ≤ n) attrTypes ->
  (encodeObject_range_map enc val haveKeys attrTypes (p ++ [x]) vals).2 = Some e ->
  exists steps, Path e = p ++ steps ∧ (cty_PathStep_nil ∉ steps) ∧ length steps ≤ S n.
Proof.
  intros Hall. revert x vals.
  induction Hall as [|[k at_] attrTypes Hhead Htail IH]; loop_located.
Qed.

Lemma encodeObject_range_struct_located val attrFields attrTypes n p x vals e :
  Forall (fun kt => errors_located enc kt.2 ∧ path_depth kt.2 ≤ n) attrTypes ->
  (encodeObject_range_struct enc val attrFields attrTypes (p ++ [x]) vals).2 = Some e ->
  exists steps, Path e = p ++ steps ∧ (cty_PathStep_nil ∉ steps) ∧ length steps ≤ S n.
Proof.
  intros Hall. revert x vals.
  induction Hall as [|[k at_] attrTypes Hhead Htail IH]; loop_located.
Qed.

Lemma encodeTuple_range_slice_located val elemTypes n i p x vals e :
  Forall (fun ety => errors_located enc ety ∧ path_depth ety ≤ n) elemTypes ->
  (encodeTuple_range_slice enc val elemTypes i (p ++ [x]) vals).2 = Some e ->
  exists steps, Path e = p ++ steps ∧ (cty_PathStep_nil ∉ steps) ∧ length steps ≤ S n.
Proof.
  intros Hall. revert i x vals.
  induction Hall as [|ety elemTypes Hhead Htail IH]; loop_located.
Qed.

Lemma encodeTuple_range_struct_located val elemTypes n i p x vals e :
  Forall (fun ety => errors_located enc ety ∧ path_depth ety ≤ n) elemTypes ->
  (encodeTuple_range_struct enc val elemTypes i (p ++ [x]) vals).2 = Some e ->
  exists steps, Path e = p ++ steps ∧ (cty_PathStep_nil ∉ steps) ∧ length steps ≤ S n.
Proof.
  intros Hall. revert i x vals.
  induction Hall as [|ety elemTypes Hhead Htail IH]; loop_located.
Qed.

End Located.

Ltac located_here :=
  exists []; rewrite app_nil_r;
  split; [done | split; [apply not_elem_of_nil | simpl; lia]].

Ltac located_in_loop :=
  match goal with
  | Hloop : forall e0, Some ?e = Some e0 -> exists steps, _ |- _ =>
      destruct (Hloop _ eq_refl) as (steps & ? & ? & ?);
      exists steps; split; [done | split; [done | simpl in *; lia]]
  end.

Ltac handler_located :=
  repeat case_match; simplify_eq/=; intros; simplify_eq/=;
  first [located_here | located_in_loop].

Section Handlers_located.
Context `{Libraries}.
Variable enc : reflect_Value -> cty_Type -> cty_Path -> Returned.

Lemma located_all_Object (attrTypes : list (string * cty_Type)) :
  Forall (fun kt => errors_located enc kt.2) attrTypes ->
  Forall (fun kt => errors_located enc kt.2
            ∧ path_depth kt.2 ≤ max_list ((fun kt => path_depth kt.2) <$> attrTypes))
    attrTypes.
Proof.
  rewrite !Forall_forall. intros Hall kt Hin. split; [by apply Hall|].
  apply max_list_elem_of_le. by apply (list_elem_of_fmap_2 (fun kt => path_depth kt.2)).
Qed.

Lemma located_all_Tuple (elemTypes : list cty_Type) :
  Forall (errors_located enc) elemTypes ->
  Forall (fun ety => errors_located enc ety
            ∧ path_depth ety ≤ max_list (path_depth <$> elemTypes)) elemTypes.
Proof.
  rewrite !Forall_forall. intros Hall ety Hin. split; [by apply Hall|].
  apply max_list_elem_of_le. by apply list_elem_of_fmap_2.
Qed.

Lemma encodeList_located ety :
  errors_located enc ety ->
  errors_located (fun val _ path => encodeList enc val ety path) (cty_List ety).
Proof.
  intros Hety val path e. unfold encodeList.
  pose proof (fun e => encodeList_range_located enc (unwrapPointer val) ety
    (seq 0 (length (replicate (Value_Len (unwrapPointer val)) cty_NilVal)))
    path cty_PathStep_nil (replicate (Value_Len (unwrapPointer val)) cty_NilVal)
    e Hety) as Hloop.
  handler_located.
Qed.

Lemma encodeMap_located ety :
  errors_located enc ety ->
  errors_located (fun val _ path => encodeMap enc val ety path) (cty_Map ety).
Proof.
  intros Hety val path e. unfold encodeMap.
  pose proof (fun e => encodeMap_range_located enc (unwrapPointer val) ety
    (Value_MapKeys (unwrapPointer val)) path cty_PathStep_nil ∅ e Hety) as Hloop.
  handler_located.
Qed.

Lemma encodeSet_located ety :
  errors_located enc ety ->
  errors_located (fun val _ path => encodeSet enc val ety path) (cty_Set ety).
Proof.
  intros Hety val path e. unfold encodeSet.
  pose proof (fun e => encodeSet_range_err enc (unwrapPointer val) ety path
    (seq 0 (length (replicate (Value_Len (unwrapPointer val)) cty_NilVal)))
    (replicate (Value_Len (unwrapPointer val)) cty_NilVal) e) as Hloop.
  pose proof (fun inVals e => encodeSet_range_inVals_err enc inVals ety path
    (seq 0 (length inVals)) (replicate (length inVals) cty_NilVal) e) as Hloop'.
  repeat case_match; simplify_eq/=; intros; simplify_eq/=; try located_here.
  all: first
    [ match goal with Heq : encodeSet_range_inVals _ ?inVals _ _ _ _ = _ |- _ =>
        specialize (Hloop' inVals); rewrite Heq in Hloop';
        destruct (Hloop' _ eq_refl) as [v Hv]; by eapply Hety end
    | destruct (Hloop _ eq_refl) as [v Hv]; by eapply Hety ].
Qed.

Lemma encodeObject_located attrTypes :
  Forall (fun kt => errors_located enc kt.2) attrTypes ->
  errors_located (fun val _ path => encodeObject enc val attrTypes path)
    (cty_Object attrTypes).
Proof.
  intros Hall%located_all_Object val path e.
  rewrite path_depth_Object. unfold encodeObject.
  pose proof (fun e => encodeObject_range_map_located enc (unwrapPointer val)
    (list_to_set (Value_MapKeys (unwrapPointer val))) attrTypes _
    path cty_PathStep_nil ∅ e Hall) as Hloop.
  pose proof (fun e => encodeObject_range_struct_located enc (unwrapPointer val)
    (rivertags_Get (Value_Type (unwrapPointer val))) attrTypes _
    path cty_PathStep_nil ∅ e Hall) as Hloop'.
  handler_located.
Qed.

Lemma encodeTuple_located elemTypes :
  Forall (errors_located enc) elemTypes ->
  errors_located (fun val _ path => encodeTuple enc val elemTypes path)
    (cty_Tuple elemTypes).
Proof.
  intros Hall%located_all_Tuple val path e.
  rewrite path_depth_Tuple. unfold encodeTuple.
  pose proof (fun e => encodeTuple_range_slice_located enc (unwrapPointer val)
    elemTypes _ 0 path cty_PathStep_nil (replicate (length elemTypes) cty_NilVal)
    e Hall) as Hloop.
  pose proof (fun e => encodeTuple_range_struct_located enc (unwrapPointer val)
    elemTypes _ 0 path cty_PathStep_nil (replicate (length elemTypes) cty_NilVal)
    e Hall) as Hloop'.
  handler_located.
Qed.

End Handlers_located.

(** X4.  An error of [encode] carries the path [encode] was given
    followed by the steps down to where it was raised: they are index or
    attribute steps, never the nil step the handlers append as a
    placeholder, and there are no more of them than the target type is
    deep (a set counts for none).  For [Encode] the path of an error is
    thus made of real steps only and is no longer than the type is
    deep. *)
Theorem encode_error_located `{Libraries} (val : reflect_Value) (ty : cty_Type)
    (path : cty_Path) (e : cty_PathError) :
  ret_err (encode val ty path) = Some e ->
  exists steps, Path e = path ++ steps
    ∧ (cty_PathStep_nil ∉ steps)
    ∧ length steps ≤ path_depth ty.
Proof.
  revert val path e. change (errors_located encode ty).
  induction ty as [| | | | | ety IH | ety IH | ety IH | attrTypes IH
                   | elemTypes IH | name t] using cty_Type_nested_ind;
    intros val path e; rewrite encode_unfold;
    destruct (scalar_handlers_below val cty_NilType path e)
      as (HBool & HNumber & HString & HDynamic & _ & _);
    pose proof (fun ty => proj2 (proj2 (proj2 (proj2 (proj2
      (scalar_handlers_below val ty path e)))))) as HPass;
    pose proof (fun ty => proj1 (proj2 (proj2 (proj2 (proj2
      (scalar_handlers_below val ty path e)))))) as HCapsule;
    case_match; intros Herr;
    try (rewrite (HPass _ Herr); located_here);
    try (simplify_eq/=; located_here).
  - rewrite (HBool Herr). located_here.
  - rewrite (HNumber Herr). located_here.
  - rewrite (HString Herr). located_here.
  - rewrite (HDynamic Herr). located_here.
  - by eapply (encodeList_located encode ety IH val path e).
  - by eapply (encodeMap_located encode ety IH val path e).
  - by eapply (encodeSet_located encode ety IH val path e).
  - by eapply (encodeObject_located encode attrTypes IH val path e).
  - by eapply (encodeTuple_located encode elemTypes IH val path e).
  - rewrite (HCapsule _ Herr). located_here.
Qed.

Lemma encode_error_located_witness :
  let val := reflect_ValueOf
    (DMap string_key (Some [("rows", DSlice (Some [DInt W0 1; DBool true]))])) in
  let ty := cty_Object [("rows", cty_Set (cty_List cty_Number))] in
  let e := NewErrorf [cty_GetAttrStep "x"; cty_GetAttrStep "rows"]
             (cant_convert_kind_to reflect_Int (cty_List cty_Number)) in
  ret_err (@encode sample_Libraries val ty [cty_GetAttrStep "x"]) = Some e
  ∧ exists steps, Path e = [cty_GetAttrStep "x"] ++ steps
      ∧ (cty_PathStep_nil ∉ steps)
      ∧ length steps ≤ path_depth ty.
Proof.
  cbv zeta. split; [reflexivity|].
  apply (@encode_error_located sample_Libraries
    (reflect_ValueOf
       (DMap string_key (Some [("rows", DSlice (Some [DInt W0 1; DBool true]))])))
    (cty_Object [("rows", cty_Set (cty_List cty_Number))]) [cty_GetAttrStep "x"]).
  reflexivity.
Defined.

(** ** Which natives a handler takes *)



(** X6.  Against a list, map, set, object or tuple type, a native value
    that is not a [cty.Value], does not unwrap to nothing and unwraps to a
    kind the handler has no case for is refused with that kind and the
    target type, at the path of the handler.  The cases are: slice and
    array for a list; map for a map; slice, array and struct for a set;
    map and struct for an object; slice and struct, but not array, for a
    tuple. *)
Theorem encode_collection_kind_refused `{Libraries} (val : reflect_Value)
    (ty : cty_Type) (path : cty_Path) :
  is_collection ty = true ->
  Type_AssignableTo val valueType = false ->
  Value_IsValid (unwrapPointer val) = true ->
  collection_case ty (Value_Kind (unwrapPointer val)) = false ->
  encode val ty path =
    Return path cty_NilVal
      (Some (NewErrorf path (cant_convert_kind_to (Value_Kind (unwrapPointer val)) ty))).
Proof.
  intros Hcollection Hty Hvalid Hcase. rewrite encode_unfold, Hty, andb_false_r.
  destruct ty; try done;
    unfold encodeList, encodeMap, encodeSet, encodeObject, encodeTuple;
    rewrite Hvalid; simpl in *;
    by destruct (Value_Kind (unwrapPointer val)).
Qed.

Lemma encode_collection_kind_refused_witness :
  let val := reflect_ValueOf (DArray [DInt W0 1; DString "x"]) in
  let ty := cty_Tuple [cty_Number; cty_String] in
  is_collection ty = true
  ∧ Type_AssignableTo val valueType = false
  ∧ Value_IsValid (unwrapPointer val) = true
  ∧ collection_case ty (Value_Kind (unwrapPointer val)) = false
  ∧ @encode sample_Libraries val ty []
    = Return [] cty_NilVal
        (Some (NewErrorf [] (cant_convert_kind_to reflect_Array ty))).
Proof.
  cbv zeta. split; [reflexivity|]. split; [reflexivity|]. split; [reflexivity|].
  split; [reflexivity|].
  apply (@encode_collection_kind_refused sample_Libraries
    (reflect_ValueOf (DArray [DInt W0 1; DString "x"]))
    (cty_Tuple [cty_Number; cty_String]) []); reflexivity.
Defined.

(** ** Typed values behind a pointer or in an interface *)



(** ** Capsules *)



(** ** Maps: entry by entry, in any order *)

Section Map_of_keys.
Context {V : Type} (f : string -> V).

Lemma inserted_keys_lookup_other (keys : list string) (vals : gmap string V) (k : string) :
  k ∉ keys -> inserted_keys f vals keys !! k = vals !! k.
Proof.
  revert vals. induction keys as [|k' keys IH]; intros vals Hk; [done|].
  simpl. apply not_elem_of_cons in Hk as [Hne Hk].
  rewrite IH by done. by rewrite lookup_insert_ne.
Qed.

Lemma inserted_keys_lookup (keys : list string) (vals : gmap string V) (k : string) :
  k ∈ keys -> inserted_keys f vals keys !! k = Some (f k).
Proof.
  revert vals. induction keys as [|k' keys IH]; intros vals Hin.
  - by apply elem_of_nil in Hin.
  - simpl. destruct (decide (k ∈ keys)) as [Hlater|Hlast]; [by apply IH|].
    apply elem_of_cons in Hin as [->|Hin]; [|done].
    rewrite inserted_keys_lookup_other by done. by rewrite lookup_insert_eq.
Qed.

End Map_of_keys.

Section Map_entries.
Context `{Libraries}.
Variable enc : reflect_Value -> cty_Type -> cty_Path -> Returned.
Variables (val : reflect_Value) (ety : cty_Type) (p : cty_Path).

Local Abbreviation map_entry := (map_entry enc val ety p).

(** The loop of [encodeMap]: it ends without an error with every key set
    to the value of its entry, or with the error or the panic of an
    entry. *)
Lemma encodeMap_range_spec (keys : list string) :
  forall (x : cty_PathStep) (vals : gmap string cty_Value),
  match encodeMap_range enc val ety keys (p ++ [x]) vals with
  | (_, vals', None) =>
      vals' = inserted_keys (fun k => ret_val (map_entry k)) vals keys
      ∧ Forall (fun k => ret_err (map_entry k) = None) keys
  | (_, _, Some e) =>
      exists k, k ∈ keys ∧ ret_err (map_entry k) = Some e
  end.
Proof.
  induction keys as [|k keys IH]; intros x vals; simpl; [done|].
  rewrite set_last_step_app.
  assert (Hentry : map_entry k
    = match Value_MapIndex val k with
      | Some elem => enc elem ety (p ++ [cty_IndexStep (cty_StringVal k)])
      | None =>
          Return (p ++ [cty_IndexStep (cty_StringVal k)]) cty_NilVal
            (Some (runtime_panic (p ++ [cty_IndexStep (cty_StringVal k)])
                     (MapIndex_panic (Value_Type_Key val))))
      end) by done.
  destruct (Value_MapIndex val k) as [elem|].
  2:{ exists k. split; [apply list_elem_of_here|]. by rewrite Hentry. }
  rewrite <-Hentry.
  destruct (ret_err (map_entry k)) as [e|] eqn:Hk.
  - exists k. split; [apply list_elem_of_here|done].
  - specialize (IH (cty_IndexStep (cty_StringVal k)) (<[k:=ret_val (map_entry k)]> vals)).
    destruct (encodeMap_range _ _ _ _ _ _) as [[p' vals'] [e|]].
    + destruct IH as (k' & Hin & Herr). exists k'.
      split; [by apply list_elem_of_further|done].
    + destruct IH as [-> Hall]. split; [done|]. by constructor.
Qed.

End Map_entries.

(** [encodeMap] on a non-nil map with string keys and at least one entry
    is its loop. *)
Lemma encodeMap_entries (enc : reflect_Value -> cty_Type -> cty_Path -> Returned)
    (val : reflect_Value) (key : reflect_Type) (entries : list (string * GoData))
    (ety : cty_Type) (path : cty_Path) :
  data (unwrapPointer val) = DMap key (Some entries) ->
  Type_Kind key = reflect_String ->
  entries ≠ [] ->
  encodeMap enc val ety path =
    match encodeMap_range enc (unwrapPointer val) ety entries.*1
            (path ++ [cty_PathStep_nil]) ∅ with
    | (path', _, Some err) => Return path' cty_NilVal (Some err)
    | (path', vals, None) => Return (drop_last_step path') (cty_MapVal vals) None
    end.
Proof.
  intros Hdata Hkey Hentries.
  unfold encodeMap, Value_IsValid, Value_Kind, Value_IsNil, Value_Len,
    Value_Type_Key, Value_MapKeys.
  rewrite Hdata. simpl. rewrite (bool_decide_eq_true_2 _ Hkey). simpl.
  by destruct entries.
Qed.

Lemma find_key_Some {A : Type} (l : list (string * A)) (k : string) (e : string * A) :
  NoDup l.*1 ->
  find (fun e => bool_decide (e.1 = k)) l = Some e ↔ e ∈ l ∧ e.1 = k.
Proof.
  induction l as [|e' l IH]; intros Hnodup; simpl.
  - split; [done|]. intros [Hin _]. by apply elem_of_nil in Hin.
  - apply NoDup_cons in Hnodup as [Hfresh Hnodup]. case_bool_decide as Hk.
    + split.
      * intros [= ->]. split; [apply list_elem_of_here|done].
      * intros [[->|Hin]%elem_of_cons Hek]; [done|].
        exfalso. apply Hfresh. rewrite Hk, <-Hek. by apply list_elem_of_fmap_2.
    + rewrite IH by done. split.
      * intros [Hin Hek]. split; [by apply list_elem_of_further|done].
      * intros [[->|Hin]%elem_of_cons Hek]; done.
Qed.

Lemma find_key_None {A : Type} (l : list (string * A)) (k : string) :
  find (fun e => bool_decide (e.1 = k)) l = None ↔ k ∉ l.*1.
Proof.
  induction l as [|e' l IH]; simpl.
  - split; [intros _; apply not_elem_of_nil|done].
  - case_bool_decide as Hk.
    + split; [done|]. intros Hout. exfalso. apply Hout. rewrite <-Hk. apply list_elem_of_here.
    + rewrite IH, not_elem_of_cons. split; [by intros Hout; split|by intros [_ Hout]].
Qed.

(** X9.  A native value that unwraps to a non-nil map whose key type is
    [string], against a map type, gives the map that has exactly the keys
    of the native map, each with the encoding of the value under the key,
    one index step, keyed by the key, down; the empty map when there are
    no entries.  An error is the error of the encoding of one of the
    entries.  Where the key type is of kind [String] but is not [string]
    itself, as a defined type [type K string] is, [MapIndex] panics at
    the first key of a map that has an entry; the empty map still encodes
    to the empty map. *)
Theorem encode_map_entries `{Libraries} (val : reflect_Value) (key : reflect_Type)
    (entries : list (string * GoData)) (ety : cty_Type) (path : cty_Path) :
  data (unwrapPointer val) = DMap key (Some entries) ->
  Type_Kind key = reflect_String ->
  let entry := map_entry encode (unwrapPointer val) ety path in
  (key = stringType ->
   (NoDup entries.*1 -> forall k d, (k, d) ∈ entries ->
      entry k = encode (mkValue d false) ety (path ++ [cty_IndexStep (cty_StringVal k)]))
   ∧ match ret_err (encode val (cty_Map ety) path) with
     | None =>
         exists vals,
           encode val (cty_Map ety) path
             = Return path
                 (match entries with
                  | [] => cty_MapValEmpty ety
                  | _ => cty_MapVal vals
                  end) None
           ∧ (forall k, k ∈ entries.*1 ->
                ret_err (entry k) = None ∧ vals !! k = Some (ret_val (entry k)))
           ∧ (forall k, k ∉ entries.*1 -> vals !! k = None)
     | Some e =>
         ret_val (encode val (cty_Map ety) path) = cty_NilVal
         ∧ exists k, k ∈ entries.*1 ∧ ret_err (entry k) = Some e
     end)
  ∧ (key ≠ stringType ->
     encode val (cty_Map ety) path
     = match entries with
       | [] => Return path (cty_MapValEmpty ety) None
       | (k, _) :: _ =>
           let path := path ++ [cty_IndexStep (cty_StringVal k)] in
           Return path cty_NilVal (Some (runtime_panic path (MapIndex_panic key)))
       end).
Proof.
  intros Hdata Hkey entry.
  assert (Hty : Type_AssignableTo val valueType = false).
  { apply not_valueType_of_unwrap. unfold Type_AssignableTo. by rewrite Hdata. }
  rewrite !encode_unfold, Hty, !andb_false_r.
  split.
  - intros ->. split.
    { intros Hnodup k d Hin. unfold entry, map_entry, Value_MapIndex.
      rewrite Hdata. simpl.
      by rewrite (proj2 (find_key_Some entries k (k, d) Hnodup) (conj Hin eq_refl)). }
    destruct (decide (entries = [])) as [->|Hentries].
    { unfold encodeMap, Value_IsValid, Value_Kind, Value_IsNil, Value_Len.
      rewrite Hdata. simpl. exists ∅. split; [done|].
      split; [|done]. intros k Hin. by apply elem_of_nil in Hin. }
    rewrite (encodeMap_entries encode val stringType entries ety path Hdata Hkey Hentries).
    pose proof (encodeMap_range_spec encode (unwrapPointer val) ety path
                  entries.*1 cty_PathStep_nil ∅) as Hspec.
    pose proof (encodeMap_range_path encode (unwrapPointer val) ety entries.*1
                  path cty_PathStep_nil ∅) as [s Hs].
    fold entry in Hspec. revert Hspec Hs.
    destruct (encodeMap_range _ _ _ _ _ _) as [[p' vals] [e|]];
      simpl; intros Hspec ->; [done|].
    destruct Hspec as [-> Hall]. rewrite Forall_forall in Hall.
    exists (inserted_keys (fun k => ret_val (entry k)) ∅ entries.*1).
    rewrite drop_last_step_app. split; [by destruct entries|]. split.
    + intros k Hin. split; [by apply Hall|].
      by apply (inserted_keys_lookup (fun k => ret_val (entry k))).
    + intros k Hout.
      by rewrite (inserted_keys_lookup_other (fun k => ret_val (entry k))).
  - intros Hdefined. destruct entries as [|[k d] entries].
    { unfold encodeMap, Value_IsValid, Value_Kind, Value_IsNil, Value_Len.
      by rewrite Hdata. }
    rewrite (encodeMap_entries encode val key _ ety path Hdata Hkey) by done.
    simpl. rewrite set_last_step_app. unfold Value_MapIndex, Value_Type_Key.
    rewrite Hdata. by rewrite (bool_decide_eq_false_2 _ Hdefined).
Qed.

Lemma encode_map_entries_witness :
  let entries := [("a", DInt W0 1); ("b", DInt W0 2)] in
  let val := reflect_ValueOf (DPtr (Some (DMap stringType (Some entries)))) in
  let entry := map_entry (@encode sample_Libraries) (unwrapPointer val) cty_Number [] in
  data (unwrapPointer val) = DMap stringType (Some entries)
  ∧ Type_Kind stringType = reflect_String
  ∧ (NoDup entries.*1 -> forall k d, (k, d) ∈ entries ->
       entry k = @encode sample_Libraries (mkValue d false) cty_Number
                   [cty_IndexStep (cty_StringVal k)])
  ∧ match ret_err (@encode sample_Libraries val (cty_Map cty_Number) []) with
    | None =>
        exists vals,
          @encode sample_Libraries val (cty_Map cty_Number) []
            = Return [] (cty_MapVal vals) None
          ∧ (forall k, k ∈ entries.*1 ->
               ret_err (entry k) = None ∧ vals !! k = Some (ret_val (entry k)))
          ∧ (forall k, k ∉ entries.*1 -> vals !! k = None)
    | Some e =>
        ret_val (@encode sample_Libraries val (cty_Map cty_Number) []) = cty_NilVal
        ∧ exists k, k ∈ entries.*1 ∧ ret_err (entry k) = Some e
    end.
Proof.
  cbv zeta. split; [reflexivity|]. split; [reflexivity|].
  apply (proj1 (@encode_map_entries sample_Libraries
    (reflect_ValueOf (DPtr (Some (DMap stringType (Some [("a", DInt W0 1); ("b", DInt W0 2)])))))
    stringType [("a", DInt W0 1); ("b", DInt W0 2)] cty_Number [] eq_refl eq_refl)).
  reflexivity.
Defined.

(** Looking a key up in the entries of a map does not depend on the order
    in which the entries are listed. *)
Lemma find_key_Permutation {A : Type} (l l' : list (string * A)) (k : string) :
  NoDup l.*1 -> l ≡ₚ l' ->
  find (fun e => bool_decide (e.1 = k)) l = find (fun e => bool_decide (e.1 = k)) l'.
Proof.
  intros Hnodup Hperm.
  assert (Hnodup' : NoDup l'.*1) by by rewrite <-Hperm.
  destruct (find _ l) as [e|] eqn:Hfind.
  - symmetry. apply find_key_Some; [done|].
    apply find_key_Some in Hfind as [Hin Hk]; [|done]. by rewrite <-Hperm.
  - symmetry. apply find_key_None. apply find_key_None in Hfind. by rewrite <-Hperm.
Qed.

(** X10.  The order in which a native map lists its entries does not
    matter to a successful encoding: two native values that unwrap to
    non-nil maps of one key type with the same entries, in whatever
    order, either both encode against a map type or both fail, with an
    error or with a panic, and when they encode they give the same
    result. *)
Theorem encode_map_order `{Libraries} (val val' : reflect_Value) (key : reflect_Type)
    (entries entries' : list (string * GoData)) (ety : cty_Type) (path : cty_Path) :
  data (unwrapPointer val) = DMap key (Some entries) ->
  data (unwrapPointer val') = DMap key (Some entries') ->
  entries ≡ₚ entries' ->
  NoDup entries.*1 ->
  (ret_err (encode val (cty_Map ety) path) = None
   ↔ ret_err (encode val' (cty_Map ety) path) = None)
  ∧ (ret_err (encode val (cty_Map ety) path) = None ->
     encode val' (cty_Map ety) path = encode val (cty_Map ety) path).
Proof.
  intros Hdata Hdata' Hperm Hnodup.
  assert (Hty : Type_AssignableTo val valueType = false).
  { apply not_valueType_of_unwrap. unfold Type_AssignableTo. by rewrite Hdata. }
  assert (Hty' : Type_AssignableTo val' valueType = false).
  { apply not_valueType_of_unwrap. unfold Type_AssignableTo. by rewrite Hdata'. }
  rewrite !encode_unfold, Hty, Hty', !andb_false_r.
  destruct (decide (entries = [])) as [->|Hentries].
  { apply Permutation_nil_l in Hperm. subst entries'.
    unfold encodeMap, Value_IsValid, Value_Kind, Value_IsNil, Value_Len.
    by rewrite Hdata, Hdata'. }
  assert (Hentries' : entries' ≠ []).
  { intros ->. apply Permutation_nil_r in Hperm. by subst entries. }
  destruct (decide (Type_Kind key = reflect_String)) as [Hkey|Hkey].
  2:{ unfold encodeMap, Value_IsValid, Value_Kind, Value_IsNil, Value_Len,
        Value_Type_Key.
      rewrite Hdata, Hdata'. simpl. rewrite (bool_decide_eq_false_2 _ Hkey).
      destruct entries, entries'; by simpl. }
  rewrite (encodeMap_entries encode val key entries ety path Hdata Hkey Hentries).
  rewrite (encodeMap_entries encode val' key entries' ety path Hdata' Hkey Hentries').
  assert (Hentry : forall k,
    map_entry encode (unwrapPointer val') ety path k
    = map_entry encode (unwrapPointer val) ety path k).
  { intros k. unfold map_entry, Value_MapIndex, Value_Type_Key.
    rewrite Hdata, Hdata'. simpl.
    by rewrite (find_key_Permutation entries entries' k Hnodup Hperm). }
  pose proof (encodeMap_range_spec encode (unwrapPointer val) ety path
                entries.*1 cty_PathStep_nil ∅) as Hspec.
  pose proof (encodeMap_range_spec encode (unwrapPointer val') ety path
                entries'.*1 cty_PathStep_nil ∅) as Hspec'.
  pose proof (encodeMap_range_path encode (unwrapPointer val) ety entries.*1
                path cty_PathStep_nil ∅) as [s Hs].
  pose proof (encodeMap_range_path encode (unwrapPointer val') ety entries'.*1
                path cty_PathStep_nil ∅) as [s' Hs'].
  revert Hspec Hs Hspec' Hs'.
  destruct (encodeMap_range encode (unwrapPointer val) _ _ _ _) as [[p1 vals] [e|]];
    destruct (encodeMap_range encode (unwrapPointer val') _ _ _ _) as [[p2 vals'] [e'|]];
    simpl; intros Hspec -> Hspec' ->; try done.
  - exfalso. destruct Hspec as (k & Hin & Herr), Hspec' as [_ Hall].
    rewrite Forall_forall in Hall. specialize (Hall k).
    rewrite Hentry, Herr in Hall. rewrite <-Hperm in Hall. by specialize (Hall Hin).
  - exfalso. destruct Hspec' as (k & Hin & Herr), Hspec as [_ Hall].
    rewrite Forall_forall in Hall. specialize (Hall k).
    rewrite Hentry in Herr. rewrite Herr in Hall. rewrite Hperm in Hall.
    by specialize (Hall Hin).
  - split; [done|]. intros _. rewrite !drop_last_step_app.
    destruct Hspec as [-> _], Hspec' as [-> _]. do 2 f_equal.
    apply map_eq. intros k. destruct (decide (k ∈ entries.*1)) as [Hin|Hout].
    + rewrite (inserted_keys_lookup (fun k => ret_val (map_entry encode (unwrapPointer val) ety path k))) by done.
      rewrite (inserted_keys_lookup (fun k => ret_val (map_entry encode (unwrapPointer val') ety path k)))
        by by rewrite <-Hperm.
      by rewrite Hentry.
    + rewrite (inserted_keys_lookup_other (fun k => ret_val (map_entry encode (unwrapPointer val) ety path k))) by done.
      by rewrite (inserted_keys_lookup_other (fun k => ret_val (map_entry encode (unwrapPointer val') ety path k)))
        by by rewrite <-Hperm.
Qed.

Lemma encode_map_order_witness :
  let entries := [("a", DInt W0 1); ("b", DInt W0 2)] in
  let entries' := [("b", DInt W0 2); ("a", DInt W0 1)] in
  let val := reflect_ValueOf (DMap string_key (Some entries)) in
  let val' := reflect_ValueOf (DMap string_key (Some entries')) in
  data (unwrapPointer val) = DMap string_key (Some entries)
  ∧ data (unwrapPointer val') = DMap string_key (Some entries')
  ∧ entries ≡ₚ entries'
  ∧ NoDup entries.*1
  ∧ ret_err (@encode sample_Libraries val (cty_Map cty_Number) []) = None
  ∧ @encode sample_Libraries val' (cty_Map cty_Number) []
    = @encode sample_Libraries val (cty_Map cty_Number) [].
Proof.
  cbv zeta.
  assert (Hperm : [("a", DInt W0 1); ("b", DInt W0 2)]
                    ≡ₚ [("b", DInt W0 2); ("a", DInt W0 1)]) by apply perm_swap.
  assert (Hnodup : NoDup [("a", DInt W0 1); ("b", DInt W0 2)].*1).
  { simpl. repeat constructor; [|apply not_elem_of_nil..].
    intros Hin. apply list_elem_of_singleton in Hin. discriminate Hin. }
  split; [reflexivity|]. split; [reflexivity|]. split; [exact Hperm|].
  split; [exact Hnodup|]. split; [reflexivity|].
  apply (proj2 (@encode_map_order sample_Libraries
    (reflect_ValueOf (DMap string_key (Some [("a", DInt W0 1); ("b", DInt W0 2)])))
    (reflect_ValueOf (DMap string_key (Some [("b", DInt W0 2); ("a", DInt W0 1)])))
    string_key _ _ cty_Number [] eq_refl eq_refl Hperm Hnodup)).
  reflexivity.
Defined.

(** ** Sets: elements at the path of the set *)

Section Set_elements.
Context `{Libraries}.
Variable enc : reflect_Value -> cty_Type -> cty_Path -> Returned.
Variables (ety : cty_Type) (path : cty_Path).

Local Abbreviation set_range_spec := (set_range_spec enc ety path).

Lemma set_range_step (source : nat -> reflect_Value) (k n : nat) :
  <[k:=ret_val (enc (source k) ety path)]>
    (((fun i => ret_val (enc (source i) ety path)) <$> seq 0 k)
       ++ cty_NilVal :: replicate n cty_NilVal)
  = ((fun i => ret_val (enc (source i) ety path)) <$> seq 0 (S k))
      ++ replicate n cty_NilVal.
Proof.
  rewrite seq_S, fmap_app. simpl. rewrite <-(assoc_L (++)). simpl.
  rewrite insert_app_r_alt; rewrite length_fmap, length_seq; [|lia].
  by rewrite Nat.sub_diag.
Qed.

Lemma set_range_spec_next (source : nat -> reflect_Value) (k n : nat)
    (l : Loop (list cty_Value)) :
  ret_err (enc (source k) ety path) = None ->
  set_range_spec source (S k) n l -> set_range_spec source k (S n) l.
Proof.
  intros Hk. destruct l as [[p' vals] [e|]]; simpl.
  - intros (i & Hi & Hbefore & Herr). exists i.
    split; [lia|]. split; [|done]. intros j Hj.
    destruct (decide (j = k)) as [->|]; [done|]. apply Hbefore. lia.
  - intros [-> Hall]. split.
    { by replace (k + S n) with (S k + n) by lia. }
    intros i Hi. destruct (decide (i = k)) as [->|]; [done|]. apply Hall. lia.
Qed.

Lemma encodeSet_range_spec (val : reflect_Value) (n : nat) : forall k : nat,
  set_range_spec (Value_Index val) k n
    (encodeSet_range enc val ety path (seq k n)
       (((fun i => ret_val (enc (Value_Index val i) ety path)) <$> seq 0 k)
          ++ replicate n cty_NilVal)).
Proof.
  induction n as [|n IH]; intros k; simpl.
  - rewrite app_nil_r, Nat.add_0_r. split; [done|]. intros i Hi. lia.
  - destruct (ret_err (enc (Value_Index val k) ety path)) as [e|] eqn:Hk.
    + exists k. split; [lia|]. split; [|done]. intros j Hj. lia.
    + rewrite (set_range_step (Value_Index val)).
      apply (set_range_spec_next (Value_Index val)); [done|]. apply IH.
Qed.

Lemma encodeSet_range_inVals_spec (inVals : list GoData) (n : nat) : forall k : nat,
  let source i := reflect_ValueOf (default DInvalid (inVals !! i)) in
  set_range_spec source k n
    (encodeSet_range_inVals enc inVals ety path (seq k n)
       (((fun i => ret_val (enc (source i) ety path)) <$> seq 0 k)
          ++ replicate n cty_NilVal)).
Proof.
  intros k source. revert k. induction n as [|n IH]; intros k; simpl.
  - rewrite app_nil_r, Nat.add_0_r. split; [done|]. intros i Hi. lia.
  - fold (source k).
    destruct (ret_err (enc (source k) ety path)) as [e|] eqn:Hk.
    + exists k. split; [lia|]. split; [|done]. intros j Hj. lia.
    + rewrite (set_range_step source).
      apply (set_range_spec_next source); [done|]. apply IH.
Qed.

Lemma encodeSet_range_whole (val : reflect_Value) (n : nat) :
  set_range_spec (Value_Index val) 0 n
    (encodeSet_range enc val ety path (seq 0 n) (replicate n cty_NilVal)).
Proof. exact (encodeSet_range_spec val n 0). Qed.

Lemma encodeSet_range_inVals_whole (inVals : list GoData) (n : nat) :
  set_range_spec (fun i => reflect_ValueOf (default DInvalid (inVals !! i))) 0 n
    (encodeSet_range_inVals enc inVals ety path (seq 0 n) (replicate n cty_NilVal)).
Proof. exact (encodeSet_range_inVals_spec inVals n 0). Qed.

End Set_elements.

(** An error of [encode] against a scalar type lies at the path [encode]
    was given. *)
Lemma scalar_error_path `{Libraries} (val : reflect_Value) (ty : cty_Type)
    (path : cty_Path) (e : cty_PathError) :
  is_scalar ty = true ->
  ret_err (encode val ty path) = Some e -> Path e = path.
Proof.
  intros Hscalar. rewrite encode_unfold.
  destruct (scalar_handlers_below val ty path e)
    as (HBool & HNumber & HString & _ & _ & HPass).
  case_match; [done|]. by destruct ty.
Qed.

(** [encodeSet] on a value with elements is one of its loops. *)
Lemma encodeSet_elems (enc : reflect_Value -> cty_Type -> cty_Path -> Returned)
    (val : reflect_Value) (elems : list GoData) (ety : cty_Type) (path : cty_Path) :
  set_elems (unwrapPointer val) = Some elems ->
  elems ≠ [] ->
  exists l,
    set_range_spec enc ety path (set_source (unwrapPointer val)) 0 (length elems) l
    ∧ l.1.1 = path
    ∧ encodeSet enc val ety path =
        match l with
        | (path', _, Some err) => Return path' cty_NilVal (Some err)
        | (path', vals, None) => Return path' (cty_SetVal vals) None
        end.
Proof.
  intros Helems Hne. unfold set_elems in Helems.
  destruct (data (unwrapPointer val))
    as [| | | | | | | | | [els|] | els | | [] fields] eqn:Hdata; simplify_eq.
  - exists (encodeSet_range enc (unwrapPointer val) ety path (seq 0 (length elems))
              (replicate (length elems) cty_NilVal)).
    split; [|split; [apply encodeSet_range_path|]].
    + assert (Hsource : set_source (unwrapPointer val) = Value_Index (unwrapPointer val)).
      { unfold set_source. by rewrite Hdata. }
      rewrite Hsource. apply encodeSet_range_whole.
    + unfold encodeSet, Value_IsValid, Value_Kind, Value_IsNil, Value_Len.
      rewrite Hdata, length_replicate. by destruct elems.
  - exists (encodeSet_range enc (unwrapPointer val) ety path (seq 0 (length elems))
              (replicate (length elems) cty_NilVal)).
    split; [|split; [apply encodeSet_range_path|]].
    + assert (Hsource : set_source (unwrapPointer val) = Value_Index (unwrapPointer val)).
      { unfold set_source. by rewrite Hdata. }
      rewrite Hsource. apply encodeSet_range_whole.
    + unfold encodeSet, Value_IsValid, Value_Kind, Value_IsNil, Value_Len.
      rewrite Hdata, length_replicate. by destruct elems.
  - exists (encodeSet_range_inVals enc elems ety path (seq 0 (length elems))
              (replicate (length elems) cty_NilVal)).
    split; [|split; [apply encodeSet_range_inVals_path|]].
    + assert (Hsource : set_source (unwrapPointer val)
                        = fun i => reflect_ValueOf (default DInvalid (elems !! i))).
      { unfold set_source. by rewrite Hdata. }
      rewrite Hsource. apply encodeSet_range_inVals_whole.
    + unfold encodeSet, Value_IsValid, Value_Kind, Interface_set_Set.
      rewrite Hdata. by destruct elems.
Qed.



(** ** Tuples: position by position *)

Section Tuple_positions.
Context `{Libraries}.
Variable enc : reflect_Value -> cty_Type -> cty_Path -> Returned.
Variables (val : reflect_Value) (p : cty_Path).

Local Abbreviation tuple_range_spec := (tuple_range_spec enc p).

Lemma tuple_range_spec_next (source : nat -> reflect_Value) (k : nat)
    (done : list cty_Value) (ety : cty_Type) (elemTypes : list cty_Type)
    (l : Loop (list cty_Value)) :
  let element i ety :=
    enc (source i) ety (p ++ [cty_IndexStep (cty_NumberIntVal (Z.of_nat i))]) in
  ret_err (element k ety) = None ->
  tuple_range_spec source (S k) (done ++ [ret_val (element k ety)]) elemTypes l ->
  tuple_range_spec source k done (ety :: elemTypes) l.
Proof.
  intros element Hk. destruct l as [[p' vals] [e|]]; simpl.
  - intros (j & ety' & Hj & Hbefore & Herr). exists (S j), ety'.
    split; [done|]. split.
    + intros [|j'] ety'' Hlt Hjth; simpl in Hjth.
      * simplify_eq. by rewrite Nat.add_0_r.
      * replace (k + S j') with (S (k + j')) by lia. apply Hbefore; [lia|done].
    + by replace (k + S j) with (S (k + j)) by lia.
  - intros [-> Hall]. split.
    + rewrite <-(assoc_L (++)). simpl. rewrite Nat.add_0_r. do 2 f_equal.
      apply imap_ext. intros j ety' _. simpl. by replace (k + S j) with (S (k + j)) by lia.
    + intros [|j] ety' Hjth; simpl in Hjth.
      * simplify_eq. by rewrite Nat.add_0_r.
      * replace (k + S j) with (S (k + j)) by lia. by apply Hall.
Qed.

Lemma encodeTuple_range_slice_spec (elemTypes : list cty_Type) :
  forall (k : nat) (x : cty_PathStep) (done : list cty_Value),
  length done = k ->
  tuple_range_spec (Value_Index val) k done elemTypes
    (encodeTuple_range_slice enc val elemTypes k (p ++ [x])
       (done ++ replicate (length elemTypes) cty_NilVal)).
Proof.
  induction elemTypes as [|ety elemTypes IH]; intros k x done Hdone; simpl.
  - by rewrite app_nil_r.
  - rewrite set_last_step_app.
    destruct (ret_err (enc (Value_Index val k) ety
                (p ++ [cty_IndexStep (cty_NumberIntVal (Z.of_nat k))]))) as [e|] eqn:Hk.
    + exists 0, ety. rewrite Nat.add_0_r. split; [done|]. split; [|done].
      intros j' ety' Hj'. lia.
    + apply (tuple_range_spec_next (Value_Index val)); [done|].
      rewrite insert_app_r_alt by lia. rewrite Hdone, Nat.sub_diag. simpl.
      rewrite (cons_middle _ done (replicate (length elemTypes) cty_NilVal)),
        (assoc_L (++)).
      apply IH. rewrite length_app. simpl. lia.
Qed.

Lemma encodeTuple_range_struct_spec (elemTypes : list cty_Type) :
  forall (k : nat) (x : cty_PathStep) (done : list cty_Value),
  length done = k ->
  tuple_range_spec (Value_Field val) k done elemTypes
    (encodeTuple_range_struct enc val elemTypes k (p ++ [x])
       (done ++ replicate (length elemTypes) cty_NilVal)).
Proof.
  induction elemTypes as [|ety elemTypes IH]; intros k x done Hdone; simpl.
  - by rewrite app_nil_r.
  - rewrite set_last_step_app.
    destruct (ret_err (enc (Value_Field val k) ety
                (p ++ [cty_IndexStep (cty_NumberIntVal (Z.of_nat k))]))) as [e|] eqn:Hk.
    + exists 0, ety. rewrite Nat.add_0_r. split; [done|]. split; [|done].
      intros j' ety' Hj'. lia.
    + apply (tuple_range_spec_next (Value_Field val)); [done|].
      rewrite insert_app_r_alt by lia. rewrite Hdone, Nat.sub_diag. simpl.
      rewrite (cons_middle _ done (replicate (length elemTypes) cty_NilVal)),
        (assoc_L (++)).
      apply IH. rewrite length_app. simpl. lia.
Qed.

End Tuple_positions.

(** [encodeTuple] on a non-nil slice or a struct of the right length is
    one of its loops. *)
Lemma encodeTuple_elems (enc : reflect_Value -> cty_Type -> cty_Path -> Returned)
    (val : reflect_Value) (elems : list GoData) (elemTypes : list cty_Type)
    (path : cty_Path) :
  tuple_elems (unwrapPointer val) = Some elems ->
  length elems = length elemTypes ->
  elemTypes ≠ [] ->
  exists l,
    tuple_range_spec enc path (tuple_source (unwrapPointer val)) 0 [] elemTypes l
    ∧ (exists s, l.1.1 = path ++ [s])
    ∧ encodeTuple enc val elemTypes path =
        match l with
        | (path', _, Some err) => Return path' cty_NilVal (Some err)
        | (path', vals, None) =>
            Return (drop_last_step path') (cty_TupleVal vals) None
        end.
Proof.
  intros Helems Hlen Hne. unfold tuple_elems in Helems.
  assert (Hlen0 : (length elemTypes =? 0) = false) by by destruct elemTypes.
  destruct (data (unwrapPointer val))
    as [| | | | | | | | | [els|] | | | t fields] eqn:Hdata; simplify_eq.
  - exists (encodeTuple_range_slice enc (unwrapPointer val) elemTypes 0
              (path ++ [cty_PathStep_nil]) (replicate (length elemTypes) cty_NilVal)).
    split; [|split; [apply encodeTuple_range_slice_path|]].
    + assert (Hsource : tuple_source (unwrapPointer val) = Value_Index (unwrapPointer val)).
      { unfold tuple_source. by rewrite Hdata. }
      rewrite Hsource.
      exact (encodeTuple_range_slice_spec enc (unwrapPointer val) path elemTypes
               0 cty_PathStep_nil [] eq_refl).
    + unfold encodeTuple, Value_IsValid, Value_Kind, Value_IsNil, Value_Len.
      rewrite Hdata. simpl. by rewrite Hlen, Nat.eqb_refl, Hlen0.
  - exists (encodeTuple_range_struct enc (unwrapPointer val) elemTypes 0
              (path ++ [cty_PathStep_nil]) (replicate (length elemTypes) cty_NilVal)).
    split; [|split; [apply encodeTuple_range_struct_path|]].
    + assert (Hsource : tuple_source (unwrapPointer val) = Value_Field (unwrapPointer val)).
      { unfold tuple_source. by rewrite Hdata. }
      rewrite Hsource.
      exact (encodeTuple_range_struct_spec enc (unwrapPointer val) path elemTypes
               0 cty_PathStep_nil [] eq_refl).
    + unfold encodeTuple, Value_IsValid, Value_Kind, Value_NumField.
      rewrite Hdata. simpl. by rewrite Hlen, Nat.eqb_refl, Hlen0.
Qed.

(** X12.  Against a tuple type, a native value that is not a [cty.Value]
    and unwraps to a non-nil slice, or to a struct, of as many elements or
    fields as the type has element types is encoded position by position:
    the element or field at position [i] against the element type at
    position [i], one index step [i] down, the fields of a struct in their
    declared order whatever their names.  The result is the tuple of
    these encodings, the empty tuple when there are none; the first
    position that fails ends the encoding with its error and no value. *)
Theorem encode_tuple_positions `{Libraries} (val : reflect_Value)
    (elems : list GoData) (elemTypes : list cty_Type) (path : cty_Path) :
  tuple_elems (unwrapPointer val) = Some elems ->
  Type_AssignableTo val valueType = false ->
  length elems = length elemTypes ->
  let element := tuple_element encode (unwrapPointer val) path in
  match ret_err (encode val (cty_Tuple elemTypes) path) with
  | None =>
      encode val (cty_Tuple elemTypes) path
        = Return path
            (match elemTypes with
             | [] => cty_EmptyTupleVal
             | _ => cty_TupleVal (imap (fun i ety => ret_val (element i ety)) elemTypes)
             end) None
      ∧ forall i ety, elemTypes !! i = Some ety -> ret_err (element i ety) = None
  | Some e =>
      ret_val (encode val (cty_Tuple elemTypes) path) = cty_NilVal
      ∧ exists i ety, elemTypes !! i = Some ety
          ∧ (forall j ety', j < i -> elemTypes !! j = Some ety' ->
               ret_err (element j ety') = None)
          ∧ ret_err (element i ety) = Some e
  end.
Proof.
  intros Helems Hty Hlen element.
  rewrite encode_unfold, Hty, andb_false_r.
  destruct (decide (elemTypes = [])) as [->|Hne].
  { unfold tuple_elems in Helems.
    unfold encodeTuple, Value_IsValid, Value_Kind, Value_IsNil, Value_Len,
      Value_NumField.
    destruct (data (unwrapPointer val))
      as [| | | | | | | | | [els|] | | | t fields]; simplify_eq; simpl;
      rewrite Hlen; simpl; (split; [done|]); intros i ety Hi; done. }
  destruct (encodeTuple_elems encode val elems elemTypes path Helems Hlen Hne)
    as ([[p' vals] [err|]] & Hspec & [s Hpath] & ->);
    simpl in Hspec, Hpath; subst p'; simpl.
  - split; [done|]. exact Hspec.
  - destruct Hspec as [-> Hall]. rewrite drop_last_step_app.
    split; [by destruct elemTypes|]. exact Hall.
Qed.

Lemma encode_tuple_positions_witness :
  let fields := [DString "x"; DUint W8 7] in
  let val := reflect_ValueOf (DPtr (Some (DStruct (Declared "Pair") fields))) in
  let elemTypes := [cty_String; cty_Number] in
  let element := tuple_element (@encode sample_Libraries) (unwrapPointer val) [] in
  tuple_elems (unwrapPointer val) = Some fields
  ∧ Type_AssignableTo val valueType = false
  ∧ length fields = length elemTypes
  ∧ match ret_err (@encode sample_Libraries val (cty_Tuple elemTypes) []) with
    | None =>
        @encode sample_Libraries val (cty_Tuple elemTypes) []
          = Return []
              (cty_TupleVal (imap (fun i ety => ret_val (element i ety)) elemTypes)) None
        ∧ forall i ety, elemTypes !! i = Some ety -> ret_err (element i ety) = None
    | Some e =>
        ret_val (@encode sample_Libraries val (cty_Tuple elemTypes) []) = cty_NilVal
        ∧ exists i ety, elemTypes !! i = Some ety
            ∧ (forall j ety', j < i -> elemTypes !! j = Some ety' ->
                 ret_err (element j ety') = None)
            ∧ ret_err (element i ety) = Some e
    end.
Proof.
  cbv zeta. split; [reflexivity|]. split; [reflexivity|]. split; [reflexivity|].
  apply (@encode_tuple_positions sample_Libraries
    (reflect_ValueOf (DPtr (Some (DStruct (Declared "Pair") [DString "x"; DUint W8 7]))))
    [DString "x"; DUint W8 7] [cty_String; cty_Number] []); reflexivity.
Defined.

(** X13.  For a native value that is not a [cty.Value] and unwraps to a
    struct of [n] fields, against a tuple type of [m] element types, the
    encoding returns the error that reports [n] and [m], at the path of
    the handler, if and only if [n] differs from [m]; when it does, the
    result is the same whatever the recursive encoder is: no field has
    been encoded. *)
Theorem encode_tuple_struct_arity `{Libraries} (val : reflect_Value)
    (t : StructType) (fields : list GoData) (elemTypes : list cty_Type)
    (path : cty_Path) :
  data (unwrapPointer val) = DStruct t fields ->
  Type_AssignableTo val valueType = false ->
  let arity_error :=
    NewErrorf path
      (wrong_number_of_struct_fields (length fields) (length elemTypes)) in
  (ret_err (encode val (cty_Tuple elemTypes) path) = Some arity_error
   ↔ length fields ≠ length elemTypes)
  ∧ (length fields ≠ length elemTypes ->
     forall enc, encodeTuple enc val elemTypes path
                 = Return path cty_NilVal (Some arity_error)).
Proof.
  intros Hdata Hty arity_error.
  assert (Hmismatch : length fields ≠ length elemTypes ->
    forall enc, encodeTuple enc val elemTypes path
                = Return path cty_NilVal (Some arity_error)).
  { intros Hne enc. unfold encodeTuple, Value_IsValid, Value_Kind, Value_NumField.
    rewrite Hdata. simpl. apply Nat.eqb_neq in Hne. by rewrite Hne. }
  split; [|exact Hmismatch].
  rewrite encode_unfold, Hty, andb_false_r.
  destruct (decide (length fields = length elemTypes)) as [Heq|Hne].
  2:{ rewrite (Hmismatch Hne). by split. }
  split; [|done]. intros Herr. exfalso.
  assert (Hbelow : Forall (errors_below encode) elemTypes).
  { apply Forall_forall. intros ety _. apply encode_below. }
  pose proof (fun e => encodeTuple_range_struct_below encode (unwrapPointer val)
    elemTypes 0 path cty_PathStep_nil (replicate (length elemTypes) cty_NilVal)
    e Hbelow) as Hloop.
  revert Herr.
  unfold encodeTuple, Value_IsValid, Value_Kind, Value_NumField.
  rewrite Hdata. simpl. rewrite Heq, Nat.eqb_refl. simpl.
  destruct (length elemTypes =? 0); [done|].
  destruct (encodeTuple_range_struct _ _ _ _ _ _) as [[p' vals] [e|]]; [|done].
  simpl. intros [= ->]. destruct (Hloop _ eq_refl) as [s Hs].
  apply prefix_length in Hs. rewrite length_app in Hs. simpl in Hs. lia.
Qed.

Lemma encode_tuple_struct_arity_witness :
  let fields := [DString "x"; DUint W8 7] in
  let val := reflect_ValueOf (DStruct (Declared "Pair") fields) in
  let elemTypes := [cty_String] in
  let arity_error := NewErrorf [] (wrong_number_of_struct_fields 2 1) in
  data (unwrapPointer val) = DStruct (Declared "Pair") fields
  ∧ Type_AssignableTo val valueType = false
  ∧ (ret_err (@encode sample_Libraries val (cty_Tuple elemTypes) []) = Some arity_error
     ↔ length fields ≠ length elemTypes)
  ∧ (length fields ≠ length elemTypes ->
     forall enc, @encodeTuple enc val elemTypes []
                 = Return [] cty_NilVal (Some arity_error)).
Proof.
  cbv zeta. split; [reflexivity|]. split; [reflexivity|].
  apply (@encode_tuple_struct_arity sample_Libraries
    (reflect_ValueOf (DStruct (Declared "Pair") [DString "x"; DUint W8 7]))
    (Declared "Pair") [DString "x"; DUint W8 7] [cty_String] []); reflexivity.
Defined.

(** * Properties of [concat] *)

Lemma append_elements {A} (s elems : slice A) :
  default [] (append s elems) = default [] s ++ default [] elems.
Proof.
  destruct elems as [[|e es]|]; simpl; by rewrite ?app_nil_r.
Qed.

Lemma append_nil {A} (s elems : slice A) :
  append s elems = None <-> s = None ∧ default [] elems = [].
Proof.
  destruct elems as [[|e es]|]; simpl; split; try by intros [? ?].
  all: try by intros ->. all: by intros ?.
Qed.

Lemma foldl_append_elements {A} (arrays : list (slice A)) (res : slice A) :
  default [] (foldl append res arrays)
  = default [] res ++ (arrays ≫= default []).
Proof.
  revert res. induction arrays as [|array arrays IH]; intros res; simpl.
  - by rewrite app_nil_r.
  - by rewrite IH, append_elements, (assoc_L (++)).
Qed.

Lemma foldl_append_nil {A} (arrays : list (slice A)) (res : slice A) :
  foldl append res arrays = None
  <-> res = None ∧ Forall (fun array => default [] array = []) arrays.
Proof.
  revert res. induction arrays as [|array arrays IH]; intros res; simpl.
  - split; [by intros ->|by intros [-> _]].
  - rewrite IH, append_nil, Forall_cons. tauto.
Qed.

Lemma concat_nil_iff {A} (arrays : list (slice A)) :
  concat arrays = None <-> Forall (fun array => default [] array = []) arrays.
Proof. unfold concat. rewrite foldl_append_nil. tauto. Qed.

Lemma concat_some_nonempty {A} (arrays : list (slice A)) (elems : list A) :
  concat arrays = Some elems -> elems ≠ [].
Proof.
  unfold concat. intros Hres ->.
  assert (Hnil : foldl append None arrays = None); [|congruence].
  apply foldl_append_nil. split; [done|].
  pose proof (foldl_append_elements arrays None) as Hel.
  rewrite Hres in Hel. simpl in Hel.
  apply Forall_forall. intros array Hin.
  destruct (default [] array) as [|e es] eqn:Harray; [done|].
  apply list_elem_of_split in Hin as (l1 & l2 & ->).
  rewrite bind_app in Hel. simpl in Hel. rewrite Harray in Hel.
  symmetry in Hel. apply app_eq_nil in Hel as [_ Hel]. done.
Qed.

(** X14.  [concat] returns the elements of its arguments, in the order of
    the arguments and within each in its own order.  What it returns is
    the nil slice exactly when no argument has an element: for no
    argument at all, and also when every argument is an empty slice that
    is not nil. *)
Theorem concat_elements {A} (arrays : list (slice A)) :
  default [] (concat arrays) = arrays ≫= default []
  ∧ (concat arrays = None
     <-> Forall (fun array => default [] array = []) arrays)
  ∧ (forall elems, concat arrays = Some elems -> elems ≠ []).
Proof.
  split; [|split].
  - unfold concat. by rewrite foldl_append_elements.
  - apply concat_nil_iff.
  - apply concat_some_nonempty.
Qed.

(** X15.  What [concat] returns for arguments without elements is nil, so
    against a list type it encodes to the null list and not to the empty
    list, although each of the arguments, when it is not nil, encodes to
    the empty list.  With an element in some argument the encoding is not
    null: it is a list or an error. *)
Theorem Encode_concat_null `{Libraries} (arrays : list (slice GoData))
    (ety : cty_Type) :
  (Forall (fun array => default [] array = []) arrays ->
   Encode (DSlice (concat arrays)) (cty_List ety)
   = (cty_NullVal (cty_List ety), None))
  ∧ (forall array, array ∈ arrays -> array ≠ None ->
     default [] array = [] ->
     Encode (DSlice array) (cty_List ety) = (cty_ListValEmpty ety, None))
  ∧ (¬ Forall (fun array => default [] array = []) arrays ->
     (Encode (DSlice (concat arrays)) (cty_List ety)).1
     ≠ cty_NullVal (cty_List ety)).
Proof.
  split; [|split].
  - intros Hall. apply concat_nil_iff in Hall. rewrite Hall. reflexivity.
  - by intros [[|e es]|] _ Hsome Hempty.
  - intros Hsome.
    destruct (concat arrays) as [elems|] eqn:Hres.
    2:{ by apply concat_nil_iff in Hres. }
    assert (Hne : elems ≠ []) by by eapply concat_some_nonempty.
    unfold Encode. rewrite encode_unfold. simpl.
    unfold encodeList. destruct elems as [|e es]; [done|]. simpl.
    repeat case_match; by simplify_eq.
Qed.

(** * Properties of [token] *)

(** ** Arithmetic of [int] *)

Section Int.
Context `{Platform}.

Lemma intSize_pow : (2 ^ intSize = 2 * 2 ^ (intSize - 1))%Z.
Proof.
  pose proof intSize_pos.
  rewrite <-Z.pow_succ_r by lia. f_equal. lia.
Qed.

Lemma wrap_int_id (z : Z) : is_int z -> wrap_int z = z.
Proof.
  unfold is_int, wrap_int. rewrite intSize_pow. intros Hz.
  rewrite Z.mod_small; lia.
Qed.

Lemma wrap_int_is_int (z : Z) : is_int (wrap_int z).
Proof.
  unfold is_int, wrap_int. rewrite intSize_pow.
  assert (0 < 2 ^ (intSize - 1))%Z.
  { apply Z.pow_pos_nonneg; [lia|]. pose proof intSize_pos. lia. }
  pose proof (Z.mod_pos_bound (z + 2 ^ (intSize - 1)) (2 * 2 ^ (intSize - 1))).
  lia.
Qed.

Lemma wrap_int_add_l (a b : Z) : wrap_int (wrap_int a + b) = wrap_int (a + b).
Proof.
  unfold wrap_int. f_equal.
  replace ((a + 2 ^ (intSize - 1)) mod 2 ^ intSize - 2 ^ (intSize - 1) + b
           + 2 ^ (intSize - 1))%Z
    with ((a + 2 ^ (intSize - 1)) mod 2 ^ intSize + b)%Z by lia.
  rewrite Zplus_mod_idemp_l. f_equal. lia.
Qed.

Lemma wrap_int_add_r (a b : Z) : wrap_int (a + wrap_int b) = wrap_int (a + b).
Proof. by rewrite (Z.add_comm a), wrap_int_add_l, Z.add_comm. Qed.

End Int.

(** ** The search *)

(** In a sorted list the elements are ordered as their indices are. *)
Lemma StronglySorted_lookup {A} (R : relation A) (l : list A) (i j : nat) (x y : A) :
  StronglySorted R l -> l !! i = Some x -> l !! j = Some y -> i < j -> R x y.
Proof.
  intros Hsorted. revert i j.
  induction Hsorted as [|z l Hsorted IH Hall]; intros i j Hi Hj Hij; [done|].
  destruct j as [|j]; [lia|]. simpl in Hj.
  destruct i as [|i]; simpl in Hi.
  - simplify_eq. eapply Forall_forall in Hall; [done|].
    by eapply list_elem_of_lookup_2.
  - eapply IH; [done|done|lia].
Qed.

Lemma Sorted_lt_lookup (l : list Z) (i j : nat) (x y : Z) :
  Sorted Z.lt l -> l !! i = Some x -> l !! j = Some y -> i < j -> (x < y)%Z.
Proof.
  intros Hsorted. apply StronglySorted_lookup.
  apply Sorted_StronglySorted; [|done]. intros ???. lia.
Qed.

Lemma Sorted_le_lookup (l : list Z) (i j : nat) (x y : Z) :
  Sorted Z.le l -> l !! i = Some x -> l !! j = Some y -> i ≤ j -> (x <= y)%Z.
Proof.
  intros Hsorted Hi Hj Hij. destruct (decide (i = j)) as [->|].
  { simplify_eq. lia. }
  eapply (StronglySorted_lookup Z.le l i j); [|done|done|lia].
  apply Sorted_StronglySorted; [|done]. intros ???. lia.
Qed.

Lemma Sorted_lt_le (l : list Z) : Sorted Z.lt l -> Sorted Z.le l.
Proof.
  induction 1 as [|x l Hsorted IH Hhd]; constructor; [done|].
  destruct Hhd; constructor. lia.
Qed.

Lemma sort_Search_loop_unfold (rounds : nat) (f : nat -> option bool) (i j : nat) :
  sort_Search_loop rounds f i j =
  if i <? j then
    match rounds with
    | O => None
    | S rounds =>
        b ← f ((i + j) / 2);
        if negb b then sort_Search_loop rounds f ((i + j) / 2 + 1) j
        else sort_Search_loop rounds f i ((i + j) / 2)
    end
  else Some i.
Proof. by destruct rounds. Qed.

(** The loop of [sort.Search] ends within [j - i] rounds, between [i] and
    [j]; where the predicate, false below [i] and true from [j] on, is
    monotone, it ends at the least index at which the predicate holds. *)
Lemma sort_Search_loop_spec (n : nat) (f : nat -> option bool) (P : nat -> bool) :
  (forall k, k < n -> f k = Some (P k)) ->
  forall rounds i j, i ≤ j -> j ≤ n -> j - i ≤ rounds ->
  exists r, sort_Search_loop rounds f i j = Some r
    ∧ i ≤ r ≤ j
    ∧ ((forall k k', k ≤ k' -> k' < n -> P k = true -> P k' = true) ->
       (forall k, k < i -> P k = false) ->
       (forall k, j ≤ k -> k < n -> P k = true) ->
       (forall k, k < r -> P k = false)
       ∧ (forall k, r ≤ k -> k < n -> P k = true)).
Proof.
  intros Hf. induction rounds as [|rounds IH]; intros i j Hij Hjn Hrounds.
  - assert (i = j) as -> by lia. exists j. rewrite sort_Search_loop_unfold.
    rewrite (proj2 (Nat.ltb_ge j j)) by lia. split; [done|]. split; [lia|]. auto.
  - rewrite sort_Search_loop_unfold. destruct (i <? j) eqn:Hlt.
    2:{ apply Nat.ltb_ge in Hlt. assert (i = j) as -> by lia.
        exists j. split; [done|]. split; [lia|]. auto. }
    apply Nat.ltb_lt in Hlt.
    assert (Hh : i ≤ (i + j) / 2 ∧ (i + j) / 2 < j).
    { pose proof (Nat.div_mod (i + j) 2). pose proof (Nat.mod_upper_bound (i + j) 2).
      lia. }
    rewrite Hf by lia. cbn [mbind option_bind].
    destruct (P ((i + j) / 2)) eqn:HP; cbn [negb].
    + destruct (IH i ((i + j) / 2)) as (r & -> & Hr & Hspec); [lia..|].
      exists r. split; [done|]. split; [lia|]. intros Hmono Hbelow Habove.
      apply Hspec; [done|done|]. intros k Hk Hkn.
      apply (Hmono ((i + j) / 2)); [lia|done|done].
    + destruct (IH ((i + j) / 2 + 1) j) as (r & -> & Hr & Hspec); [lia..|].
      exists r. split; [done|]. split; [lia|]. intros Hmono Hbelow Habove.
      apply Hspec; [done| |done]. intros k Hk.
      destruct (P k) eqn:HPk; [|done].
      rewrite (Hmono k ((i + j) / 2)) in HP; [done|lia|lia|done].
Qed.

(** [searchInts] does not panic and returns an index of the slice or -1;
    in a sorted slice, the elements up to this index are those that are
    not greater than [x]. *)
Lemma searchInts_result (a : list Z) (x : Z) :
  exists r, searchInts a x = Some r
    ∧ (-1 <= r < Z.of_nat (length a))%Z
    ∧ (Sorted Z.le a ->
       forall k y, a !! k = Some y -> (y <= x)%Z <-> (Z.of_nat k <= r)%Z).
Proof.
  unfold searchInts, sort_Search.
  set (P := fun k => match a !! k with
                     | Some y => bool_decide (y > x)%Z
                     | None => false
                     end).
  destruct (sort_Search_loop_spec (length a) (fun i => y ← a !! i; Some (bool_decide (y > x)%Z))
              P) with (rounds := length a) (i := 0) (j := length a)
    as (r & -> & Hr & Hspec); [|lia..|].
  { intros k Hk. unfold P.
    destruct (lookup_lt_is_Some_2 a k Hk) as [y ->]. done. }
  simpl. eexists. split; [done|]. split; [lia|].
  intros Hsorted. destruct Hspec as [Hbelow Habove].
  - intros k k' Hkk' Hk'. unfold P.
    destruct (lookup_lt_is_Some_2 a k' Hk') as [y' Hy'].
    destruct (lookup_lt_is_Some_2 a k ltac:(lia)) as [y Hy].
    rewrite Hy, Hy'. rewrite !bool_decide_eq_true.
    pose proof (Sorted_le_lookup a k k' y y' Hsorted Hy Hy' Hkk'). lia.
  - intros k Hk. lia.
  - intros k Hk Hk'. lia.
  - intros k y Hy. pose proof (lookup_lt_Some _ _ _ Hy) as Hk.
    destruct (decide (k < r)) as [Hlt|Hge].
    + specialize (Hbelow k Hlt). unfold P in Hbelow. rewrite Hy in Hbelow.
      apply bool_decide_eq_false in Hbelow. lia.
    + specialize (Habove k ltac:(lia) Hk). unfold P in Habove. rewrite Hy in Habove.
      apply bool_decide_eq_true in Habove. lia.
Qed.

(** The index is determined by what it separates. *)
Lemma searchInts_unique (a : list Z) (x r : Z) :
  Sorted Z.le a ->
  (-1 <= r < Z.of_nat (length a))%Z ->
  (forall k y, a !! k = Some y -> (y <= x)%Z <-> (Z.of_nat k <= r)%Z) ->
  searchInts a x = Some r.
Proof.
  intros Hsorted Hr Hsep.
  destruct (searchInts_result a x) as (r' & -> & Hr' & Hsep').
  specialize (Hsep' Hsorted). f_equal.
  destruct (Z.lt_trichotomy r r') as [Hlt|[->|Hlt]]; [|done|].
  - destruct (lookup_lt_is_Some_2 a (Z.to_nat r') ltac:(lia)) as [y Hy].
    pose proof (Hsep _ _ Hy). pose proof (Hsep' _ _ Hy). lia.
  - destruct (lookup_lt_is_Some_2 a (Z.to_nat r) ltac:(lia)) as [y Hy].
    pose proof (Hsep _ _ Hy). pose proof (Hsep' _ _ Hy). lia.
Qed.

(** X16.  In a slice sorted in increasing order, [searchInts] returns,
    without a panic, the index of the last element that is not greater
    than [x]: the elements up to this index are those not greater than
    [x].  It returns -1 exactly when every element is greater than [x],
    as in the empty slice. *)
Theorem searchInts_sorted (a : list Z) (x : Z) :
  Sorted Z.le a ->
  exists r, searchInts a x = Some r
    ∧ (-1 <= r < Z.of_nat (length a))%Z
    ∧ (forall k y, a !! k = Some y -> (y <= x)%Z <-> (Z.of_nat k <= r)%Z)
    ∧ (r = (-1)%Z <-> forall y, y ∈ a -> (x < y)%Z).
Proof.
  intros Hsorted. destruct (searchInts_result a x) as (r & Hres & Hr & Hsep).
  specialize (Hsep Hsorted). exists r. split; [done|]. split; [done|].
  split; [done|]. split.
  - intros -> y Hy. apply list_elem_of_lookup_1 in Hy as [k Hk].
    pose proof (Hsep _ _ Hk). lia.
  - intros Hall. destruct (decide (r = (-1)%Z)) as [|Hne]; [done|].
    destruct (lookup_lt_is_Some_2 a (Z.to_nat r) ltac:(lia)) as [y Hy].
    pose proof (Hall y (list_elem_of_lookup_2 _ _ _ Hy)).
    pose proof (Hsep _ _ Hy). lia.
Qed.

Lemma searchInts_sorted_witness :
  Sorted Z.le [0; 10; 25]%Z
  ∧ exists r, searchInts [0; 10; 25]%Z 12%Z = Some r
      ∧ (-1 <= r < Z.of_nat (length [0; 10; 25]%Z))%Z
      ∧ (forall k y, [0; 10; 25]%Z !! k = Some y -> (y <= 12)%Z <-> (Z.of_nat k <= r)%Z)
      ∧ (r = (-1)%Z <-> forall y, y ∈ [0; 10; 25]%Z -> (12 < y)%Z).
Proof.
  assert (Hsorted : Sorted Z.le [0; 10; 25]%Z).
  { repeat constructor; lia. }
  split; [exact Hsorted|]. exact (searchInts_sorted [0; 10; 25]%Z 12%Z Hsorted).
Defined.

(** ** The table of lines *)

Lemma File_AddLine_last (h : Files) (l : positive) (fl : token_File) (offset : Z) :
  h !! l = Some fl ->
  File_AddLine h (Some l) offset =
  Some (match last (lines fl) with
        | Some y =>
            if bool_decide (y < offset)%Z
            then <[l := mkFile (filename fl) (lines fl ++ [offset])]> h
            else h
        | None => <[l := mkFile (filename fl) (lines fl ++ [offset])]> h
        end).
Proof.
  intros Hl. unfold File_AddLine. rewrite Hl. cbn [mbind option_bind].
  rewrite last_lookup.
  destruct (lines fl) as [|x xs] eqn:Hlines; [done|].
  replace (length (x :: xs) - 1) with (Init.Nat.pred (length (x :: xs))) by (simpl; lia).
  destruct (lookup_lt_is_Some_2 (x :: xs) (Init.Nat.pred (length (x :: xs)))
              ltac:(simpl; lia)) as [y Hy].
  rewrite Hy. simpl. by destruct (bool_decide (y < offset)%Z).
Qed.

(** In a strictly increasing table the last line start is the greatest. *)
Lemma Sorted_lt_last (a : list Z) (y : Z) :
  Sorted Z.lt a -> last a = Some y -> Forall (fun x => (x <= y)%Z) a.
Proof.
  intros Hsorted Hlast. apply Forall_lookup. intros i x Hi.
  rewrite last_lookup in Hlast.
  pose proof (lookup_lt_Some _ _ _ Hi).
  destruct (decide (i = Init.Nat.pred (length a))) as [->|Hne].
  { simplify_eq. lia. }
  pose proof (Sorted_lt_lookup a i _ x y Hsorted Hi Hlast ltac:(lia)). lia.
Qed.

Lemma Sorted_lt_snoc (a : list Z) (offset : Z) :
  Sorted Z.lt a -> Forall (fun x => (x < offset)%Z) a -> Sorted Z.lt (a ++ [offset]).
Proof.
  induction 1 as [|x a Hsorted IH Hhd]; intros Hall; simpl.
  - repeat constructor.
  - apply Forall_cons in Hall as [Hx Hall]. constructor; [by apply IH|].
    destruct Hhd; simpl; by constructor.
Qed.

(** What [AddLine] does to a file with a strictly increasing table. *)
Lemma File_AddLine_result (h : Files) (l : positive) (fl : token_File) (offset : Z) :
  h !! l = Some fl ->
  Sorted Z.lt (lines fl) ->
  (Forall (fun y => (y < offset)%Z) (lines fl)
   ∧ File_AddLine h (Some l) offset
     = Some (<[l := mkFile (filename fl) (lines fl ++ [offset])]> h)
   ∧ Sorted Z.lt (lines fl ++ [offset]))
  ∨ (¬ Forall (fun y => (y < offset)%Z) (lines fl)
     ∧ File_AddLine h (Some l) offset = Some h).
Proof.
  intros Hl Hsorted. rewrite (File_AddLine_last h l fl offset Hl).
  destruct (last (lines fl)) as [y|] eqn:Hlast.
  - case_bool_decide as Hy.
    + left. assert (Hall : Forall (fun y => (y < offset)%Z) (lines fl)).
      { eapply Forall_impl; [by apply Sorted_lt_last|]. simpl. intros; lia. }
      split; [done|]. split; [done|]. by apply Sorted_lt_snoc.
    + right. split; [|done]. intros Hall.
      apply last_Some_elem_of in Hlast.
      eapply Forall_forall in Hall; [|done]. simpl in Hall. lia.
  - apply last_None in Hlast. rewrite Hlast. left.
    split; [constructor|]. split; [done|]. repeat constructor.
Qed.

(** X17.  On a file whose table of line starts increases strictly,
    [AddLine] records the offset, at the end of the table, exactly when
    it is greater than every line start recorded so far; otherwise the
    call changes nothing.  Either way the table still increases strictly,
    the line starts recorded before are kept at their positions, the name
    is kept, and no other file is touched. *)
Theorem File_AddLine_increasing (h : Files) (l : positive) (fl : token_File)
    (offset : Z) :
  h !! l = Some fl ->
  Sorted Z.lt (lines fl) ->
  exists h' fl',
    File_AddLine h (Some l) offset = Some h'
    ∧ h' !! l = Some fl'
    ∧ (forall l', l' ≠ l -> h' !! l' = h !! l')
    ∧ filename fl' = filename fl
    ∧ Sorted Z.lt (lines fl')
    ∧ lines fl `prefix_of` lines fl'
    ∧ (Forall (fun y => (y < offset)%Z) (lines fl) ->
       lines fl' = lines fl ++ [offset])
    ∧ (¬ Forall (fun y => (y < offset)%Z) (lines fl) -> h' = h).
Proof.
  intros Hl Hsorted.
  destruct (File_AddLine_result h l fl offset Hl Hsorted)
    as [(Hall & -> & Hsorted')|(Hnot & ->)].
  - eexists _, _. split; [done|]. split; [by rewrite lookup_insert_eq|].
    split; [by intros l' Hl'; rewrite lookup_insert_ne|].
    split; [done|]. split; [done|]. split; [by apply prefix_app_r|].
    split; [done|]. intros Hnot. done.
  - exists h, fl. split; [done|]. split; [done|]. split; [done|].
    split; [done|]. split; [done|]. split; [done|]. split; [|done].
    intros Hall. done.
Qed.

Lemma File_AddLine_increasing_witness :
  let h : Files := {[ 1%positive := mkFile "a.river" [0; 10]%Z ]} in
  let fl := mkFile "a.river" [0; 10]%Z in
  h !! 1%positive = Some fl
  ∧ Sorted Z.lt (lines fl)
  ∧ exists h' fl',
      File_AddLine h (Some 1%positive) 25 = Some h'
      ∧ h' !! 1%positive = Some fl'
      ∧ (forall l', l' ≠ 1%positive -> h' !! l' = h !! l')
      ∧ filename fl' = filename fl
      ∧ Sorted Z.lt (lines fl')
      ∧ lines fl `prefix_of` lines fl'
      ∧ (Forall (fun y => (y < 25)%Z) (lines fl) ->
         lines fl' = lines fl ++ [25%Z])
      ∧ (¬ Forall (fun y => (y < 25)%Z) (lines fl) -> h' = h).
Proof.
  cbv zeta.
  assert (Hl : ({[ 1%positive := mkFile "a.river" [0; 10]%Z ]} : Files) !! 1%positive
               = Some (mkFile "a.river" [0; 10]%Z)) by reflexivity.
  assert (Hsorted : Sorted Z.lt (lines (mkFile "a.river" [0; 10]%Z))).
  { simpl. repeat constructor. }
  split; [exact Hl|]. split; [exact Hsorted|].
  exact (File_AddLine_increasing _ 1%positive _ 25%Z Hl Hsorted).
Defined.

Lemma File_AddLines_cons (h : Files) (f : File_ptr) (offset : Z) (offsets : list Z) :
  File_AddLines h f (offset :: offsets)
  = h' ← File_AddLine h f offset; File_AddLines h' f offsets.
Proof.
  unfold File_AddLines. simpl.
  destruct (File_AddLine h f offset) as [h'|]; [done|]. simpl.
  induction offsets as [|o os IH]; [done|]. simpl. exact IH.
Qed.

(** Any number of [AddLine] calls on a file with a strictly increasing
    table. *)
Lemma File_AddLines_result (offsets : list Z) :
  forall (h : Files) (l : positive) (fl : token_File),
  h !! l = Some fl ->
  Sorted Z.lt (lines fl) ->
  exists h' fl',
    File_AddLines h (Some l) offsets = Some h'
    ∧ h' !! l = Some fl'
    ∧ (forall l', l' ≠ l -> h' !! l' = h !! l')
    ∧ filename fl' = filename fl
    ∧ Sorted Z.lt (lines fl')
    ∧ lines fl `prefix_of` lines fl'
    ∧ (forall x, x ∈ lines fl' -> x ∈ lines fl ∨ x ∈ offsets).
Proof.
  induction offsets as [|offset offsets IH]; intros h l fl Hl Hsorted.
  - exists h, fl. repeat split; try done. intros x Hx. by left.
  - rewrite File_AddLines_cons.
    destruct (File_AddLine_result h l fl offset Hl Hsorted)
      as [(Hall & -> & Hsorted')|(Hnot & ->)]; cbn [mbind option_bind].
    + destruct (IH (<[l := mkFile (filename fl) (lines fl ++ [offset])]> h) l
                  (mkFile (filename fl) (lines fl ++ [offset])))
        as (h' & fl' & -> & Hl' & Hother & Hname & Hsorted'' & Hprefix & Hfrom);
        [by rewrite lookup_insert_eq|done|].
      exists h', fl'. split; [done|]. split; [done|].
      split; [by intros l' Hne; rewrite Hother, lookup_insert_ne|].
      split; [done|]. split; [done|].
      split; [by etrans; [apply prefix_app_r|exact Hprefix]|].
      intros x Hx. destruct (Hfrom x Hx) as [Hin|Hin].
      * simpl in Hin. apply elem_of_app in Hin as [Hin|Hin]; [by left|].
        right. apply list_elem_of_singleton in Hin as ->. apply list_elem_of_here.
      * right. by apply list_elem_of_further.
    + destruct (IH h l fl Hl Hsorted)
        as (h' & fl' & -> & Hl' & Hother & Hname & Hsorted'' & Hprefix & Hfrom).
      exists h', fl'. repeat split; try done.
      intros x Hx. destruct (Hfrom x Hx) as [Hin|Hin]; [by left|].
      right. by apply list_elem_of_further.
Qed.

(** X18.  A file made by [NewFile] is a new one: the files there were are
    as they were.  Whatever offsets [AddLine] is then called with, in
    whatever order, no call panics and the table of line starts begins
    with 0, increases strictly and holds, beside 0, only offsets that were
    given; the name stays the one the file was made with. *)
Theorem NewFile_AddLines_line_table (h : Files) (name : string) (offsets : list Z) :
  let '(f, h1) := NewFile name h in
  (forall l fl, h !! l = Some fl -> h1 !! l = Some fl)
  ∧ File_Name h1 f = Some name
  ∧ exists h2 fl,
      File_AddLines h1 f offsets = Some h2
      ∧ File_deref h2 f = Some fl
      ∧ (forall l fl', h !! l = Some fl' -> h2 !! l = Some fl')
      ∧ filename fl = name
      ∧ line_table (lines fl)
      ∧ (forall x, x ∈ lines fl -> x = 0%Z ∨ x ∈ offsets).
Proof.
  unfold NewFile. set (l := fresh (dom h)).
  assert (Hfresh : h !! l = None).
  { apply not_elem_of_dom. apply is_fresh. }
  assert (Hne : forall l' fl', h !! l' = Some fl' -> l' ≠ l) by (intros l' fl' ? ->; congruence).
  split.
  { intros l' fl' Hl'. pose proof (Hne l' fl' Hl'). by rewrite lookup_insert_ne. }
  split; [by unfold File_Name, File_deref; simpl; rewrite lookup_insert_eq|].
  destruct (File_AddLines_result offsets (<[l := mkFile name [0%Z]]> h) l
              (mkFile name [0%Z]))
    as (h2 & fl & -> & Hl & Hother & Hname & Hsorted & Hprefix & Hfrom);
    [by rewrite lookup_insert_eq|repeat constructor|].
  exists h2, fl. split; [done|]. split; [done|].
  split.
  { intros l' fl' Hl'. pose proof (Hne l' fl' Hl').
    by rewrite Hother, lookup_insert_ne. }
  split; [done|]. split.
  - split; [|done]. destruct Hprefix as [rest Hrest]. simpl in Hrest. by rewrite Hrest.
  - intros x Hx. destruct (Hfrom x Hx) as [Hin|Hin]; [|by right].
    left. simpl in Hin. by apply list_elem_of_singleton in Hin.
Qed.

(** ** Positions *)

Section Positions.
Context `{Platform}.

(** [PositionFor] on a file that is there, for a position other than
    [NoPos]: it does not panic, and line and column come from the index
    that [searchInts] returns. *)
Lemma File_PositionFor_result (h : Files) (f : File_ptr) (fl : token_File)
    (p : token_Pos) :
  File_deref h f = Some fl ->
  p ≠ token_NoPos ->
  exists r, searchInts (lines fl) (off p) = Some r
    ∧ (-1 <= r < Z.of_nat (length (lines fl)))%Z
    ∧ ((r = (-1)%Z
        ∧ File_PositionFor h f p = Some (mkPosition (filename fl) (off p) 0 0))
       ∨ ((0 <= r)%Z
          ∧ exists start, lines fl !! Z.to_nat r = Some start
              ∧ File_PositionFor h f p
                = Some (mkPosition (filename fl) (off p) (r + 1)
                          (wrap_int (off p - start + 1))))).
Proof.
  intros Hfl Hp. unfold File_PositionFor.
  rewrite bool_decide_eq_false_2 by done. rewrite Hfl. cbn [mbind option_bind].
  destruct (searchInts_result (lines fl) (off p)) as (r & Hr & Hrange & _).
  exists r. split; [done|]. split; [done|]. rewrite Hr. cbn [mbind option_bind].
  destruct (0 <=? r)%Z eqn:Hsign.
  - apply Z.leb_le in Hsign. right. split; [done|].
    destruct (lookup_lt_is_Some_2 (lines fl) (Z.to_nat r) ltac:(lia)) as [start Hstart].
    exists start. split; [done|]. rewrite Hstart. simpl.
    by rewrite wrap_int_add_l.
  - apply Z.leb_gt in Hsign. left. split; [lia|]. done.
Qed.

(** In a table of lines, the index found for an offset that is not
    negative is that of the line the offset is in. *)
Lemma line_table_search (a : list Z) (x r : Z) :
  line_table a ->
  searchInts a x = Some r ->
  ((0 <= r)%Z <-> (0 <= x)%Z)
  ∧ forall start, a !! Z.to_nat r = Some start -> (0 <= r)%Z ->
      (0 <= start <= x)%Z
      ∧ forall next, a !! (Z.to_nat r + 1) = Some next -> (x < next)%Z.
Proof.
  intros [Hzero Hsorted] Hr.
  destruct (searchInts_result a x) as (r' & Hr' & Hrange & Hsep).
  rewrite Hr in Hr'. simplify_eq.
  specialize (Hsep (Sorted_lt_le _ Hsorted)).
  split.
  - pose proof (Hsep 0 0%Z Hzero). lia.
  - intros start Hstart Hpos. split.
    + pose proof (Hsep _ _ Hstart).
      pose proof (Sorted_le_lookup a 0 (Z.to_nat r') 0%Z start
                    (Sorted_lt_le _ Hsorted) Hzero Hstart ltac:(lia)).
      lia.
    + intros next Hnext. pose proof (Hsep _ _ Hnext). lia.
Qed.

(** Line and column of a position in a file with a table of lines. *)
Lemma File_PositionFor_line_table (h : Files) (f : File_ptr) (fl : token_File)
    (p : token_Pos) :
  File_deref h f = Some fl ->
  line_table (lines fl) ->
  p ≠ token_NoPos ->
  ((off p < 0)%Z
   ∧ File_PositionFor h f p = Some (mkPosition (filename fl) (off p) 0 0))
  ∨ ((0 <= off p)%Z
     ∧ exists (i : nat) (start : Z),
         lines fl !! i = Some start
         ∧ (0 <= start <= off p)%Z
         ∧ (forall next, lines fl !! (i + 1) = Some next -> (off p < next)%Z)
         ∧ File_PositionFor h f p
           = Some (mkPosition (filename fl) (off p) (Z.of_nat i + 1)
                     (wrap_int (off p - start + 1)))).
Proof.
  intros Hfl Htable Hp.
  destruct (File_PositionFor_result h f fl p Hfl Hp)
    as (r & Hr & Hrange & [[-> Hpos]|(Hsign & start & Hstart & Hpos)]);
    destruct (line_table_search _ _ _ Htable Hr) as [Hiff Hline].
  - left. split; [lia|done].
  - right. split; [lia|]. exists (Z.to_nat r), start.
    destruct (Hline start Hstart Hsign) as [Hbounds Hnext].
    split; [done|]. split; [done|]. split; [done|].
    by rewrite Z2Nat.id.
Qed.

End Positions.

(** X19.  In a file whose table of line starts begins with 0 and
    increases strictly, a position other than [NoPos] with an offset that
    is not negative gets, without a panic, the name of the file, its
    offset, and the line and column of the offset, both counted from 1:
    the line is the last one that starts at or before the offset, so the
    next line, if there is one, starts after it, and the start of the line
    plus the column less one is the offset.  The position is valid. *)
Theorem File_PositionFor_line_column `{Platform} (h : Files) (f : File_ptr)
    (fl : token_File) (p : token_Pos) :
  File_deref h f = Some fl ->
  line_table (lines fl) ->
  p ≠ token_NoPos ->
  (0 <= off p)%Z ->
  is_int (off p + 1) ->
  exists pos start,
    File_PositionFor h f p = Some pos
    ∧ Filename pos = filename fl
    ∧ Offset pos = off p
    ∧ (1 <= Line pos <= Z.of_nat (length (lines fl)))%Z
    ∧ (1 <= Column pos)%Z
    ∧ lines fl !! Z.to_nat (Line pos - 1) = Some start
    ∧ (start + (Column pos - 1) = off p)%Z
    ∧ (forall next, lines fl !! Z.to_nat (Line pos) = Some next -> (off p < next)%Z)
    ∧ Position_IsValid pos = true.
Proof.
  intros Hfl Htable Hp Hoff Hint.
  destruct (File_PositionFor_line_table h f fl p Hfl Htable Hp)
    as [[Hneg _]|(_ & i & start & Hstart & Hbounds & Hnext & ->)]; [lia|].
  assert (Hcolumn : wrap_int (off p - start + 1) = (off p - start + 1)%Z).
  { apply wrap_int_id. unfold is_int in *. lia. }
  pose proof (lookup_lt_Some _ _ _ Hstart) as Hi.
  eexists _, start. split; [done|]. simpl. rewrite Hcolumn.
  split; [done|]. split; [done|]. split; [lia|]. split; [lia|].
  split; [by replace (Z.to_nat (Z.of_nat i + 1 - 1)) with i by lia|].
  split; [lia|]. split.
  - intros next. replace (Z.to_nat (Z.of_nat i + 1)) with (i + 1) by lia. apply Hnext.
  - unfold Position_IsValid. simpl. apply bool_decide_eq_true. lia.
Qed.

Lemma File_PositionFor_line_column_witness :
  let fl := mkFile "a.river" [0; 10; 25]%Z in
  let h : Files := {[ 1%positive := fl ]} in
  let f : File_ptr := Some 1%positive in
  let p := mkPos f 12 in
  File_deref h f = Some fl
  ∧ line_table (lines fl)
  ∧ p ≠ token_NoPos
  ∧ (0 <= off p)%Z
  ∧ is_int (off p + 1)
  ∧ exists pos start,
      File_PositionFor h f p = Some pos
      ∧ Filename pos = filename fl
      ∧ Offset pos = off p
      ∧ (1 <= Line pos <= Z.of_nat (length (lines fl)))%Z
      ∧ (1 <= Column pos)%Z
      ∧ lines fl !! Z.to_nat (Line pos - 1) = Some start
      ∧ (start + (Column pos - 1) = off p)%Z
      ∧ (forall next, lines fl !! Z.to_nat (Line pos) = Some next -> (off p < next)%Z)
      ∧ Position_IsValid pos = true.
Proof.
  cbv zeta.
  assert (Hfl : File_deref ({[ 1%positive := mkFile "a.river" [0; 10; 25]%Z ]} : Files)
                  (Some 1%positive) = Some (mkFile "a.river" [0; 10; 25]%Z))
    by reflexivity.
  assert (Htable : line_table (lines (mkFile "a.river" [0; 10; 25]%Z))).
  { split; [reflexivity|]. simpl. repeat constructor. }
  assert (Hp : mkPos (Some 1%positive) 12 ≠ token_NoPos) by discriminate.
  assert (Hoff : (0 <= off (mkPos (Some 1%positive) 12))%Z) by (simpl; lia).
  assert (Hint : is_int (off (mkPos (Some 1%positive) 12) + 1)).
  { unfold is_int. simpl. lia. }
  split; [exact Hfl|]. split; [exact Htable|]. split; [exact Hp|].
  split; [exact Hoff|]. split; [exact Hint|].
  exact (File_PositionFor_line_column _ _ _ _ Hfl Htable Hp Hoff Hint).
Defined.

(** X20.  In a file whose table of line starts begins with 0 and
    increases strictly, [PositionFor] does not panic, and the position it
    gives is valid exactly when it was asked for a position other than
    [NoPos] whose offset is not negative.  For a negative offset, which
    [Add] can reach, it gives the name and the offset with line and
    column 0; for [NoPos] it gives the zero position, without a name. *)
Theorem File_PositionFor_valid_iff `{Platform} (h : Files) (f : File_ptr)
    (fl : token_File) (p : token_Pos) :
  File_deref h f = Some fl ->
  line_table (lines fl) ->
  exists pos,
    File_PositionFor h f p = Some pos
    ∧ (Position_IsValid pos = true <-> p ≠ token_NoPos ∧ (0 <= off p)%Z)
    ∧ (p = token_NoPos -> pos = token_Position_zero)
    ∧ (p ≠ token_NoPos -> (off p < 0)%Z ->
       pos = mkPosition (filename fl) (off p) 0 0).
Proof.
  intros Hfl Htable. destruct (decide (p = token_NoPos)) as [->|Hp].
  { exists token_Position_zero. split; [done|]. split; [|done].
    split; [done|]. by intros [? _]. }
  destruct (File_PositionFor_line_table h f fl p Hfl Htable Hp)
    as [[Hneg ->]|(Hoff & i & start & Hstart & Hbounds & Hnext & ->)];
    eexists; (split; [done|]); unfold Position_IsValid; cbn [Line];
    rewrite bool_decide_eq_true.
  - split; [|done]. split; [lia|]. intros [_ ?]. lia.
  - split; [|split; [done|lia]]. split; [done|lia].
Qed.

Lemma File_PositionFor_valid_iff_witness :
  let fl := mkFile "a.river" [0; 10; 25]%Z in
  let h : Files := {[ 1%positive := fl ]} in
  let f : File_ptr := Some 1%positive in
  let p := Pos_Add (mkPos f 3) (-5) in
  File_deref h f = Some fl
  ∧ line_table (lines fl)
  ∧ exists pos,
      File_PositionFor h f p = Some pos
      ∧ (Position_IsValid pos = true <-> p ≠ token_NoPos ∧ (0 <= off p)%Z)
      ∧ (p = token_NoPos -> pos = token_Position_zero)
      ∧ (p ≠ token_NoPos -> (off p < 0)%Z ->
         pos = mkPosition (filename fl) (off p) 0 0).
Proof.
  cbv zeta.
  assert (Hfl : File_deref ({[ 1%positive := mkFile "a.river" [0; 10; 25]%Z ]} : Files)
                  (Some 1%positive) = Some (mkFile "a.river" [0; 10; 25]%Z))
    by reflexivity.
  assert (Htable : line_table (lines (mkFile "a.river" [0; 10; 25]%Z))).
  { split; [reflexivity|]. simpl. repeat constructor. }
  split; [exact Hfl|]. split; [exact Htable|].
  exact (File_PositionFor_valid_iff _ _ _ (Pos_Add (mkPos (Some 1%positive) 3) (-5))
           Hfl Htable).
Defined.

(** X21.  [Pos.Position] panics exactly for a position that has no file
    and is not [NoPos], that is a position without file whose offset is
    not 0, as [NoPos.Add(n)] is for [n] other than 0: such a position
    passes [IsValid].  For [NoPos] it gives the zero position, and for a
    position with a file it always gives a position, whatever the table
    of lines and the offset are. *)
Theorem Pos_Position_panics `{Platform} (h : Files) (p : token_Pos) :
  (forall l, file p = Some l -> is_Some (h !! l)) ->
  (Pos_Position h p = None <-> file p = None ∧ off p ≠ 0%Z)
  ∧ (Pos_Position h p = None <-> Pos_IsValid p = true ∧ Pos_File p = None)
  ∧ Pos_Position h token_NoPos = Some token_Position_zero.
Proof.
  intros Hheap.
  assert (Hpanic : Pos_Position h p = None <-> file p = None ∧ off p ≠ 0%Z).
  { unfold Pos_Position. destruct p as [[l|] o]; simpl in *.
    - destruct (Hheap l eq_refl) as [fl Hfl].
      destruct (File_PositionFor_result h (Some l) fl (mkPos (Some l) o) Hfl
                  ltac:(discriminate))
        as (r & _ & _ & [[_ ->]|(_ & start & _ & ->)]);
        (split; [done|]); by intros [? _].
    - unfold File_PositionFor. case_bool_decide as Hp.
      + split; [done|]. intros [_ Ho]. unfold token_NoPos in Hp. congruence.
      + split; [|done]. intros _. split; [done|]. intros ->. by apply Hp. }
  split; [exact Hpanic|]. split; [|done].
  rewrite Hpanic. unfold Pos_IsValid, Pos_File. rewrite bool_decide_eq_true.
  destruct p as [[l|] o]; simpl; unfold token_NoPos.
  - split; by intros [? ?].
  - split; intros [Ha Hb]; split; try done; congruence.
Qed.

Lemma Pos_Position_panics_witness :
  let h : Files := {[ 1%positive := mkFile "a.river" [0; 10]%Z ]} in
  let p := Pos_Add token_NoPos 4 in
  (forall l, file p = Some l -> is_Some (h !! l))
  ∧ (Pos_Position h p = None <-> file p = None ∧ off p ≠ 0%Z)
  ∧ (Pos_Position h p = None <-> Pos_IsValid p = true ∧ Pos_File p = None)
  ∧ Pos_Position h token_NoPos = Some token_Position_zero.
Proof.
  cbv zeta.
  assert (Hheap : forall l, file (Pos_Add token_NoPos 4) = Some l ->
            is_Some (({[ 1%positive := mkFile "a.river" [0; 10]%Z ]} : Files) !! l))
    by (simpl; discriminate).
  split; [exact Hheap|].
  exact (Pos_Position_panics _ (Pos_Add token_NoPos 4) Hheap).
Defined.

(** ** Positions while lines are added *)

Lemma searchInts_snoc_before (a : list Z) (offset x : Z) :
  Sorted Z.lt a -> Forall (fun y => (y < offset)%Z) a -> (x < offset)%Z ->
  searchInts (a ++ [offset]) x = searchInts a x.
Proof.
  intros Hsorted Hall Hx.
  destruct (searchInts_result a x) as (r & -> & Hrange & Hsep).
  specialize (Hsep (Sorted_lt_le _ Hsorted)).
  apply searchInts_unique.
  - by apply Sorted_lt_le, Sorted_lt_snoc.
  - rewrite length_app. simpl. lia.
  - intros k y Hk. apply lookup_app_Some in Hk as [Hk|[Hlen Hk]].
    + by apply Hsep.
    + apply list_lookup_singleton_Some in Hk as [_ <-]. lia.
Qed.

Lemma searchInts_snoc_after (a : list Z) (offset x : Z) :
  Sorted Z.lt a -> Forall (fun y => (y < offset)%Z) a -> (offset <= x)%Z ->
  searchInts (a ++ [offset]) x = Some (Z.of_nat (length a)).
Proof.
  intros Hsorted Hall Hx. apply searchInts_unique.
  - by apply Sorted_lt_le, Sorted_lt_snoc.
  - rewrite length_app. simpl. lia.
  - intros k y Hk. apply lookup_app_Some in Hk as [Hk|[Hlen Hk]].
    + pose proof (lookup_lt_Some _ _ _ Hk).
      eapply Forall_lookup_1 in Hall; [|done]. simpl in Hall. lia.
    + apply list_lookup_singleton_Some in Hk as [Hk <-]. lia.
Qed.

(** X22.  A position holds the address of its file, so it is read
    against the table of lines as it is when [Position] is called.  When
    [AddLine] is called on a file whose table begins with 0 and increases
    strictly, the positions of other files, and the positions of this file
    before the given offset, are converted as they were before the call;
    when the offset is recorded, the positions of this file at or after it
    are on the new, last line, the column counted from the offset. *)
Theorem File_AddLine_positions `{Platform} (h h' : Files) (l : positive)
    (fl : token_File) (offset : Z) (p : token_Pos) :
  h !! l = Some fl ->
  line_table (lines fl) ->
  File_AddLine h (Some l) offset = Some h' ->
  (file p ≠ Some l ∨ (off p < offset)%Z ->
   Pos_Position h' p = Pos_Position h p)
  ∧ (file p = Some l ->
     Forall (fun y => (y < offset)%Z) (lines fl) ->
     (offset <= off p)%Z ->
     Pos_Position h' p
     = Some (mkPosition (filename fl) (off p) (Z.of_nat (length (lines fl)) + 1)
               (wrap_int (off p - offset + 1)))).
Proof.
  intros Hl [Hzero Hsorted] Hadd.
  destruct (File_AddLine_result h l fl offset Hl Hsorted)
    as [(Hall & Hres & Hsorted')|(Hnot & Hres)];
    rewrite Hres in Hadd; simplify_eq.
  2:{ split; [done|]. intros _ Hall. done. }
  set (fl' := mkFile (filename fl) (lines fl ++ [offset])).
  assert (Hl' : File_deref (<[l := fl']> h) (Some l) = Some fl').
  { unfold File_deref. simpl. by rewrite lookup_insert_eq. }
  split.
  - intros Hcase. unfold Pos_Position.
    destruct (decide (p = token_NoPos)) as [->|Hp]; [done|].
    destruct (decide (file p = Some l)) as [Hfile|Hfile].
    + destruct Hcase as [?|Hoff]; [done|]. rewrite Hfile.
      destruct (File_PositionFor_result h (Some l) fl p Hl Hp)
        as (r & Hr & Hrange & Hpos).
      destruct (File_PositionFor_result (<[l := fl']> h) (Some l) fl' p Hl' Hp)
        as (r' & Hr' & Hrange' & Hpos').
      simpl in Hr'. rewrite searchInts_snoc_before in Hr' by done.
      rewrite Hr in Hr'. simplify_eq.
      destruct Hpos as [[-> ->]|(Hsign & start & Hstart & ->)];
        destruct Hpos' as [[? ->]|(Hsign' & start' & Hstart' & ->)];
        try done; try lia.
      simpl in Hstart'. rewrite lookup_app_l in Hstart' by lia.
      by simplify_eq.
    + unfold File_PositionFor. rewrite !bool_decide_eq_false_2 by done.
      replace (File_deref (<[l := fl']> h) (file p)) with (File_deref h (file p));
        [done|].
      unfold File_deref. destruct (file p) as [l'|]; [|done]. simpl.
      rewrite lookup_insert_ne; [done|]. congruence.
  - intros Hfile _ Hoff. unfold Pos_Position. rewrite Hfile.
    assert (Hp : p ≠ token_NoPos).
    { intros ->. done. }
    destruct (File_PositionFor_result (<[l := fl']> h) (Some l) fl' p Hl' Hp)
      as (r' & Hr' & Hrange' & Hpos').
    simpl in Hr'. rewrite searchInts_snoc_after in Hr' by done. simplify_eq.
    destruct Hpos' as [[? _]|(_ & start' & Hstart' & ->)]; [lia|].
    simpl in Hstart'. rewrite Nat2Z.id in Hstart'.
    rewrite lookup_app_r, Nat.sub_diag in Hstart' by lia.
    simpl in Hstart'. by simplify_eq.
Qed.

Lemma File_AddLine_positions_witness :
  let fl := mkFile "a.river" [0; 10]%Z in
  let h : Files := {[ 1%positive := fl ]} in
  let h' : Files := <[ 1%positive := mkFile "a.river" [0; 10; 25]%Z ]> h in
  let p := mkPos (Some 1%positive) 30 in
  h !! 1%positive = Some fl
  ∧ line_table (lines fl)
  ∧ File_AddLine h (Some 1%positive) 25 = Some h'
  ∧ (file p ≠ Some 1%positive ∨ (off p < 25)%Z ->
     Pos_Position h' p = Pos_Position h p)
  ∧ (file p = Some 1%positive ->
     Forall (fun y => (y < 25)%Z) (lines fl) ->
     (25 <= off p)%Z ->
     Pos_Position h' p
     = Some (mkPosition (filename fl) (off p) (Z.of_nat (length (lines fl)) + 1)
               (wrap_int (off p - 25 + 1)))).
Proof.
  cbv zeta.
  assert (Hl : ({[ 1%positive := mkFile "a.river" [0; 10]%Z ]} : Files) !! 1%positive
               = Some (mkFile "a.river" [0; 10]%Z)) by reflexivity.
  assert (Htable : line_table (lines (mkFile "a.river" [0; 10]%Z))).
  { split; [reflexivity|]. simpl. repeat constructor. }
  assert (Hadd : File_AddLine ({[ 1%positive := mkFile "a.river" [0; 10]%Z ]} : Files)
                   (Some 1%positive) 25
                 = Some (<[ 1%positive := mkFile "a.river" [0; 10; 25]%Z ]>
                           ({[ 1%positive := mkFile "a.river" [0; 10]%Z ]} : Files)))
    by reflexivity.
  split; [exact Hl|]. split; [exact Htable|]. split; [exact Hadd|].
  exact (File_AddLine_positions _ _ 1%positive _ 25%Z (mkPos (Some 1%positive) 30)
           Hl Htable Hadd).
Defined.

(** X23.  In a file whose table of line starts begins with 0 and
    increases strictly, positions are ordered as their offsets are: of
    two positions of the file with offsets that are not negative, the one
    with the smaller offset is on an earlier line, or on the same line at
    a smaller column, and on the same line the columns differ as the
    offsets do. *)
Theorem Pos_Position_order `{Platform} (h : Files) (l : positive) (fl : token_File)
    (p q : token_Pos) :
  h !! l = Some fl ->
  line_table (lines fl) ->
  file p = Some l -> file q = Some l ->
  (0 <= off p < off q)%Z ->
  is_int (off q + 1) ->
  exists pp pq,
    Pos_Position h p = Some pp
    ∧ Pos_Position h q = Some pq
    ∧ ((Line pp < Line pq)%Z ∨ (Line pp = Line pq ∧ (Column pp < Column pq)%Z))
    ∧ (Line pp = Line pq -> (Column pq - Column pp = off q - off p)%Z).
Proof.
  intros Hl Htable Hp Hq Hoff Hint. unfold Pos_Position. rewrite Hp, Hq.
  assert (Hp' : p ≠ token_NoPos) by (by intros ->).
  assert (Hq' : q ≠ token_NoPos) by (by intros ->).
  destruct (File_PositionFor_line_table h (Some l) fl p Hl Htable Hp')
    as [[Hneg _]|(_ & i & start & Hstart & Hbounds & Hnext & ->)]; [lia|].
  destruct (File_PositionFor_line_table h (Some l) fl q Hl Htable Hq')
    as [[Hneg _]|(_ & i' & start' & Hstart' & Hbounds' & Hnext' & ->)]; [lia|].
  rewrite !wrap_int_id by (unfold is_int in *; lia).
  eexists _, _. split; [done|]. split; [done|]. simpl.
  destruct Htable as [_ Hsorted].
  assert (Hle : i ≤ i').
  { destruct (decide (i ≤ i')) as [|Hgt]; [done|]. exfalso.
    pose proof (lookup_lt_Some _ _ _ Hstart).
    destruct (lookup_lt_is_Some_2 (lines fl) (i' + 1) ltac:(lia)) as [next Hn].
    pose proof (Hnext' next Hn).
    pose proof (Sorted_le_lookup (lines fl) (i' + 1) i next start
                  (Sorted_lt_le _ Hsorted) Hn Hstart ltac:(lia)).
    lia. }
  destruct (decide (i = i')) as [->|Hne].
  - simplify_eq. split; [right; split; [done|lia]|]. intros _. lia.
  - split; [left; lia|]. intros ?. lia.
Qed.

Lemma Pos_Position_order_witness :
  let fl := mkFile "a.river" [0; 10; 25]%Z in
  let h : Files := {[ 1%positive := fl ]} in
  let p := mkPos (Some 1%positive) 9 in
  let q := mkPos (Some 1%positive) 10 in
  h !! 1%positive = Some fl
  ∧ line_table (lines fl)
  ∧ file p = Some 1%positive ∧ file q = Some 1%positive
  ∧ (0 <= off p < off q)%Z
  ∧ is_int (off q + 1)
  ∧ exists pp pq,
      Pos_Position h p = Some pp
      ∧ Pos_Position h q = Some pq
      ∧ ((Line pp < Line pq)%Z ∨ (Line pp = Line pq ∧ (Column pp < Column pq)%Z))
      ∧ (Line pp = Line pq -> (Column pq - Column pp = off q - off p)%Z).
Proof.
  cbv zeta.
  assert (Hl : ({[ 1%positive := mkFile "a.river" [0; 10; 25]%Z ]} : Files) !! 1%positive
               = Some (mkFile "a.river" [0; 10; 25]%Z)) by reflexivity.
  assert (Htable : line_table (lines (mkFile "a.river" [0; 10; 25]%Z))).
  { split; [reflexivity|]. simpl. repeat constructor. }
  assert (Hoff : (0 <= off (mkPos (Some 1%positive) 9) < off (mkPos (Some 1%positive) 10))%Z)
    by (simpl; lia).
  assert (Hint : is_int (off (mkPos (Some 1%positive) 10) + 1)).
  { unfold is_int. simpl. lia. }
  split; [exact Hl|]. split; [exact Htable|]. split; [reflexivity|].
  split; [reflexivity|]. split; [exact Hoff|]. split; [exact Hint|].
  exact (Pos_Position_order _ 1%positive _ (mkPos (Some 1%positive) 9)
           (mkPos (Some 1%positive) 10) Hl Htable eq_refl eq_refl Hoff Hint).
Defined.

(** X24.  [Add] keeps the file and adds to the offset, wrapping around as
    [int] does: adding [n] and then [m] is adding [n + m], so adding [n]
    and then [-n] gives the position back; and where the sum is an [int]
    that is not negative, adding [n] to the position [File.Pos] makes for
    an offset is the position it makes for the offset plus [n]. *)
Theorem Pos_Add_compose `{Platform} (p : token_Pos) (n m : Z) :
  is_int (off p) ->
  Pos_Add (Pos_Add p n) m = Pos_Add p (n + m)
  ∧ Pos_File (Pos_Add p n) = Pos_File p
  ∧ Pos_Add (Pos_Add p n) (- n) = p
  ∧ (is_int (off p + n) -> Pos_Offset (Pos_Add p n) = (off p + n)%Z)
  ∧ (is_int (off p + n) -> (0 <= off p + n)%Z ->
     File_Pos (Pos_File p) (off p + n) = Some (Pos_Add p n)).
Proof.
  intros Hint. unfold Pos_Add, Pos_File, Pos_Offset. simpl.
  split; [by rewrite wrap_int_add_l, Z.add_assoc|]. split; [done|].
  split; [|split].
  - rewrite wrap_int_add_l.
    replace (off p + n + - n)%Z with (off p) by lia.
    rewrite wrap_int_id by done. by destruct p.
  - intros Hsum. by apply wrap_int_id.
  - intros Hsum Hpos. unfold File_Pos.
    rewrite (proj2 (Z.ltb_ge _ _)) by lia. by rewrite wrap_int_id.
Qed.

Lemma Pos_Add_compose_witness :
  let p := mkPos (Some 1%positive) 7 in
  is_int (off p)
  ∧ Pos_Add (Pos_Add p 5) (-9) = Pos_Add p (5 + -9)
  ∧ Pos_File (Pos_Add p 5) = Pos_File p
  ∧ Pos_Add (Pos_Add p 5) (- 5) = p
  ∧ (is_int (off p + 5) -> Pos_Offset (Pos_Add p 5) = (off p + 5)%Z)
  ∧ (is_int (off p + 5) -> (0 <= off p + 5)%Z ->
     File_Pos (Pos_File p) (off p + 5) = Some (Pos_Add p 5)).
Proof.
  cbv zeta.
  assert (Hint : is_int (off (mkPos (Some 1%positive) 7))).
  { unfold is_int. simpl. lia. }
  split; [exact Hint|].
  exact (Pos_Add_compose (mkPos (Some 1%positive) 7) 5 (-9) Hint).
Defined.

(** ** The text of a position *)

Lemma String_length_app (s t : string) :
  String.length (s +:+ t) = String.length s + String.length t.
Proof. induction s as [|c s IH]; simpl; [done|]. by rewrite IH. Qed.

Lemma pretty_N_go_nonempty (x : N) : forall s,
  (0 < x)%N ∨ s ≠ "" -> pretty_N_go x s ≠ "".
Proof.
  induction (N.lt_wf_0 x) as [x _ IH]; intros s Hcase.
  destruct (decide (x = 0%N)) as [->|Hx].
  - rewrite pretty_N_go_0. destruct Hcase as [?|?]; [lia|done].
  - rewrite pretty_N_go_step by lia. apply IH.
    + apply N.div_lt; lia.
    + by right.
Qed.

(** The decimal numeral of a number that is at least 1 has a digit and is
    not a lone sign. *)
Lemma pretty_line (n : Z) :
  (1 <= n)%Z -> 1 ≤ String.length (pretty n) ∧ pretty n ≠ "-".
Proof.
  intros Hn. destruct n as [|x|x]; [lia| |lia].
  unfold pretty, pretty_Z, pretty, pretty_positive, pretty, pretty_N.
  destruct (decide (N.pos x = 0%N)) as [|_]; [done|]. split.
  - pose proof (pretty_N_go_nonempty (N.pos x) "" ltac:(left; lia)) as Hne.
    destruct (pretty_N_go (N.pos x) ""); [done|simpl; lia].
  - by apply (pretty_N_go_ne_dash (N.pos x) "" "").
Qed.

(** X25.  [Position.String] never returns the empty string.  It returns
    the lone dash exactly for a position that is not valid and whose file
    name is empty or is itself a dash; a position that is not valid and
    has any other file name gives that name alone, without line and
    column, and a valid position never gives the dash, with or without a
    file name and a column. *)
Theorem Position_String_dash (pos : token_Position) :
  Position_String pos ≠ ""
  ∧ (Position_String pos = "-"
     <-> Position_IsValid pos = false ∧ (Filename pos = "" ∨ Filename pos = "-"))
  ∧ (Position_IsValid pos = false -> Filename pos ≠ "" ->
     Position_String pos = Filename pos).
Proof.
  unfold Position_String. destruct (Position_IsValid pos) eqn:Hvalid.
  - apply bool_decide_eq_true in Hvalid.
    destruct (pretty_line (Line pos) Hvalid) as [Hlen Hdash].
    set (pre := if bool_decide (Filename pos ≠ "") then Filename pos +:+ ":"
                else Filename pos).
    assert (Hpre : pre = "" ∨ 2 ≤ String.length pre).
    { unfold pre. case_bool_decide as Hname.
      - right. rewrite String_length_app. simpl.
        destruct (Filename pos); [done|simpl; lia].
      - left. by destruct (decide (Filename pos = "")). }
    set (s := if bool_decide (Column pos ≠ 0%Z)
              then (pre +:+ pretty (Line pos)) +:+ ":" +:+ pretty (Column pos)
              else pre +:+ pretty (Line pos)).
    assert (Hs : 1 ≤ String.length s ∧ s ≠ "-").
    { unfold s. case_bool_decide as Hcolumn.
      - rewrite !String_length_app. simpl. split; [lia|].
        intros Heq. apply (f_equal String.length) in Heq.
        rewrite !String_length_app in Heq. simpl in Heq. lia.
      - rewrite String_length_app. split; [lia|].
        destruct Hpre as [->|Hpre]; [done|].
        intros Heq. apply (f_equal String.length) in Heq.
        rewrite String_length_app in Heq. simpl in Heq. lia. }
    destruct Hs as [Hslen Hsdash]. case_bool_decide as Hempty.
    { rewrite Hempty in Hslen. simpl in Hslen. lia. }
    split; [done|]. split; [|done]. split; [done|]. by intros [? _].
  - case_bool_decide as Hname.
    + rewrite Hname. split; [done|]. split; [|done]. split; [|done].
      intros _. split; [done|]. by left.
    + split; [done|]. split; [|done]. split.
      * intros Heq. split; [done|]. by right.
      * intros [_ [?|?]]; done.
Qed.
